(** * Unary operators of ATen (aten/src/ATen/native/UnaryOps.cpp)

    A shallow embedding of the unary-operator facade: the three call forms
    (allocate-and-return, into-buffer, in-place) that the file derives from one
    into-buffer primitive, the checks each operator performs before it builds a
    TensorIterator and dispatches its stub, and the complex-to-real policy of
    [abs] and [angle].

    C++ references to tensors are handles into a heap of tensor descriptors and
    storages, so that [op_(self)] really writes the cells it reads.  A failing
    [TORCH_CHECK] keeps every side effect made before it, as a C++ exception
    does.  The per-element mathematics of a kernel is a parameter of the
    development; the floating-point constants and conversions the file itself
    writes are computed, with the rounding of IEEE 754. *)

From Stdlib Require Import ZArith QArith Lia Lqa SpecFloat.
From stdpp Require Import base tactics option list strings.

Local Open Scope string_scope.
Local Open Scope list_scope.
Local Open Scope nat_scope.

(** ** Scalar types, layouts, devices *)

(** Modelled from the spec: c10::ScalarType (c10/core/ScalarType.h is not part
    of this file).  The element kinds of section 3: unsigned and signed integer
    widths, floating widths, boolean, complex-of-floating. *)
Inductive ScalarType : Set :=
| Byte | Char | Short | Int | Long
| Half | Float | Double | BFloat16
| ComplexHalf | ComplexFloat | ComplexDouble
| Bool.

#[global] Instance ScalarType_eq_dec : EqDecision ScalarType.
Proof. solve_decision. Defined.

(** Modelled from the spec: c10::isComplexType, "complex-of-floating". *)
Definition isComplexType (t : ScalarType) : bool :=
  match t with
  | ComplexHalf | ComplexFloat | ComplexDouble => true
  | _ => false
  end.

(** Modelled from the spec: c10::isFloatingType, the "floating widths". *)
Definition isFloatingType (t : ScalarType) : bool :=
  match t with
  | Half | Float | Double | BFloat16 => true
  | _ => false
  end.

(** Modelled from the spec: c10::toValueType, "the real-valued counterpart of
    the input dtype"; a dtype that is not complex is its own counterpart. *)
Definition toValueType (t : ScalarType) : ScalarType :=
  match t with
  | ComplexHalf => Half
  | ComplexFloat => Float
  | ComplexDouble => Double
  | _ => t
  end.

Definition ScalarType_name (t : ScalarType) : string :=
  match t with
  | Byte => "Byte" | Char => "Char" | Short => "Short" | Int => "Int"
  | Long => "Long" | Half => "Half" | Float => "Float" | Double => "Double"
  | BFloat16 => "BFloat16" | ComplexHalf => "ComplexHalf"
  | ComplexFloat => "ComplexFloat" | ComplexDouble => "ComplexDouble"
  | Bool => "Bool"
  end.

(** Modelled from the spec: c10::Layout; only [Strided] is named by this file. *)
Inductive Layout : Set := Strided | Sparse | Mkldnn.

#[global] Instance Layout_eq_dec : EqDecision Layout.
Proof. solve_decision. Defined.

Definition Layout_name (l : Layout) : string :=
  match l with Strided => "Strided" | Sparse => "Sparse" | Mkldnn => "Mkldnn" end.

(** Modelled from the spec: c10::DeviceType, the "device tag" of a view. *)
Inductive DeviceType : Set := CPU | CUDA | HIP | XLA.

#[global] Instance DeviceType_eq_dec : EqDecision DeviceType.
Proof. solve_decision. Defined.

Record TensorOptions : Set := mkOptions {
  dtype : ScalarType;
  layout : Layout;
  device : DeviceType
}.

#[global] Instance TensorOptions_eq_dec : EqDecision TensorOptions.
Proof. solve_decision. Defined.

(** [self.options().dtype(t)] *)
Definition with_dtype (o : TensorOptions) (t : ScalarType) : TensorOptions :=
  mkOptions t (layout o) (device o).

(** ** The dispatch stubs this file defines (DEFINE_DISPATCH, lines 486-531) *)

Inductive Stub : Set :=
| abs_stub | angle_stub | real_stub | imag_stub | conj_stub | acos_stub
| acosh_stub | asinh_stub | atanh_stub | asin_stub | atan_stub
| bitwise_not_stub | ceil_stub | clamp_stub | clamp_max_stub | clamp_min_stub
| cos_stub | cosh_stub | digamma_stub | erf_stub | erfc_stub | erfinv_stub
| exp_stub | expm1_stub | floor_stub | frac_stub | log_stub | log10_stub
| log1p_stub | log2_stub | logical_not_stub | neg_stub | polygamma_stub
| reciprocal_stub | round_stub | rsqrt_stub | sigmoid_stub | sign_stub
| sin_stub | sinh_stub | sqrt_stub | tan_stub | tanh_stub | trigamma_stub
| trunc_stub | lgamma_stub.

#[global] Instance Stub_eq_dec : EqDecision Stub.
Proof. solve_decision. Defined.

(** The operator a stub is the dispatch entry of: its name without [_stub]. *)
Definition stub_operator (s : Stub) : string :=
  match s with
  | abs_stub => "abs" | angle_stub => "angle" | real_stub => "real"
  | imag_stub => "imag" | conj_stub => "conj" | acos_stub => "acos"
  | acosh_stub => "acosh" | asinh_stub => "asinh" | atanh_stub => "atanh"
  | asin_stub => "asin" | atan_stub => "atan"
  | bitwise_not_stub => "bitwise_not" | ceil_stub => "ceil"
  | clamp_stub => "clamp" | clamp_max_stub => "clamp_max"
  | clamp_min_stub => "clamp_min" | cos_stub => "cos" | cosh_stub => "cosh"
  | digamma_stub => "digamma" | erf_stub => "erf" | erfc_stub => "erfc"
  | erfinv_stub => "erfinv" | exp_stub => "exp" | expm1_stub => "expm1"
  | floor_stub => "floor" | frac_stub => "frac" | log_stub => "log"
  | log10_stub => "log10" | log1p_stub => "log1p" | log2_stub => "log2"
  | logical_not_stub => "logical_not" | neg_stub => "neg"
  | polygamma_stub => "polygamma" | reciprocal_stub => "reciprocal"
  | round_stub => "round" | rsqrt_stub => "rsqrt" | sigmoid_stub => "sigmoid"
  | sign_stub => "sign" | sin_stub => "sin" | sinh_stub => "sinh"
  | sqrt_stub => "sqrt" | tan_stub => "tan" | tanh_stub => "tanh"
  | trigamma_stub => "trigamma" | trunc_stub => "trunc"
  | lgamma_stub => "lgamma"
  end.

(** ** Scalars and errors *)

(** Modelled from the spec: c10::Scalar, "a tagged union over the supported
    dtypes representing a zero-dimensional operand".  A double is kept as the
    rational it is; a float given for a Scalar is stored as the double of the
    same value. *)
Inductive Scalar : Set :=
| ScalarInt (z : Z)
| ScalarDouble (q : Q)
| ScalarBool (b : bool).

(** ** Floating-point values *)

(** [round_int prec n] is the integer [n] rounded to [prec] significant bits,
    to nearest and ties to even.  It is an integer again. *)
Definition round_int (prec n : Z) : Z :=
  let a := Z.abs n in
  let sh := (Z.log2 a + 1 - prec)%Z in
  if (sh <=? 0)%Z then n
  else
    let q := Z.shiftr a sh in
    let r := Z.land a (Z.ones sh) in
    let half := Z.shiftl 1 (sh - 1) in
    let q' := if (half <? r)%Z || ((r =? half)%Z && Z.odd q) then (q + 1)%Z else q in
    (Z.sgn n * Z.shiftl q' sh)%Z.

(** The conversions of an [int64_t] to [float] and to [double]: 24 and 53
    significant bits.  No [int64_t] is out of the range of either format. *)
Definition to_float (n : Z) : Z := round_int 24 n.
Definition to_double (n : Z) : Z := round_int 53 n.

(** [round_ratio prec a b], for positive [a] and [b], is the rational [a / b]
    rounded to [prec] significant bits, to nearest and ties to even: [L] is
    the exponent of its leading bit and [e] the exponent of its last bit. *)
Definition round_ratio (prec a b : Z) : Q :=
  let d := (Z.log2 a - Z.log2 b)%Z in
  let L := if (a * 2 ^ Z.max 0 (- d) <? b * 2 ^ Z.max 0 d)%Z then (d - 1)%Z else d in
  let e := (L + 1 - prec)%Z in
  let n := (a * 2 ^ Z.max 0 (- e))%Z in
  let m := (b * 2 ^ Z.max 0 e)%Z in
  let q := (n / m)%Z in
  let r := (n mod m)%Z in
  let q' := if (m <? 2 * r)%Z || ((m =? 2 * r)%Z && Z.odd q) then (q + 1)%Z else q in
  Qmake (q' * 2 ^ Z.max 0 e) (Z.to_pos (2 ^ Z.max 0 (- e))).

(** The double a decimal literal denotes: the double nearest to
    [digits / 10 ^ places]. *)
Definition double_literal (digits places : Z) : Q :=
  round_ratio 53 digits (10 ^ places).

(** The rational a finite float of the Standard Library's specification of
    IEEE 754 denotes. *)
Definition SF2Q (f : spec_float) : Q :=
  match f with
  | S754_finite s m e =>
      Qmake ((if s then Z.neg m else Z.pos m) * 2 ^ Z.max 0 e)
        (Z.to_pos (2 ^ Z.max 0 (- e)))
  | _ => 0
  end.

(** The failure taxonomy of section 7 of the spec.  The source raises
    [c10::Error] with a message everywhere; the kind attached to each
    [TORCH_CHECK] below is its place in that taxonomy. *)
Inductive ErrorKind : Set :=
| ShapeMismatch | UnsafeAliasing | UnsupportedDtype | UnsupportedDevice
| UnsupportedLayout | InvalidCast | InvalidArgument.

#[global] Instance ErrorKind_eq_dec : EqDecision ErrorKind.
Proof. solve_decision. Defined.

(** What went wrong inside the iteration-plan builder. *)
Inductive PlanError : Set := PlanShapeMismatch | PlanUnsafeAliasing | PlanDtypeMismatch.

Inductive Error : Set :=
| CheckFailure (k : ErrorKind) (msg : string)
    (* a TORCH_CHECK or AT_ERROR of this file *)
| PlanFailure (e : PlanError)
    (* raised while a TensorIterator is built, or by resize_/copy_ *)
| DispatchFailure (s : Stub) (d : DeviceType)
    (* no kernel registered for the device: UnsupportedDevice *)
| ExternalFailure (msg : string)
    (* raised inside another ATen operator *)
| UndefinedTensor.
    (* a handle that names no tensor *)

(** The validation failures: what the checks of this file raise. *)
Definition is_validation_failure (e : Error) : bool :=
  match e with CheckFailure _ _ => true | _ => false end.

Definition error_kind (e : Error) : option ErrorKind :=
  match e with
  | CheckFailure k _ => Some k
  | PlanFailure PlanShapeMismatch => Some ShapeMismatch
  | PlanFailure PlanUnsafeAliasing => Some UnsafeAliasing
  | PlanFailure PlanDtypeMismatch => None
  | DispatchFailure _ _ => Some UnsupportedDevice
  | ExternalFailure _ => None
  | UndefinedTensor => None
  end.

(** ** Storage cells *)

Section Memory.
Context {Val : Type}.
Variable garbage : Val.   (* what an uninitialised or out-of-range cell reads as *)

(** All storages of the heap; a storage is an array of real-valued cells.  A
    complex element occupies two consecutive cells (real part, imaginary
    part), any other element one. *)
Definition load (m : list (list Val)) (s i : nat) : Val :=
  default garbage (m !! s ≫= (λ st, st !! i)).

Definition store (m : list (list Val)) (s i : nat) (v : Val) : list (list Val) :=
  alter (λ st, <[i := v]> st) s m.

Definition in_bounds (m : list (list Val)) (s i : nat) : Prop :=
  ∃ st, m !! s = Some st ∧ i < length st.

(** The cells of the element at element offset [o], for elements [w] cells wide. *)
Definition cells (w o : nat) : list nat := seq (w * o) w.

Definition read_elem (m : list (list Val)) (s w o : nat) : list Val :=
  load m s <$> cells w o.

Fixpoint store_cells (m : list (list Val)) (s : nat) (ix : list nat) (vs : list Val)
  : list (list Val) :=
  match ix, vs with
  | i :: ix', v :: vs' => store_cells (store m s i v) s ix' vs'
  | _, _ => m
  end.

(** Exactly [w] cells of a computed element are written. *)
Definition pad (w : nat) (vs : list Val) : list Val :=
  take w (vs ++ replicate w garbage).

Definition write_elem (m : list (list Val)) (s w o : nat) (vs : list Val) :=
  store_cells m s (cells w o) (pad w vs).

(** The elementwise loop of a kernel: for every pair of an input and an output
    element offset, in order, read the input element, apply [g], write the
    output element.  Input and output may share cells. *)
Definition elem_step (g : list Val → list Val) (s_in w_in s_out w_out : nat)
    (m : list (list Val)) (p : nat * nat) : list (list Val) :=
  write_elem m s_out w_out p.2 (g (read_elem m s_in w_in p.1)).

Definition elementwise (g : list Val → list Val) (s_in w_in s_out w_out : nat)
    (pairs : list (nat * nat)) (m : list (list Val)) : list (list Val) :=
  fold_left (elem_step g s_in w_in s_out w_out) pairs m.

(** Two elements that share no cell. *)
Definition elem_disj (s w o s' w' o' : nat) : Prop :=
  s ≠ s' ∨ ∀ i, i ∈ cells w o → i ∉ cells w' o'.

(** No element is written before a later iteration reads it, and no element
    is written twice. *)
Fixpoint hazard_free (s_in w_in s_out w_out : nat) (pairs : list (nat * nat)) : Prop :=
  match pairs with
  | [] => True
  | p :: ps =>
      (∀ q, q ∈ ps →
         elem_disj s_out w_out p.2 s_in w_in q.1 ∧
         elem_disj s_out w_out p.2 s_out w_out q.2) ∧
      hazard_free s_in w_in s_out w_out ps
  end.

Lemma length_pad w vs : length (pad w vs) = w.
Proof.
  unfold pad. rewrite length_take, length_app, length_replicate. lia.
Qed.

Lemma length_cells w o : length (cells w o) = w.
Proof. unfold cells. by rewrite length_seq. Qed.

Lemma NoDup_cells w o : NoDup (cells w o).
Proof. apply NoDup_seq. Qed.

Lemma elem_of_cells w o i : i ∈ cells w o ↔ w * o ≤ i < w * o + w.
Proof. unfold cells. rewrite elem_of_seq. lia. Qed.

Lemma cells_disjoint w o o' i : o ≠ o' → i ∈ cells w o → i ∉ cells w o'.
Proof.
  rewrite !elem_of_cells. intros Hne [H1 H2] [H3 H4].
  apply Hne. nia.
Qed.

Lemma length_store m s i v : length (store m s i v) = length m.
Proof. unfold store. by rewrite length_alter. Qed.

Lemma in_bounds_store m s i v s' i' :
  in_bounds m s' i' → in_bounds (store m s i v) s' i'.
Proof.
  intros (st & Hst & Hi). unfold in_bounds, store.
  destruct (decide (s = s')) as [->|Hne].
  - exists (<[i := v]> st). rewrite list_lookup_alter_eq, Hst. simpl.
    by rewrite length_insert.
  - exists st. by rewrite list_lookup_alter_ne.
Qed.

Lemma load_store_eq m s i v : in_bounds m s i → load (store m s i v) s i = v.
Proof.
  intros (st & Hst & Hi). unfold load, store.
  rewrite list_lookup_alter_eq, Hst. simpl.
  by rewrite list_lookup_insert_eq.
Qed.

Lemma load_store_ne m s i v s' i' :
  s ≠ s' ∨ i ≠ i' → load (store m s i v) s' i' = load m s' i'.
Proof.
  intros Hne. unfold load, store.
  destruct (decide (s = s')) as [->|Hs].
  - rewrite list_lookup_alter_eq. destruct (m !! s') as [st|]; simpl; [|done].
    rewrite list_lookup_insert_ne; [done|]. destruct Hne; congruence.
  - by rewrite list_lookup_alter_ne.
Qed.

Lemma in_bounds_store_cells m s ix vs s' i' :
  in_bounds m s' i' → in_bounds (store_cells m s ix vs) s' i'.
Proof.
  revert m vs. induction ix as [|i ix IH]; intros m [|v vs] H; simpl; auto.
  apply IH. by apply in_bounds_store.
Qed.

Lemma length_store_cells m s ix vs : length (store_cells m s ix vs) = length m.
Proof.
  revert m vs. induction ix as [|i ix IH]; intros m [|v vs]; simpl; auto.
  by rewrite IH, length_store.
Qed.

(** A cell that is not among the written ones keeps its content. *)
Lemma load_store_cells_other m s ix vs s' i' :
  (s ≠ s' ∨ i' ∉ ix) → load (store_cells m s ix vs) s' i' = load m s' i'.
Proof.
  revert m vs. induction ix as [|i ix IH]; intros m [|v vs] H; simpl; auto.
  rewrite IH.
  - apply load_store_ne. destruct H as [H|H]; [by left|right].
    intros ->. apply H. by left.
  - destruct H as [H|H]; [by left|right]. intros Hin. apply H. by right.
Qed.

(** Reading back the cells just written. *)
Lemma load_store_cells_same m s ix vs :
  NoDup ix → length ix = length vs → (∀ i, i ∈ ix → in_bounds m s i) →
  load (store_cells m s ix vs) s <$> ix = vs.
Proof.
  revert m vs. induction ix as [|i ix IH]; intros m [|v vs] Hnd Hlen Hin;
    simpl in *; try done.
  inversion_clear Hnd as [|? ? Hni Hnd'].
  f_equal.
  - rewrite load_store_cells_other by (by right).
    apply load_store_eq, Hin. by left.
  - apply IH; [done|lia|].
    intros j Hj. apply in_bounds_store, Hin. by right.
Qed.

Lemma read_write_same m s w o vs :
  (∀ i, i ∈ cells w o → in_bounds m s i) →
  read_elem (write_elem m s w o vs) s w o = pad w vs.
Proof.
  intros Hin. unfold read_elem, write_elem.
  apply load_store_cells_same; [apply NoDup_cells| |done].
  by rewrite length_cells, length_pad.
Qed.

Lemma read_write_other m s w o vs s' w' o' :
  elem_disj s w o s' w' o' →
  read_elem (write_elem m s w o vs) s' w' o' = read_elem m s' w' o'.
Proof.
  intros Hd. unfold read_elem, write_elem.
  apply list_fmap_ext. intros k i Hk.
  apply load_store_cells_other.
  destruct Hd as [Hd|Hd]; [by left|right].
  intros Hi. apply (Hd i Hi). by eapply list_elem_of_lookup_2.
Qed.

Lemma in_bounds_write_elem m s w o vs s' i' :
  in_bounds m s' i' → in_bounds (write_elem m s w o vs) s' i'.
Proof. apply in_bounds_store_cells. Qed.

Lemma elementwise_cons g s_in w_in s_out w_out p ps m :
  elementwise g s_in w_in s_out w_out (p :: ps) m
  = elementwise g s_in w_in s_out w_out ps
      (write_elem m s_out w_out p.2 (g (read_elem m s_in w_in p.1))).
Proof. reflexivity. Qed.

Lemma in_bounds_elementwise g s_in w_in s_out w_out pairs m s' i' :
  in_bounds m s' i' →
  in_bounds (elementwise g s_in w_in s_out w_out pairs m) s' i'.
Proof.
  revert m. induction pairs as [|p ps IH]; intros m H; [done|].
  rewrite elementwise_cons. apply IH. by apply in_bounds_write_elem.
Qed.

Lemma length_elementwise g s_in w_in s_out w_out pairs m :
  length (elementwise g s_in w_in s_out w_out pairs m) = length m.
Proof.
  revert m. induction pairs as [|p ps IH]; intros m; [done|].
  rewrite elementwise_cons, IH. apply length_store_cells.
Qed.

(** The loop leaves alone every element it does not write. *)
Lemma elementwise_frame g s_in w_in s_out w_out pairs m s w o :
  (∀ q, q ∈ pairs → elem_disj s_out w_out q.2 s w o) →
  read_elem (elementwise g s_in w_in s_out w_out pairs m) s w o = read_elem m s w o.
Proof.
  revert m. induction pairs as [|p ps IH]; intros m H; [done|].
  rewrite elementwise_cons, IH.
  - apply read_write_other, H. by left.
  - intros q Hq. apply H. by right.
Qed.

(** What the loop computes: every output element holds [g] of the input
    element as it was before the loop. *)
Lemma elementwise_spec g s_in w_in s_out w_out pairs m :
  hazard_free s_in w_in s_out w_out pairs →
  (∀ q i, q ∈ pairs → i ∈ cells w_out q.2 → in_bounds m s_out i) →
  (λ q, read_elem (elementwise g s_in w_in s_out w_out pairs m) s_out w_out q.2)
    <$> pairs
  = (λ q, pad w_out (g (read_elem m s_in w_in q.1))) <$> pairs.
Proof.
  revert m. induction pairs as [|p ps IH]; intros m Hhz Hin; [done|].
  destruct Hhz as [Hp Hhz]. rewrite !fmap_cons. f_equal.
  - rewrite elementwise_cons, elementwise_frame.
    + apply read_write_same. intros i Hi. eapply Hin; [by left|done].
    + intros q Hq. destruct (Hp q Hq) as [_ Hd].
      destruct Hd as [Hd|Hd]; [by left|right].
      intros i Hi Hi'. by apply (Hd i Hi').
  - etrans.
    { apply list_fmap_ext. intros k q Hk. rewrite elementwise_cons. reflexivity. }
    rewrite IH; [|done|].
    + apply list_fmap_ext. intros k q Hk. do 2 f_equal.
      apply read_write_other. apply Hp. by eapply list_elem_of_lookup_2.
    + intros q i Hq Hi. apply in_bounds_write_elem. eapply Hin; [by right|done].
Qed.

(** In place: input and output are the same elements. *)
Lemma hazard_free_in_place s w os :
  NoDup os → hazard_free s w s w (zip os os).
Proof.
  induction os as [|o os IH]; intros Hnd; simpl; [done|].
  inversion_clear Hnd as [|? ? Hni Hnd'].
  split; [|by apply IH].
  intros [q1 q2] Hq. simpl.
  assert (q1 = q2 ∧ q2 ∈ os) as [-> Hq2].
  { clear -Hq. induction os as [|o' os IH]; simpl in Hq.
    - by apply elem_of_nil in Hq.
    - apply elem_of_cons in Hq as [Hq|Hq].
      + inversion Hq; subst. split; [done|by left].
      + destruct (IH Hq) as [? ?]. split; [done|by right]. }
  assert (o ≠ q2) by (intros ->; done).
  split; right; intros i; by apply cells_disjoint.
Qed.

(** Out of place: the output lives in another storage. *)
Lemma hazard_free_fresh s_in w_in s_out w_out (ins outs : list nat) :
  s_in ≠ s_out → NoDup outs →
  hazard_free s_in w_in s_out w_out (zip ins outs).
Proof.
  intros Hs. revert ins. induction outs as [|o outs IH]; intros ins Hnd.
  - destruct ins; simpl; done.
  - destruct ins as [|a ins]; simpl; [done|].
    inversion_clear Hnd as [|? ? Hni Hnd'].
    split; [|by apply IH].
    intros [q1 q2] Hq. simpl. split; [by left|right].
    assert (q2 ∈ outs).
    { clear -Hq. revert ins Hq. induction outs as [|o' outs IH]; intros ins Hq.
      - destruct ins; simpl in Hq; by apply elem_of_nil in Hq.
      - destruct ins as [|a' ins]; simpl in Hq; [by apply elem_of_nil in Hq|].
        apply elem_of_cons in Hq as [Hq|Hq].
        + inversion Hq; subst. by left.
        + right. by eapply IH. }
    assert (o ≠ q2) by (intros ->; done).
    intros i. by apply cells_disjoint.
Qed.

Lemma load_app_l m m' s i : s < length m → load (m ++ m') s i = load m s i.
Proof. intros H. unfold load. by rewrite lookup_app_l. Qed.

Lemma read_elem_app_l m m' s w o :
  s < length m → read_elem (m ++ m') s w o = read_elem m s w o.
Proof.
  intros H. unfold read_elem. apply list_fmap_ext. intros ? ? _.
  by apply load_app_l.
Qed.

Lemma in_bounds_app_last m st i : i < length st → in_bounds (m ++ [st]) (length m) i.
Proof.
  intros H. exists st. split; [|done].
  by rewrite lookup_app_r, Nat.sub_diag.
Qed.

Lemma store_app_last m st i v :
  store (m ++ [st]) (length m) i v = m ++ [<[i := v]> st].
Proof.
  unfold store. rewrite alter_app_r_alt by done. by rewrite Nat.sub_diag.
Qed.

Lemma store_cells_app_last ix : ∀ m st vs,
  ∃ st', store_cells (m ++ [st]) (length m) ix vs = m ++ [st'].
Proof.
  induction ix as [|i ix IH]; intros m st [|v vs]; simpl; eauto.
  rewrite store_app_last. apply IH.
Qed.

(** A loop whose output is the last storage leaves the others alone. *)
Lemma elementwise_app_last g s_in w_in w_out pairs : ∀ m st,
  ∃ st', elementwise g s_in w_in (length m) w_out pairs (m ++ [st]) = m ++ [st'].
Proof.
  induction pairs as [|p ps IH]; intros m st; [by exists st|].
  rewrite elementwise_cons. unfold write_elem.
  destruct (store_cells_app_last (cells w_out p.2) m st
              (pad w_out (g (read_elem (m ++ [st]) s_in w_in p.1)))) as [st1 ->].
  apply IH.
Qed.

(** A loop changes no storage but its output. *)
Lemma store_lookup_other m s i v s' : s ≠ s' → store m s i v !! s' = m !! s'.
Proof. intros H. unfold store. by rewrite list_lookup_alter_ne. Qed.

Lemma store_cells_lookup_other ix : ∀ m s vs s',
  s ≠ s' → store_cells m s ix vs !! s' = m !! s'.
Proof.
  induction ix as [|i ix IH]; intros m s [|v vs] s' H; simpl; auto.
  by rewrite IH, store_lookup_other.
Qed.

Lemma elementwise_lookup_other g s_in w_in s_out w_out pairs : ∀ m s',
  s_out ≠ s' → elementwise g s_in w_in s_out w_out pairs m !! s' = m !! s'.
Proof.
  induction pairs as [|p ps IH]; intros m s' H; [done|].
  rewrite elementwise_cons, IH by done.
  by apply store_cells_lookup_other.
Qed.

End Memory.

(** ** Tensors, the heap and the trace *)

(** A [Tensor] of the source is a handle: [Tensor&] and copies of a [Tensor]
    name the same descriptor. *)
Definition Tensor := nat.

(** The Array View of section 3: sizes, strides and offset counted in
    elements, the options, and the storage the view reads and writes. *)
Record TensorImpl : Set := mkImpl {
  options : TensorOptions;
  sizes : list nat;
  strides : list nat;
  storage_offset : nat;
  storage : nat;
  is_wrapped_number : bool
}.

Definition scalar_type (t : TensorImpl) : ScalarType := dtype (options t).
Definition is_complex (t : TensorImpl) : bool := isComplexType (scalar_type t).
Definition dim (t : TensorImpl) : Z := Z.of_nat (length (sizes t)).

Record TensorIteratorConfig : Set := mkConfig {
  check_all_same_dtype : bool;
  check_mem_overlap : bool
}.

(** Extra arguments a stub is called with after the iterator. *)
Inductive StubArg : Set :=
| ArgScalar (s : Scalar)
| ArgInt (n : Z).

(** Calls this file makes into ATen operators defined in other files. *)
Inductive AtenCall : Set :=
| call_scalar_to_tensor (s : Scalar)
| call_mul_out (result self other : Tensor)
| call_pow (self : Tensor) (exponent : Scalar)
| call_pow_out (result self : Tensor) (exponent : Scalar)
| call_gt (self : Tensor) (other : Scalar)
| call_all (self : Tensor)
| call_arange (start stop step : Scalar) (o : TensorOptions)
| call_unsqueeze (self : Tensor) (d : Z)
| call_add (self other : Tensor)
| call_sum (self : Tensor) (d : Z)
| call_add_log_pi_term (self : Tensor) (p : Z).
    (* add_(p * (p - 1) * std::log(M_PI) / 4.) *)

Inductive Event : Set :=
| EvEmpty (t : Tensor) (o : TensorOptions)
    (* at::empty({0}, o) returned t *)
| EvBuild (cfg : TensorIteratorConfig) (out inp : Tensor)
    (* a TensorIterator was built over out and inp *)
| EvKernel (s : Stub) (d : DeviceType) (out inp : Tensor) (args : list StubArg)
    (* the kernel registered for s on d ran *)
| EvResize (t : Tensor) (sz : list nat)
| EvCopy (dst src : Tensor)
| EvView (t src : Tensor)
    (* t is a new view of the storage of src *)
| EvAten (c : AtenCall).

(** The events at which elements are computed. *)
Definition computes (e : Event) : bool :=
  match e with
  | EvKernel _ _ _ _ _ | EvCopy _ _ | EvAten _ => true
  | EvEmpty _ _ | EvBuild _ _ _ | EvResize _ _ | EvView _ _ => false
  end.

Definition numel (sz : list nat) : nat := foldr Nat.mul 1 sz.

Fixpoint contiguous_strides (sz : list nat) : list nat :=
  match sz with
  | [] => []
  | _ :: sz' => numel sz' :: contiguous_strides sz'
  end.

(** The element offsets of a view, in row-major order of its indices. *)
Fixpoint offsets (base : nat) (sz st : list nat) : list nat :=
  match sz, st with
  | n :: sz', k :: st' => flat_map (λ i, offsets (base + i * k) sz' st') (seq 0 n)
  | _, _ => [base]
  end.

Definition width (t : ScalarType) : nat := if isComplexType t then 2 else 1.

Definition view_offsets (t : TensorImpl) : list nat :=
  offsets (storage_offset t) (sizes t) (strides t).

(** Every cell of the view, for the overlap check. *)
Definition view_cells (t : TensorImpl) : list nat :=
  flat_map (cells (width (scalar_type t))) (view_offsets t).

(** Broadcasting of section 4.1, on reversed (right-aligned) shapes. *)
Fixpoint broadcast_rev (a b : list nat) : option (list nat) :=
  match a, b with
  | [], _ => Some b
  | _, [] => Some a
  | x :: a', y :: b' =>
      match broadcast_rev a' b' with
      | None => None
      | Some r =>
          if decide (x = y) then Some (x :: r)
          else if decide (x = 1) then Some (y :: r)
          else if decide (y = 1) then Some (x :: r)
          else None
      end
  end.

Definition broadcast (a b : list nat) : option (list nat) :=
  reverse <$> broadcast_rev (reverse a) (reverse b).

(** The effective strides of an input walked over the plan's shape: 0 along
    every dimension the input lacks or has with another size. *)
Fixpoint expand_strides_rev (sz st shape : list nat) : list nat :=
  match shape with
  | [] => []
  | n :: shape' =>
      match sz, st with
      | x :: sz', k :: st' =>
          (if decide (x = n) then k else 0) :: expand_strides_rev sz' st' shape'
      | _, _ => 0 :: expand_strides_rev [] [] shape'
      end
  end.

Definition expand_strides (sz st shape : list nat) : list nat :=
  reverse (expand_strides_rev (reverse sz) (reverse st) (reverse shape)).

Record TensorIterator : Set := mkIter {
  it_out : Tensor;
  it_in : Tensor;
  it_shape : list nat;
  it_in_strides : list nat;
  it_common_dtype : ScalarType;
  device_type : DeviceType
}.

(** The heap: the tensor descriptors by handle, and the storages they view. *)
Record Heap {Val : Type} : Type := mkHeap {
  tensors : list TensorImpl;
  storages : list (list Val)
}.
Arguments Heap : clear implicits.
Arguments mkHeap {Val} tensors storages.

(** The heap together with the events so far. *)
Record World {Val : Type} : Type := mkWorld {
  heap : Heap Val;
  trace : list Event
}.
Arguments World : clear implicits.
Arguments mkWorld {Val} heap trace.

(** What the facade calls into and this file does not define: the numeric
    kernels, the dispatch table, the cast interface, the operators of other
    files.  The cells of a storage are values of [Val]. *)
Record Collaborators {Val : Type} : Type := mkCollaborators {
  (** what an uninitialised cell reads as *)
  uninitialised : Val;
  (** the cast/copy interface of section 6 *)
  can_cast : ScalarType → ScalarType → bool;
  cast_cells : ScalarType → ScalarType → list Val → list Val;
  (** the dispatch table: which stubs have a kernel for which device *)
  has_kernel : Stub → DeviceType → bool;
  (** the per-element mathematics of the kernel of a stub, on the cells of
      one element of the given dtype *)
  kernel_cells : Stub → ScalarType → list StubArg → list Val → list Val;
  (** the operators of other files, and [item<bool>()] *)
  operator_of_other_file : AtenCall → Heap Val → (string + Tensor) * Heap Val;
  read_bool : Tensor → Heap Val → bool
}.
Arguments Collaborators : clear implicits.
Arguments mkCollaborators {Val}.

Section UnaryOps.
Context {Val : Type} (env : Collaborators Val).

Local Abbreviation garbage := (uninitialised env).
Local Abbreviation canCast := (can_cast env).
Local Abbreviation cast_fn := (cast_cells env).
Local Abbreviation registered := (has_kernel env).
Local Abbreviation kernel_fn := (kernel_cells env).
Local Abbreviation aten_oracle := (operator_of_other_file env).
Local Abbreviation item_bool := (read_bool env).
Local Abbreviation Heap := (Heap Val).
Local Abbreviation World := (World Val).

(** *** The monad of the facade: state that survives a failure *)

Definition M (A : Type) : Type := World → (Error + A) * World.

Definition ret {A} (a : A) : M A := λ w, (inr a, w).

Definition throw {A} (e : Error) : M A := λ w, (inl e, w).

Definition bind {A B} (m : M A) (f : A → M B) : M B :=
  λ w, match m w with
       | (inl e, w') => (inl e, w')
       | (inr a, w') => f a w'
       end.

Notation "'let*' x ':=' m 'in' k" := (bind m (λ x, k))
  (at level 10, x binder, m at level 100, k at level 200).
Notation "m ';;' k" := (bind m (λ _, k))
  (at level 100, k at level 200, right associativity).

Definition get_impl (t : Tensor) : M TensorImpl :=
  λ w, match tensors (heap w) !! t with
       | Some i => (inr i, w)
       | None => (inl UndefinedTensor, w)
       end.

Definition emit (e : Event) : M unit :=
  λ w, (inr tt, mkWorld (heap w) (trace w ++ [e])).

Definition set_storages (f : list (list Val) → list (list Val)) : M unit :=
  λ w, (inr tt, mkWorld (mkHeap (tensors (heap w)) (f (storages (heap w)))) (trace w)).

Definition set_impl (t : Tensor) (i : TensorImpl) : M unit :=
  λ w, (inr tt, mkWorld (mkHeap (<[t := i]> (tensors (heap w))) (storages (heap w)))
                  (trace w)).

Definition new_tensor (i : TensorImpl) : M Tensor :=
  λ w, (inr (length (tensors (heap w))),
        mkWorld (mkHeap (tensors (heap w) ++ [i]) (storages (heap w))) (trace w)).

Definition new_storage (cs : list Val) : M nat :=
  λ w, (inr (length (storages (heap w))),
        mkWorld (mkHeap (tensors (heap w)) (storages (heap w) ++ [cs])) (trace w)).

(** [TORCH_CHECK(cond, msg)], with the kind of failure it stands for. *)
Definition TORCH_CHECK (cond : bool) (k : ErrorKind) (msg : string) : M unit :=
  if cond then ret tt else throw (CheckFailure k msg).

Definition AT_ERROR {A} (k : ErrorKind) (msg : string) : M A :=
  throw (CheckFailure k msg).

(** A call into an operator of another file. *)
Definition aten (c : AtenCall) : M Tensor :=
  λ w, let '(r, h) := aten_oracle c (heap w) in
       (match r with inl msg => inl (ExternalFailure msg) | inr t => inr t end,
        mkWorld h (trace w ++ [EvAten c])).

Definition item (t : Tensor) : M bool :=
  λ w, (inr (item_bool t (heap w)), w).

(** *** Collaborators of the facade *)

(** Modelled from the spec: the allocation interface, here [at::empty({0}, o)]:
    a fresh view of shape [0] over a fresh storage without cells. *)
Definition at_empty (o : TensorOptions) : M Tensor :=
  let* s := new_storage [] in
  let* t := new_tensor (mkImpl o [0] [1] 0 s false) in
  emit (EvEmpty t o);;
  ret t.

(** Modelled from the spec: [Tensor::resize_], used to give an output the
    shape of the plan.  The same shape changes nothing; another shape makes the
    view contiguous and grows its storage with uninitialised cells. *)
Definition resize_ (t : Tensor) (sz : list nat) : M unit :=
  let* i := get_impl t in
  emit (EvResize t sz);;
  if decide (sizes i = sz) then ret tt
  else
    let cells_needed := width (scalar_type i) * (storage_offset i + numel sz) in
    set_impl t (mkImpl (options i) sz (contiguous_strides sz) (storage_offset i)
                  (storage i) (is_wrapped_number i));;
    set_storages (alter (λ st, st ++ replicate (cells_needed - length st) garbage)
                    (storage i)).

(** A conversion between element types; none between equal types. *)
Definition convert (a b : ScalarType) (vs : list Val) : list Val :=
  if decide (a = b) then vs else cast_fn a b vs.

(** Modelled from the spec: the copy-cast interface, [dst.copy_(src)]: the
    elements of src, broadcast to the shape of dst, converted and written. *)
Definition copy_ (dst src : Tensor) : M unit :=
  let* d := get_impl dst in
  let* s := get_impl src in
  match broadcast (sizes s) (sizes d) with
  | Some sh =>
      if decide (sh = sizes d) then
        emit (EvCopy dst src);;
        set_storages
          (elementwise garbage (convert (scalar_type s) (scalar_type d))
             (storage s) (width (scalar_type s))
             (storage d) (width (scalar_type d))
             (zip (offsets (storage_offset s) sh
                     (expand_strides (sizes s) (strides s) sh))
                  (view_offsets d)))
      else throw (PlanFailure PlanShapeMismatch)
  | None => throw (PlanFailure PlanShapeMismatch)
  end.

(** The output placeholder the facade allocates stands for "no output yet". *)
Definition unallocated (i : TensorImpl) : bool := bool_decide (sizes i = [0]).

(** Output and input are different views whose cells meet. *)
Definition partial_overlap (out inp : Tensor) (o i : TensorImpl) : bool :=
  negb (bool_decide (out = inp)) && bool_decide (storage o = storage i)
  && existsb (λ c, bool_decide (c ∈ view_cells i)) (view_cells o).

(** Modelled from the spec: the iteration-plan builder of section 4.1 for one
    output and one input.  The dtypes must agree when the configuration asks
    for it; physical overlap other than exact self-aliasing is refused when
    the check is requested; an unallocated output takes the shape of the
    input, an allocated one must already have the broadcast shape.  Nothing is
    modified unless every check has passed. *)
Definition build (cfg : TensorIteratorConfig) (out inp : Tensor) : M TensorIterator :=
  let* o := get_impl out in
  let* i := get_impl inp in
  if check_all_same_dtype cfg && negb (bool_decide (scalar_type o = scalar_type i))
  then throw (PlanFailure PlanDtypeMismatch)
  else if check_mem_overlap cfg && partial_overlap out inp o i
  then throw (PlanFailure PlanUnsafeAliasing)
  else if unallocated o then
    resize_ out (sizes i);;
    emit (EvBuild cfg out inp);;
    ret (mkIter out inp (sizes i) (strides i) (scalar_type i) (device (options o)))
  else
    match broadcast (sizes i) (sizes o) with
    | Some sh =>
        if decide (sh = sizes o) then
          emit (EvBuild cfg out inp);;
          ret (mkIter out inp sh (expand_strides (sizes i) (strides i) sh)
                 (scalar_type i) (device (options o)))
        else throw (PlanFailure PlanShapeMismatch)
    | None => throw (PlanFailure PlanShapeMismatch)
    end.

(** [TensorIterator::unary_op(out, a, check_mem_overlap)]: all operands of one
    dtype ("Runs the function complex->complex, as TensorIterator expects"). *)
Definition unary_op (out a : Tensor) (check_overlap : bool) : M TensorIterator :=
  build (mkConfig true check_overlap) out a.

(** Modelled from the spec: the dispatch table and the kernel interface of
    sections 4.2 and 6.  The lookup fails when no kernel is registered for the
    device; the kernel walks the plan and writes each output element. *)
Definition call_stub (s : Stub) (d : DeviceType) (it : TensorIterator)
    (args : list StubArg) : M unit :=
  if registered s d then
    let* o := get_impl (it_out it) in
    let* i := get_impl (it_in it) in
    emit (EvKernel s d (it_out it) (it_in it) args);;
    set_storages
      (elementwise garbage
         (λ v, convert (it_common_dtype it) (scalar_type o)
                 (kernel_fn s (it_common_dtype it) args v))
         (storage i) (width (scalar_type i))
         (storage o) (width (scalar_type o))
         (zip (offsets (storage_offset i) (it_shape it) (it_in_strides it))
              (offsets (storage_offset o) (it_shape it) (strides o))))
  else throw (DispatchFailure s d).

(** Modelled from the spec: [view_complex_as_float] of ComplexHelper.h, "a
    zero-copy reinterpretation of a complex array's last dimension as a
    2-element real trailing dimension". *)
Definition view_complex_as_float (self : Tensor) : M Tensor :=
  let* i := get_impl self in
  if is_complex i then
    let* t := new_tensor
      (mkImpl (with_dtype (options i) (toValueType (scalar_type i)))
         (sizes i ++ [2]) ((Nat.mul 2 <$> strides i) ++ [1])
         (2 * storage_offset i) (storage i) false) in
    emit (EvView t self);;
    ret t
  else throw (ExternalFailure "view_complex_as_float: expected a complex tensor").

(** Modelled from the spec: [at::select(self, dim, index)], the view that
    fixes one index along one dimension; negative arguments count from the
    end. *)
Definition select (self : Tensor) (d index : Z) : M Tensor :=
  let* i := get_impl self in
  let nd := dim i in
  if (nd =? 0)%Z then
    throw (ExternalFailure "select() cannot be applied to a 0-dim tensor.")
  else if ((d <? - nd) || (nd <=? d))%Z then
    throw (ExternalFailure "Dimension out of range")
  else
    let k := Z.to_nat (if (d <? 0)%Z then d + nd else d)%Z in
    let sz := Z.of_nat (default 0 (sizes i !! k)) in
    if ((index <? - sz) || (sz <=? index))%Z then
      throw (ExternalFailure "select(): index out of range")
    else
      let ix := Z.to_nat (if (index <? 0)%Z then index + sz else index)%Z in
      let* t := new_tensor
        (mkImpl (options i) (delete k (sizes i)) (delete k (strides i))
           (storage_offset i + ix * default 0 (strides i !! k)) (storage i) false) in
      emit (EvView t self);;
      ret t.

(** *** Reading a tensor *)

Definition Tensor_options (t : Tensor) : M TensorOptions :=
  let* i := get_impl t in ret (options i).
Definition Tensor_scalar_type (t : Tensor) : M ScalarType :=
  let* i := get_impl t in ret (scalar_type i).
Definition Tensor_is_complex (t : Tensor) : M bool :=
  let* i := get_impl t in ret (is_complex i).
Definition Tensor_layout (t : Tensor) : M Layout :=
  let* i := get_impl t in ret (layout (options i)).
Definition Tensor_device (t : Tensor) : M DeviceType :=
  let* i := get_impl t in ret (device (options i)).
Definition Tensor_sizes (t : Tensor) : M (list nat) :=
  let* i := get_impl t in ret (sizes i).
Definition Tensor_dim (t : Tensor) : M Z :=
  let* i := get_impl t in ret (dim i).

(** *** The helpers of the file (lines 40-104) *)

Definition unary_op_impl_out (result self : Tensor) (stub : Stub) : M Tensor :=
  let* iter := unary_op result self true in
  call_stub stub (device_type iter) iter [];;
  ret result.

Definition unary_op_impl_with_complex_to_float_out (result self : Tensor)
    (stub : Stub) : M Tensor :=
  let* self_complex := Tensor_is_complex self in
  let* to_float :=
    (if self_complex
     then let* result_complex := Tensor_is_complex result in ret (negb result_complex)
     else ret false) in
  if to_float then
    (* Checks if the corresponding float type can be cast to the desired dtype *)
    let* self_type := Tensor_scalar_type self in
    let float_type := toValueType self_type in
    let* result_type := Tensor_scalar_type result in
    TORCH_CHECK (canCast float_type result_type) InvalidCast
      ("result type " +:+ ScalarType_name float_type +:+
       " can't be cast to the desired output type " +:+
       ScalarType_name result_type);;
    (* Runs the function complex->complex, as TensorIterator expects *)
    let* o := Tensor_options self in
    let* complex_result := at_empty o in
    let* iter := unary_op complex_result self true in
    call_stub stub (device_type iter) iter [];;
    (* Copies the complex result to the actual result and returns it *)
    let* sz := Tensor_sizes complex_result in
    resize_ result sz;;
    copy_ result complex_result;;
    ret result
  else unary_op_impl_out result self stub.

Definition unary_op_impl (self : Tensor) (out_impl : Tensor → Tensor → M Tensor)
  : M Tensor :=
  let* o := Tensor_options self in
  let* result := at_empty o in
  out_impl result self.

Definition unary_op_impl_with_complex_to_float (self : Tensor)
    (out_impl : Tensor → Tensor → M Tensor) : M Tensor :=
  let* self_complex := Tensor_is_complex self in
  if self_complex then
    let* self_type := Tensor_scalar_type self in
    let float_type := toValueType self_type in
    let* o := Tensor_options self in
    let* result := at_empty (with_dtype o float_type) in
    out_impl result self
  else
    let* o := Tensor_options self in
    let* result := at_empty o in
    out_impl result self.

Definition unary_op_impl_ (self : Tensor) (out_impl : Tensor → Tensor → M Tensor)
  : M Tensor :=
  out_impl self self.

(** *** The operators (lines 106-427).  [at::op_out] is [op_out]: the
    dispatcher to out-of-source devices is not modelled. *)

Definition acos_out (result self : Tensor) : M Tensor :=
  unary_op_impl_out result self acos_stub.
Definition acos (self : Tensor) : M Tensor := unary_op_impl self acos_out.
Definition acos_ (self : Tensor) : M Tensor := unary_op_impl_ self acos_out.

Definition asin_out (result self : Tensor) : M Tensor :=
  unary_op_impl_out result self asin_stub.
Definition asin (self : Tensor) : M Tensor := unary_op_impl self asin_out.
Definition asin_ (self : Tensor) : M Tensor := unary_op_impl_ self asin_out.

Definition atan_out (result self : Tensor) : M Tensor :=
  unary_op_impl_out result self atan_stub.
Definition atan (self : Tensor) : M Tensor := unary_op_impl self atan_out.
Definition atan_ (self : Tensor) : M Tensor := unary_op_impl_ self atan_out.

Definition bitwise_not_out (result self : Tensor) : M Tensor :=
  unary_op_impl_out result self bitwise_not_stub.
Definition bitwise_not (self : Tensor) : M Tensor := unary_op_impl self bitwise_not_out.
Definition bitwise_not_ (self : Tensor) : M Tensor := unary_op_impl_ self bitwise_not_out.

Definition exp_out (result self : Tensor) : M Tensor :=
  unary_op_impl_out result self exp_stub.
Definition exp (self : Tensor) : M Tensor := unary_op_impl self exp_out.
Definition exp_ (self : Tensor) : M Tensor := unary_op_impl_ self exp_out.

Definition expm1_out (result self : Tensor) : M Tensor :=
  unary_op_impl_out result self expm1_stub.
Definition expm1 (self : Tensor) : M Tensor := unary_op_impl self expm1_out.
Definition expm1_ (self : Tensor) : M Tensor := unary_op_impl_ self expm1_out.

Definition erf_out (result self : Tensor) : M Tensor :=
  unary_op_impl_out result self erf_stub.
Definition erf (self : Tensor) : M Tensor := unary_op_impl self erf_out.
Definition erf_ (self : Tensor) : M Tensor := unary_op_impl_ self erf_out.

Definition erfc_out (result self : Tensor) : M Tensor :=
  unary_op_impl_out result self erfc_stub.
Definition erfc (self : Tensor) : M Tensor := unary_op_impl self erfc_out.
Definition erfc_ (self : Tensor) : M Tensor := unary_op_impl_ self erfc_out.

Definition frac_out (result self : Tensor) : M Tensor :=
  unary_op_impl_out result self frac_stub.
Definition frac (self : Tensor) : M Tensor := unary_op_impl self frac_out.
Definition frac_ (self : Tensor) : M Tensor := unary_op_impl_ self frac_out.

Definition log_out (result self : Tensor) : M Tensor :=
  unary_op_impl_out result self log_stub.
Definition log (self : Tensor) : M Tensor := unary_op_impl self log_out.
Definition log_ (self : Tensor) : M Tensor := unary_op_impl_ self log_out.

Definition log10_out (result self : Tensor) : M Tensor :=
  unary_op_impl_out result self log10_stub.
Definition log10 (self : Tensor) : M Tensor := unary_op_impl self log10_out.
Definition log10_ (self : Tensor) : M Tensor := unary_op_impl_ self log10_out.

Definition log1p_out (result self : Tensor) : M Tensor :=
  unary_op_impl_out result self log1p_stub.
Definition log1p (self : Tensor) : M Tensor := unary_op_impl self log1p_out.
Definition log1p_ (self : Tensor) : M Tensor := unary_op_impl_ self log1p_out.

Definition log2_out (result self : Tensor) : M Tensor :=
  unary_op_impl_out result self log2_stub.
Definition log2 (self : Tensor) : M Tensor := unary_op_impl self log2_out.
Definition log2_ (self : Tensor) : M Tensor := unary_op_impl_ self log2_out.

Definition round_out (result self : Tensor) : M Tensor :=
  unary_op_impl_out result self round_stub.
Definition round (self : Tensor) : M Tensor := unary_op_impl self round_out.
Definition round_ (self : Tensor) : M Tensor := unary_op_impl_ self round_out.

Definition reciprocal_out (result self : Tensor) : M Tensor :=
  unary_op_impl_out result self reciprocal_stub.
Definition reciprocal (self : Tensor) : M Tensor := unary_op_impl self reciprocal_out.
Definition reciprocal_ (self : Tensor) : M Tensor := unary_op_impl_ self reciprocal_out.

Definition rsqrt_out (result self : Tensor) : M Tensor :=
  unary_op_impl_out result self rsqrt_stub.
Definition rsqrt (self : Tensor) : M Tensor := unary_op_impl self rsqrt_out.
Definition rsqrt_ (self : Tensor) : M Tensor := unary_op_impl_ self rsqrt_out.

Definition sign_out (result self : Tensor) : M Tensor :=
  unary_op_impl_out result self sign_stub.
Definition sign (self : Tensor) : M Tensor := unary_op_impl self sign_out.
Definition sign_ (self : Tensor) : M Tensor := unary_op_impl_ self sign_out.

Definition sin_out (result self : Tensor) : M Tensor :=
  unary_op_impl_out result self sin_stub.
Definition sin (self : Tensor) : M Tensor := unary_op_impl self sin_out.
Definition sin_ (self : Tensor) : M Tensor := unary_op_impl_ self sin_out.

Definition cos_out (result self : Tensor) : M Tensor :=
  unary_op_impl_out result self cos_stub.
Definition cos (self : Tensor) : M Tensor := unary_op_impl self cos_out.
Definition cos_ (self : Tensor) : M Tensor := unary_op_impl_ self cos_out.

Definition sinh_out (result self : Tensor) : M Tensor :=
  unary_op_impl_out result self sinh_stub.
Definition sinh (self : Tensor) : M Tensor := unary_op_impl self sinh_out.
Definition sinh_ (self : Tensor) : M Tensor := unary_op_impl_ self sinh_out.

Definition cosh_out (result self : Tensor) : M Tensor :=
  unary_op_impl_out result self cosh_stub.
Definition cosh (self : Tensor) : M Tensor := unary_op_impl self cosh_out.
Definition cosh_ (self : Tensor) : M Tensor := unary_op_impl_ self cosh_out.

Definition acosh_out (result self : Tensor) : M Tensor :=
  unary_op_impl_out result self acosh_stub.
Definition acosh (self : Tensor) : M Tensor := unary_op_impl self acosh_out.
Definition acosh_ (self : Tensor) : M Tensor := unary_op_impl_ self acosh_out.

Definition asinh_out (result self : Tensor) : M Tensor :=
  unary_op_impl_out result self asinh_stub.
Definition asinh (self : Tensor) : M Tensor := unary_op_impl self asinh_out.
Definition asinh_ (self : Tensor) : M Tensor := unary_op_impl_ self asinh_out.

Definition atanh_out (result self : Tensor) : M Tensor :=
  unary_op_impl_out result self atanh_stub.
Definition atanh (self : Tensor) : M Tensor := unary_op_impl self atanh_out.
Definition atanh_ (self : Tensor) : M Tensor := unary_op_impl_ self atanh_out.

Definition sqrt_out (result self : Tensor) : M Tensor :=
  unary_op_impl_out result self sqrt_stub.
Definition sqrt (self : Tensor) : M Tensor := unary_op_impl self sqrt_out.
Definition sqrt_ (self : Tensor) : M Tensor := unary_op_impl_ self sqrt_out.

Definition sigmoid_out (result self : Tensor) : M Tensor :=
  unary_op_impl_out result self sigmoid_stub.
Definition sigmoid (self : Tensor) : M Tensor := unary_op_impl self sigmoid_out.
Definition sigmoid_ (self : Tensor) : M Tensor := unary_op_impl_ self sigmoid_out.

Definition tanh_out (result self : Tensor) : M Tensor :=
  unary_op_impl_out result self tanh_stub.
Definition tanh (self : Tensor) : M Tensor := unary_op_impl self tanh_out.
Definition tanh_ (self : Tensor) : M Tensor := unary_op_impl_ self tanh_out.

Definition tan_out (result self : Tensor) : M Tensor :=
  unary_op_impl_out result self tan_stub.
Definition tan (self : Tensor) : M Tensor := unary_op_impl self tan_out.
Definition tan_ (self : Tensor) : M Tensor := unary_op_impl_ self tan_out.

Definition set_wrapped_number (t : Tensor) (b : bool) : M unit :=
  let* i := get_impl t in
  set_impl t (mkImpl (options i) (sizes i) (strides i) (storage_offset i)
                (storage i) b).

Definition wrapped_scalar_tensor (scalar : Scalar) : M Tensor :=
  let* tensor := aten (call_scalar_to_tensor scalar) in
  set_wrapped_number tensor true;;
  ret tensor.

(** [constexpr double M_180_PI = 57.295779513082320876798154814105170332405472466564]. *)
Definition M_180_PI : Q :=
  double_literal 57295779513082320876798154814105170332405472466564 48.

(** [constexpr double M_PI_180 = 0.017453292519943295769236907684886127134428718885417]. *)
Definition M_PI_180 : Q :=
  double_literal 17453292519943295769236907684886127134428718885417 51.

Definition rad2deg_out (result self : Tensor) : M Tensor :=
  let* c := Tensor_is_complex self in
  TORCH_CHECK (negb c) UnsupportedDtype
    "rad2deg is not supported for complex tensors.";;
  let* other := wrapped_scalar_tensor (ScalarDouble M_180_PI) in
  aten (call_mul_out result self other).
Definition rad2deg (self : Tensor) : M Tensor := unary_op_impl self rad2deg_out.
Definition rad2deg_ (self : Tensor) : M Tensor := unary_op_impl_ self rad2deg_out.

Definition deg2rad_out (result self : Tensor) : M Tensor :=
  let* c := Tensor_is_complex self in
  TORCH_CHECK (negb c) UnsupportedDtype
    "deg2rad is not supported for complex tensors.";;
  let* other := wrapped_scalar_tensor (ScalarDouble M_PI_180) in
  aten (call_mul_out result self other).
Definition deg2rad (self : Tensor) : M Tensor := unary_op_impl self deg2rad_out.
Definition deg2rad_ (self : Tensor) : M Tensor := unary_op_impl_ self deg2rad_out.

(** Note [Complex abs and angle]: complex inputs to abs and angle return float
    results by default. *)
Definition abs_out (result self : Tensor) : M Tensor :=
  unary_op_impl_with_complex_to_float_out result self abs_stub.
Definition abs (self : Tensor) : M Tensor :=
  unary_op_impl_with_complex_to_float self abs_out.
Definition abs_ (self : Tensor) : M Tensor := unary_op_impl_ self abs_out.

Definition angle_out (result self : Tensor) : M Tensor :=
  unary_op_impl_with_complex_to_float_out result self angle_stub.
Definition angle (self : Tensor) : M Tensor :=
  unary_op_impl_with_complex_to_float self angle_out.

Definition real (self : Tensor) : M Tensor :=
  let* c := Tensor_is_complex self in
  if c then
    let* float_tensor := view_complex_as_float self in
    let* d := Tensor_dim float_tensor in
    select float_tensor (d - 1) 0
  else
    AT_ERROR UnsupportedDtype
      "real is not implemented for tensors with non-complex dtypes.".

Definition imag (self : Tensor) : M Tensor :=
  let* c := Tensor_is_complex self in
  if c then
    let* float_tensor := view_complex_as_float self in
    let* d := Tensor_dim float_tensor in
    select float_tensor (d - 1) 1
  else
    AT_ERROR UnsupportedDtype
      "imag is not implemented for tensors with non-complex dtypes.".

Definition conj_out (result self : Tensor) : M Tensor :=
  unary_op_impl_out result self conj_stub.
Definition conj (self : Tensor) : M Tensor := unary_op_impl self conj_out.

Definition ceil_out (result self : Tensor) : M Tensor :=
  let* c := Tensor_is_complex self in
  TORCH_CHECK (negb c) UnsupportedDtype "ceil is not supported for complex inputs";;
  unary_op_impl_out result self ceil_stub.
Definition ceil (self : Tensor) : M Tensor := unary_op_impl self ceil_out.
Definition ceil_ (self : Tensor) : M Tensor := unary_op_impl_ self ceil_out.

Definition floor_out (result self : Tensor) : M Tensor :=
  let* c := Tensor_is_complex self in
  TORCH_CHECK (negb c) UnsupportedDtype "floor is not supported for complex inputs";;
  unary_op_impl_out result self floor_stub.
Definition floor (self : Tensor) : M Tensor := unary_op_impl self floor_out.
Definition floor_ (self : Tensor) : M Tensor := unary_op_impl_ self floor_out.

Definition digamma_out (result self : Tensor) : M Tensor :=
  unary_op_impl_out result self digamma_stub.
Definition digamma (self : Tensor) : M Tensor := unary_op_impl self digamma_out.
Definition digamma_ (self : Tensor) : M Tensor := unary_op_impl_ self digamma_out.

Definition square (self : Tensor) : M Tensor := aten (call_pow self (ScalarInt 2)).
Definition square_ (self : Tensor) : M Tensor :=
  aten (call_pow_out self self (ScalarInt 2)).

Definition trunc_out (result self : Tensor) : M Tensor :=
  let* c := Tensor_is_complex self in
  TORCH_CHECK (negb c) UnsupportedDtype "trunc is not supported for complex inputs";;
  unary_op_impl_out result self trunc_stub.
Definition trunc (self : Tensor) : M Tensor := unary_op_impl self trunc_out.
Definition trunc_ (self : Tensor) : M Tensor := unary_op_impl_ self trunc_out.

Definition neg_out (result self : Tensor) : M Tensor :=
  let* t := Tensor_scalar_type self in
  TORCH_CHECK (negb (bool_decide (t = Bool))) UnsupportedDtype
    ("Negation, the `-` operator, on a bool tensor is not supported. " +:+
     "If you are trying to invert a mask, use the `~` or `logical_not()` operator instead.");;
  unary_op_impl_out result self neg_stub.
Definition neg (self : Tensor) : M Tensor := unary_op_impl self neg_out.
Definition neg_ (self : Tensor) : M Tensor := unary_op_impl_ self neg_out.

Definition logical_not_out (result self : Tensor) : M Tensor :=
  let* iter := build (mkConfig false true) result self in
  call_stub logical_not_stub (device_type iter) iter [];;
  ret result.

Definition logical_not (self : Tensor) : M Tensor :=
  let* o := Tensor_options self in
  let* result := at_empty (with_dtype o Bool) in
  logical_not_out result self.

Definition logical_not_ (self : Tensor) : M Tensor := logical_not_out self self.

Definition clamp_max_out (result self : Tensor) (max : Scalar) : M Tensor :=
  let* c := Tensor_is_complex self in
  TORCH_CHECK (negb c) UnsupportedDtype
    "clamp is not yet implemented for complex tensors.";;
  let* l := Tensor_layout self in
  TORCH_CHECK (bool_decide (l = Strided)) UnsupportedLayout
    ("clamp_max only supports strided layout, got: " +:+ Layout_name l);;
  let* iter := unary_op result self true in
  call_stub clamp_max_stub (device_type iter) iter [ArgScalar max];;
  ret result.

Definition clamp_max (self : Tensor) (max : Scalar) : M Tensor :=
  let* o := Tensor_options self in
  let* result := at_empty o in
  clamp_max_out result self max.

Definition clamp_max_ (self : Tensor) (max : Scalar) : M Tensor :=
  clamp_max_out self self max.

Definition clamp_min_out (result self : Tensor) (min : Scalar) : M Tensor :=
  let* c := Tensor_is_complex self in
  TORCH_CHECK (negb c) UnsupportedDtype
    "clamp is not yet implemented for complex tensors.";;
  let* l := Tensor_layout self in
  TORCH_CHECK (bool_decide (l = Strided)) UnsupportedLayout
    ("clamp_min only supports strided layout, got: " +:+ Layout_name l);;
  let* iter := unary_op result self true in
  call_stub clamp_min_stub (device_type iter) iter [ArgScalar min];;
  ret result.

Definition clamp_min (self : Tensor) (min : Scalar) : M Tensor :=
  let* o := Tensor_options self in
  let* result := at_empty o in
  clamp_min_out result self min.

Definition clamp_min_ (self : Tensor) (min : Scalar) : M Tensor :=
  clamp_min_out self self min.

Definition clamp_out (result self : Tensor) (min max : option Scalar) : M Tensor :=
  let* c := Tensor_is_complex self in
  TORCH_CHECK (negb c) UnsupportedDtype
    "clamp is not yet implemented for complex tensors.";;
  match min, max with
  | Some mn, Some mx =>
      let* l := Tensor_layout self in
      TORCH_CHECK (bool_decide (l = Strided)) UnsupportedLayout
        ("clamp only supports strided layout, got: " +:+ Layout_name l);;
      let* iter := unary_op result self true in
      call_stub clamp_stub (device_type iter) iter [ArgScalar mn; ArgScalar mx];;
      ret result
  | None, Some mx => clamp_max_out result self mx;; ret result
  | Some mn, None => clamp_min_out result self mn;; ret result
  | None, None =>
      AT_ERROR InvalidArgument "At least one of 'min' or 'max' must not be None"
  end.

Definition clamp (self : Tensor) (min max : option Scalar) : M Tensor :=
  let* o := Tensor_options self in
  let* result := at_empty o in
  clamp_out result self min max.

Definition clamp_ (self : Tensor) (min max : option Scalar) : M Tensor :=
  clamp_out self self min max.

Definition polygamma_out (result : Tensor) (n : Z) (self : Tensor) : M Tensor :=
  TORCH_CHECK (0 <=? n)%Z InvalidArgument
    "polygamma(n, x) does not support negative n.";;
  let* iter := unary_op result self true in
  call_stub polygamma_stub (device_type iter) iter [ArgInt n];;
  ret result.

Definition polygamma (n : Z) (self : Tensor) : M Tensor :=
  let* o := Tensor_options self in
  let* result := at_empty o in
  polygamma_out result n self;;
  ret result.

Definition polygamma_ (self : Tensor) (n : Z) : M Tensor :=
  polygamma_out self n self.

(** *** IMPLEMENT_UNARY_OP_VEC_CUDA (lines 454-484) *)

(** [checkDeviceType] and [checkLayout] of TensorUtils. *)
Definition checkDeviceType (op : string) (t : Tensor) (d : DeviceType) : M unit :=
  let* td := Tensor_device t in
  TORCH_CHECK (bool_decide (td = d)) UnsupportedDevice
    (op +:+ ": expected the tensor on another device").

Definition checkLayout (op : string) (t : Tensor) (l : Layout) : M unit :=
  let* tl := Tensor_layout t in
  TORCH_CHECK (bool_decide (tl = l)) UnsupportedLayout
    (op +:+ ": expected another layout, got: " +:+ Layout_name tl).

Definition IMPLEMENT_UNARY_OP_OUT (op : string) (stub : Stub) (d : DeviceType)
    (result self : Tensor) : M Tensor :=
  checkDeviceType op result d;;
  checkLayout op result Strided;;
  let* iter := unary_op result self true in
  call_stub stub (device_type iter) iter [];;
  ret result.

(** Modelled from the spec: the device dispatch of [at::op_out] to the entry
    point of the device (section 4.2); an operand on CUDA selects the CUDA
    entry point. *)
Definition dispatch_out (cpu cuda : Tensor → Tensor → M Tensor) (result self : Tensor)
  : M Tensor :=
  let* rd := Tensor_device result in
  let* sd := Tensor_device self in
  if bool_decide (rd = CUDA) || bool_decide (sd = CUDA) then cuda result self
  else if bool_decide (rd = CPU) && bool_decide (sd = CPU) then cpu result self
  else throw (ExternalFailure "no entry point for the device").

Definition _erfinv_out_cpu := IMPLEMENT_UNARY_OP_OUT "erfinv" erfinv_stub CPU.
Definition _erfinv_out_cuda := IMPLEMENT_UNARY_OP_OUT "erfinv" erfinv_stub CUDA.
Definition erfinv_out := dispatch_out _erfinv_out_cpu _erfinv_out_cuda.
Definition _erfinv__cpu (self : Tensor) : M Tensor := erfinv_out self self.
Definition _erfinv__cuda (self : Tensor) : M Tensor := erfinv_out self self.
Definition erfinv (self : Tensor) : M Tensor :=
  let* o := Tensor_options self in
  let* result := at_empty o in
  erfinv_out result self;;
  ret result.

Definition _lgamma_out_cpu := IMPLEMENT_UNARY_OP_OUT "lgamma" lgamma_stub CPU.
Definition _lgamma_out_cuda := IMPLEMENT_UNARY_OP_OUT "lgamma" lgamma_stub CUDA.
Definition lgamma_out := dispatch_out _lgamma_out_cpu _lgamma_out_cuda.
Definition _lgamma__cpu (self : Tensor) : M Tensor := lgamma_out self self.
Definition _lgamma__cuda (self : Tensor) : M Tensor := lgamma_out self self.
Definition lgamma (self : Tensor) : M Tensor :=
  let* o := Tensor_options self in
  let* result := at_empty o in
  lgamma_out result self;;
  ret result.

(** *** mvlgamma (lines 429-449) *)

(** Modelled from the spec: the device dispatch of the method [Tensor::lgamma_]
    to the in-place entry point of the device (section 4.2). *)
Definition dispatch_in_place (cpu cuda : Tensor → M Tensor) (self : Tensor) : M Tensor :=
  let* d := Tensor_device self in
  if bool_decide (d = CUDA) then cuda self
  else if bool_decide (d = CPU) then cpu self
  else throw (ExternalFailure "no entry point for the device").

Definition lgamma_ := dispatch_in_place _lgamma__cpu _lgamma__cuda.

(** [p] is an [int64_t].  In [0.5f * (p - 1)] the integer [p - 1] is converted
    to float; halving a float is exact, and the Scalar of the comparison
    holds the double of the same value. *)
Definition mvlgamma_check (self : Tensor) (p : Z) : M unit :=
  let* t := Tensor_scalar_type self in
  TORCH_CHECK (isFloatingType t) UnsupportedDtype
    ("mvlgamma is not implemented for " +:+ ScalarType_name t);;
  let* greater := aten (call_gt self (ScalarDouble (Qmake (to_float (p - 1)) 2))) in
  let* every := aten (call_all greater) in
  let* ok := item every in
  TORCH_CHECK ok InvalidArgument "All elements must be greater than (p-1)/2";;
  TORCH_CHECK (1 <=? p)%Z InvalidArgument "p has to be greater than or equal to 1".

(** In [-p / 2. + 0.5] the integer [-p] is converted to double and halved,
    exactly; the sum with 0.5 is rounded to double.  [args.lgamma_()] is the
    in-place entry point of lgamma of this file. *)
Definition mvlgamma_value (self : Tensor) (p : Z) : M Tensor :=
  let* o := Tensor_options self in
  let* args := aten (call_arange (ScalarDouble (Qmake (to_double (to_double (- p) + 1)) 2))
                       (ScalarDouble (1 # 2)) (ScalarDouble (1 # 2)) o) in
  let* column := aten (call_unsqueeze self (-1)) in
  let* args := aten (call_add args column) in
  let* args := lgamma_ args in
  let* total := aten (call_sum args (-1)) in
  aten (call_add_log_pi_term total p).

Definition mvlgamma (self : Tensor) (p : Z) : M Tensor :=
  mvlgamma_check self p;;
  mvlgamma_value self p.

Definition mvlgamma_ (self : Tensor) (p : Z) : M Tensor :=
  mvlgamma_check self p;;
  let* value := mvlgamma_value self p in
  copy_ self value;;
  ret self.

(** ** The entry points of the file *)

(** The operators the file exposes in all three call forms. *)
Inductive UnaryOperator : Set :=
| op_acos | op_rad2deg | op_deg2rad | op_asin | op_atan | op_abs
| op_bitwise_not | op_ceil | op_exp | op_expm1 | op_erf | op_erfc | op_frac
| op_floor | op_log | op_log10 | op_log1p | op_log2 | op_round | op_digamma
| op_reciprocal | op_rsqrt | op_sign | op_sin | op_cos | op_sinh | op_cosh
| op_acosh | op_asinh | op_atanh | op_sqrt | op_sigmoid | op_tanh | op_tan
| op_trunc | op_neg | op_logical_not.

Definition allocating (o : UnaryOperator) (self : Tensor) : M Tensor :=
  match o with
  | op_acos => acos self
  | op_rad2deg => rad2deg self
  | op_deg2rad => deg2rad self
  | op_asin => asin self
  | op_atan => atan self
  | op_abs => abs self
  | op_bitwise_not => bitwise_not self
  | op_ceil => ceil self
  | op_exp => exp self
  | op_expm1 => expm1 self
  | op_erf => erf self
  | op_erfc => erfc self
  | op_frac => frac self
  | op_floor => floor self
  | op_log => log self
  | op_log10 => log10 self
  | op_log1p => log1p self
  | op_log2 => log2 self
  | op_round => round self
  | op_digamma => digamma self
  | op_reciprocal => reciprocal self
  | op_rsqrt => rsqrt self
  | op_sign => sign self
  | op_sin => sin self
  | op_cos => cos self
  | op_sinh => sinh self
  | op_cosh => cosh self
  | op_acosh => acosh self
  | op_asinh => asinh self
  | op_atanh => atanh self
  | op_sqrt => sqrt self
  | op_sigmoid => sigmoid self
  | op_tanh => tanh self
  | op_tan => tan self
  | op_trunc => trunc self
  | op_neg => neg self
  | op_logical_not => logical_not self
  end.

Definition into_buffer (o : UnaryOperator) (result self : Tensor) : M Tensor :=
  match o with
  | op_acos => acos_out result self
  | op_rad2deg => rad2deg_out result self
  | op_deg2rad => deg2rad_out result self
  | op_asin => asin_out result self
  | op_atan => atan_out result self
  | op_abs => abs_out result self
  | op_bitwise_not => bitwise_not_out result self
  | op_ceil => ceil_out result self
  | op_exp => exp_out result self
  | op_expm1 => expm1_out result self
  | op_erf => erf_out result self
  | op_erfc => erfc_out result self
  | op_frac => frac_out result self
  | op_floor => floor_out result self
  | op_log => log_out result self
  | op_log10 => log10_out result self
  | op_log1p => log1p_out result self
  | op_log2 => log2_out result self
  | op_round => round_out result self
  | op_digamma => digamma_out result self
  | op_reciprocal => reciprocal_out result self
  | op_rsqrt => rsqrt_out result self
  | op_sign => sign_out result self
  | op_sin => sin_out result self
  | op_cos => cos_out result self
  | op_sinh => sinh_out result self
  | op_cosh => cosh_out result self
  | op_acosh => acosh_out result self
  | op_asinh => asinh_out result self
  | op_atanh => atanh_out result self
  | op_sqrt => sqrt_out result self
  | op_sigmoid => sigmoid_out result self
  | op_tanh => tanh_out result self
  | op_tan => tan_out result self
  | op_trunc => trunc_out result self
  | op_neg => neg_out result self
  | op_logical_not => logical_not_out result self
  end.

Definition in_place (o : UnaryOperator) (self : Tensor) : M Tensor :=
  match o with
  | op_acos => acos_ self
  | op_rad2deg => rad2deg_ self
  | op_deg2rad => deg2rad_ self
  | op_asin => asin_ self
  | op_atan => atan_ self
  | op_abs => abs_ self
  | op_bitwise_not => bitwise_not_ self
  | op_ceil => ceil_ self
  | op_exp => exp_ self
  | op_expm1 => expm1_ self
  | op_erf => erf_ self
  | op_erfc => erfc_ self
  | op_frac => frac_ self
  | op_floor => floor_ self
  | op_log => log_ self
  | op_log10 => log10_ self
  | op_log1p => log1p_ self
  | op_log2 => log2_ self
  | op_round => round_ self
  | op_digamma => digamma_ self
  | op_reciprocal => reciprocal_ self
  | op_rsqrt => rsqrt_ self
  | op_sign => sign_ self
  | op_sin => sin_ self
  | op_cos => cos_ self
  | op_sinh => sinh_ self
  | op_cosh => cosh_ self
  | op_acosh => acosh_ self
  | op_asinh => asinh_ self
  | op_atanh => atanh_ self
  | op_sqrt => sqrt_ self
  | op_sigmoid => sigmoid_ self
  | op_tanh => tanh_ self
  | op_tan => tan_ self
  | op_trunc => trunc_ self
  | op_neg => neg_ self
  | op_logical_not => logical_not_ self
  end.

Inductive EntryPoint : Set :=
| Allocating (o : UnaryOperator) (self : Tensor)
| IntoBuffer (o : UnaryOperator) (result self : Tensor)
| InPlace (o : UnaryOperator) (self : Tensor)
| Angle (self : Tensor)
| AngleOut (result self : Tensor)
| Real (self : Tensor)
| Imag (self : Tensor)
| Conj (self : Tensor)
| ConjOut (result self : Tensor)
| Square (self : Tensor)
| Square_ (self : Tensor)
| Clamp (self : Tensor) (min max : option Scalar)
| ClampOut (result self : Tensor) (min max : option Scalar)
| Clamp_ (self : Tensor) (min max : option Scalar)
| ClampMax (self : Tensor) (max : Scalar)
| ClampMaxOut (result self : Tensor) (max : Scalar)
| ClampMax_ (self : Tensor) (max : Scalar)
| ClampMin (self : Tensor) (min : Scalar)
| ClampMinOut (result self : Tensor) (min : Scalar)
| ClampMin_ (self : Tensor) (min : Scalar)
| Polygamma (n : Z) (self : Tensor)
| PolygammaOut (result : Tensor) (n : Z) (self : Tensor)
| Polygamma_ (self : Tensor) (n : Z)
| Mvlgamma (self : Tensor) (p : Z)
| Mvlgamma_ (self : Tensor) (p : Z)
| Erfinv (self : Tensor)
| ErfinvOutCpu (result self : Tensor)
| ErfinvOutCuda (result self : Tensor)
| Erfinv_Cpu (self : Tensor)
| Erfinv_Cuda (self : Tensor)
| Lgamma (self : Tensor)
| LgammaOutCpu (result self : Tensor)
| LgammaOutCuda (result self : Tensor)
| Lgamma_Cpu (self : Tensor)
| Lgamma_Cuda (self : Tensor).

Definition run (e : EntryPoint) : M Tensor :=
  match e with
  | Allocating o self => allocating o self
  | IntoBuffer o result self => into_buffer o result self
  | InPlace o self => in_place o self
  | Angle self => angle self
  | AngleOut result self => angle_out result self
  | Real self => real self
  | Imag self => imag self
  | Conj self => conj self
  | ConjOut result self => conj_out result self
  | Square self => square self
  | Square_ self => square_ self
  | Clamp self mn mx => clamp self mn mx
  | ClampOut result self mn mx => clamp_out result self mn mx
  | Clamp_ self mn mx => clamp_ self mn mx
  | ClampMax self mx => clamp_max self mx
  | ClampMaxOut result self mx => clamp_max_out result self mx
  | ClampMax_ self mx => clamp_max_ self mx
  | ClampMin self mn => clamp_min self mn
  | ClampMinOut result self mn => clamp_min_out result self mn
  | ClampMin_ self mn => clamp_min_ self mn
  | Polygamma n self => polygamma n self
  | PolygammaOut result n self => polygamma_out result n self
  | Polygamma_ self n => polygamma_ self n
  | Mvlgamma self p => mvlgamma self p
  | Mvlgamma_ self p => mvlgamma_ self p
  | Erfinv self => erfinv self
  | ErfinvOutCpu result self => _erfinv_out_cpu result self
  | ErfinvOutCuda result self => _erfinv_out_cuda result self
  | Erfinv_Cpu self => _erfinv__cpu self
  | Erfinv_Cuda self => _erfinv__cuda self
  | Lgamma self => lgamma self
  | LgammaOutCpu result self => _lgamma_out_cpu result self
  | LgammaOutCuda result self => _lgamma_out_cuda result self
  | Lgamma_Cpu self => _lgamma__cpu self
  | Lgamma_Cuda self => _lgamma__cuda self
  end.

Definition is_mvlgamma (e : EntryPoint) : bool :=
  match e with Mvlgamma _ _ | Mvlgamma_ _ _ => true | _ => false end.

(** ** Reasoning about runs *)

Lemma bind_inr {A B} (m : M A) (f : A → M B) w a w' :
  m w = (inr a, w') → bind m f w = f a w'.
Proof. unfold bind. by intros ->. Qed.

Lemma bind_inl {A B} (m : M A) (f : A → M B) w e w' :
  m w = (inl e, w') → bind m f w = (inl e, w').
Proof. unfold bind. by intros ->. Qed.

Lemma get_impl_Some w t i :
  tensors (heap w) !! t = Some i → get_impl t w = (inr i, w).
Proof. unfold get_impl. by intros ->. Qed.

(** [w'] extends [w] by allocations only: every tensor and storage of [w] is
    as it was, and no element was computed in between. *)
Definition quiet (w w' : World) : Prop :=
  (∃ ts, tensors (heap w') = tensors (heap w) ++ ts) ∧
  (∃ ss, storages (heap w') = storages (heap w) ++ ss) ∧
  (∃ evs, trace w' = trace w ++ evs ∧ Forall (λ e, computes e = false) evs).

Lemma quiet_refl w : quiet w w.
Proof.
  repeat split; [exists []|exists []|exists []]; rewrite ?app_nil_r; auto.
Qed.

Lemma quiet_trans w1 w2 w3 : quiet w1 w2 → quiet w2 w3 → quiet w1 w3.
Proof.
  intros ((ts & Ht) & (ss & Hs) & (evs & He & Hf))
         ((ts' & Ht') & (ss' & Hs') & (evs' & He' & Hf')).
  repeat split.
  - exists (ts ++ ts'). by rewrite Ht', Ht, app_assoc.
  - exists (ss ++ ss'). by rewrite Hs', Hs, app_assoc.
  - exists (evs ++ evs'). split; [by rewrite He', He, app_assoc|].
    by apply Forall_app.
Qed.

(** A computation that only ever allocates. *)
Definition always_quiet {A} (m : M A) : Prop := ∀ w, quiet w (m w).2.

(** A computation that raises no validation failure. *)
Definition never_check {A} (m : M A) : Prop :=
  ∀ w, match (m w).1 with inl (CheckFailure _ _) => False | _ => True end.

Lemma always_quiet_ret {A} (a : A) : always_quiet (ret a).
Proof. intros w. apply quiet_refl. Qed.

Lemma always_quiet_throw {A} e : always_quiet (@throw A e).
Proof. intros w. apply quiet_refl. Qed.

Lemma always_quiet_bind {A B} (m : M A) (f : A → M B) :
  always_quiet m → (∀ a, always_quiet (f a)) → always_quiet (bind m f).
Proof.
  intros Hm Hf w. unfold bind. specialize (Hm w).
  destruct (m w) as [[e|a] w1]; simpl in *; [done|].
  eapply quiet_trans; [done|]. apply Hf.
Qed.

Lemma always_quiet_get_impl t : always_quiet (get_impl t).
Proof.
  intros w. unfold get_impl. destruct (_ !! _); apply quiet_refl.
Qed.

Lemma always_quiet_TORCH_CHECK c k msg : always_quiet (TORCH_CHECK c k msg).
Proof. intros w. unfold TORCH_CHECK. destruct c; apply quiet_refl. Qed.

Lemma always_quiet_item t : always_quiet (item t).
Proof. intros w. apply quiet_refl. Qed.

Lemma always_quiet_new_storage cs : always_quiet (new_storage cs).
Proof.
  intros w. repeat split; simpl; [exists []|by eexists|exists []];
    rewrite ?app_nil_r; auto.
Qed.

Lemma always_quiet_new_tensor i : always_quiet (new_tensor i).
Proof.
  intros w. repeat split; simpl; [by eexists|exists []|exists []];
    rewrite ?app_nil_r; auto.
Qed.

Lemma always_quiet_emit e : computes e = false → always_quiet (emit e).
Proof.
  intros He w. repeat split; simpl; [exists []|exists []|exists [e]];
    rewrite ?app_nil_r; auto.
Qed.

Lemma never_check_ret {A} (a : A) : never_check (ret a).
Proof. by intros w. Qed.

Lemma never_check_throw {A} e :
  is_validation_failure e = false → never_check (@throw A e).
Proof. intros He w. simpl. by destruct e. Qed.

Lemma never_check_bind {A B} (m : M A) (f : A → M B) :
  never_check m → (∀ a, never_check (f a)) → never_check (bind m f).
Proof.
  intros Hm Hf w. unfold bind. specialize (Hm w).
  destruct (m w) as [[e|a] w1]; simpl in *; [done|]. apply Hf.
Qed.

Lemma never_check_get_impl t : never_check (get_impl t).
Proof. intros w. unfold get_impl. by destruct (_ !! _). Qed.

Lemma never_check_emit e : never_check (emit e).
Proof. by intros w. Qed.

Lemma never_check_set_storages f : never_check (set_storages f).
Proof. by intros w. Qed.

Lemma never_check_set_impl t i : never_check (set_impl t i).
Proof. by intros w. Qed.

Lemma never_check_new_tensor i : never_check (new_tensor i).
Proof. by intros w. Qed.

Lemma never_check_new_storage cs : never_check (new_storage cs).
Proof. by intros w. Qed.

Lemma never_check_item t : never_check (item t).
Proof. by intros w. Qed.

Lemma never_check_aten c : never_check (aten c).
Proof.
  intros w. unfold aten. destruct (aten_oracle c (heap w)) as [[msg|t] h]; done.
Qed.

(** The steps of a proof that a computation is quiet or raises no validation
    failure: follow the binds and the branches. *)
Ltac run_step :=
  match goal with
  | |- always_quiet (bind _ _) => apply always_quiet_bind; [|intros ?]
  | |- never_check (bind _ _) => apply never_check_bind; [|intros ?]
  | |- always_quiet (ret _) => apply always_quiet_ret
  | |- never_check (ret _) => apply never_check_ret
  | |- always_quiet (throw _) => apply always_quiet_throw
  | |- never_check (throw _) => by apply never_check_throw
  | |- always_quiet (get_impl _) => apply always_quiet_get_impl
  | |- never_check (get_impl _) => apply never_check_get_impl
  | |- always_quiet (TORCH_CHECK _ _ _) => apply always_quiet_TORCH_CHECK
  | |- always_quiet (item _) => apply always_quiet_item
  | |- never_check (item _) => apply never_check_item
  | |- always_quiet (new_storage _) => apply always_quiet_new_storage
  | |- always_quiet (new_tensor _) => apply always_quiet_new_tensor
  | |- never_check (new_storage _) => apply never_check_new_storage
  | |- never_check (new_tensor _) => apply never_check_new_tensor
  | |- always_quiet (emit _) => by apply always_quiet_emit
  | |- never_check (emit _) => apply never_check_emit
  | |- never_check (set_storages _) => apply never_check_set_storages
  | |- never_check (set_impl _ _) => apply never_check_set_impl
  | |- never_check (aten _) => apply never_check_aten
  | |- _ (if ?b then _ else _) => destruct b
  | |- _ (match ?x with _ => _ end) => destruct x
  end.

Lemma always_quiet_at_empty o : always_quiet (at_empty o).
Proof. unfold at_empty. repeat run_step. Qed.

Lemma never_check_at_empty o : never_check (at_empty o).
Proof. unfold at_empty. repeat run_step. Qed.

Lemma never_check_resize_ t sz : never_check (resize_ t sz).
Proof. unfold resize_. repeat run_step. Qed.

Lemma never_check_copy_ dst src : never_check (copy_ dst src).
Proof. unfold copy_. repeat run_step. Qed.

Lemma never_check_build cfg out inp : never_check (build cfg out inp).
Proof.
  unfold build. repeat first [apply never_check_resize_ | run_step].
Qed.

Lemma never_check_call_stub s d it args : never_check (call_stub s d it args).
Proof. unfold call_stub. repeat run_step. Qed.

Lemma never_check_unary_op_impl_out result self stub :
  never_check (unary_op_impl_out result self stub).
Proof.
  unfold unary_op_impl_out, unary_op.
  repeat first [apply never_check_build | apply never_check_call_stub | run_step].
Qed.

Ltac unfold_reads :=
  cbv beta delta [Tensor_options Tensor_scalar_type Tensor_is_complex
    Tensor_layout Tensor_device Tensor_sizes Tensor_dim AT_ERROR unary_op
    wrapped_scalar_tensor set_wrapped_number].

Ltac solve_quiet :=
  solve [unfold_reads; repeat first [apply always_quiet_at_empty | run_step]].

Ltac solve_never :=
  solve [unfold_reads;
         repeat first
           [ apply never_check_unary_op_impl_out | apply never_check_build
           | apply never_check_call_stub | apply never_check_resize_
           | apply never_check_copy_ | apply never_check_at_empty | run_step ]].

(** ** Domain rejection *)

(** The run failed the check of the given kind. *)
Definition fails_with {A} (k : ErrorKind) (r : (Error + A) * World) : Prop :=
  ∃ msg, r.1 = inl (CheckFailure k msg).

Lemma Tensor_is_complex_run w t i :
  tensors (heap w) !! t = Some i → Tensor_is_complex t w = (inr (is_complex i), w).
Proof. intros H. unfold Tensor_is_complex, bind. by rewrite (get_impl_Some _ _ _ H). Qed.

Lemma Tensor_scalar_type_run w t i :
  tensors (heap w) !! t = Some i → Tensor_scalar_type t w = (inr (scalar_type i), w).
Proof. intros H. unfold Tensor_scalar_type, bind. by rewrite (get_impl_Some _ _ _ H). Qed.

Lemma Tensor_options_run w t i :
  tensors (heap w) !! t = Some i → Tensor_options t w = (inr (options i), w).
Proof. intros H. unfold Tensor_options, bind. by rewrite (get_impl_Some _ _ _ H). Qed.

Lemma Tensor_layout_run w t i :
  tensors (heap w) !! t = Some i → Tensor_layout t w = (inr (layout (options i)), w).
Proof. intros H. unfold Tensor_layout, bind. by rewrite (get_impl_Some _ _ _ H). Qed.

Lemma Tensor_sizes_run w t i :
  tensors (heap w) !! t = Some i → Tensor_sizes t w = (inr (sizes i), w).
Proof. intros H. unfold Tensor_sizes, bind. by rewrite (get_impl_Some _ _ _ H). Qed.

Lemma Tensor_device_run w t i :
  tensors (heap w) !! t = Some i → Tensor_device t w = (inr (device (options i)), w).
Proof. intros H. unfold Tensor_device, bind. by rewrite (get_impl_Some _ _ _ H). Qed.

(** The world [at::empty({0}, o)] leaves, and the placeholder it returns. *)
Definition placeholder (o : TensorOptions) (w : World) : TensorImpl :=
  mkImpl o [0] [1] 0 (length (storages (heap w))) false.

Definition allocated (o : TensorOptions) (w : World) : World :=
  mkWorld (mkHeap (tensors (heap w) ++ [placeholder o w]) (storages (heap w) ++ [[]]))
    (trace w ++ [EvEmpty (length (tensors (heap w))) o]).

Lemma at_empty_run o w :
  at_empty o w = (inr (length (tensors (heap w))), allocated o w).
Proof. reflexivity. Qed.

Lemma allocated_lookup o w t i :
  tensors (heap w) !! t = Some i → tensors (heap (allocated o w)) !! t = Some i.
Proof. intros H. simpl. by apply lookup_app_l_Some. Qed.

Lemma allocated_lookup_new o w :
  tensors (heap (allocated o w)) !! length (tensors (heap w)) = Some (placeholder o w).
Proof. simpl. by rewrite lookup_app_r, Nat.sub_diag. Qed.

(** An allocate-and-return form fails as its into-buffer form does on the
    placeholder. *)
Lemma unary_op_impl_fails self i out_impl k w :
  tensors (heap w) !! self = Some i →
  (∀ result w', tensors (heap w') !! self = Some i →
     fails_with k (out_impl result self w')) →
  fails_with k (unary_op_impl self out_impl w).
Proof.
  intros Hs H. unfold unary_op_impl.
  rewrite (bind_inr _ _ _ _ _ (Tensor_options_run _ _ _ Hs)).
  rewrite (bind_inr _ _ _ _ _ (at_empty_run _ _)).
  apply H. by apply allocated_lookup.
Qed.

Lemma complex_check_fails {A} self i msg (rest : M A) w :
  tensors (heap w) !! self = Some i → is_complex i = true →
  fails_with UnsupportedDtype
    ((let* c := Tensor_is_complex self in
      TORCH_CHECK (negb c) UnsupportedDtype msg;; rest) w).
Proof.
  intros Hs Hc.
  rewrite (bind_inr _ _ _ _ _ (Tensor_is_complex_run _ _ _ Hs)), Hc.
  by exists msg.
Qed.

(** C5. For every complex input tensor, ceil, floor and trunc fail with
    UnsupportedDtype in all three call forms; for every boolean input tensor,
    neg fails with UnsupportedDtype in all three call forms. *)
Theorem rounding_rejects_complex_and_neg_rejects_bool w self i :
  tensors (heap w) !! self = Some i →
  (is_complex i = true →
     fails_with UnsupportedDtype (ceil self w) ∧
     fails_with UnsupportedDtype (ceil_ self w) ∧
     (∀ result, fails_with UnsupportedDtype (ceil_out result self w)) ∧
     fails_with UnsupportedDtype (floor self w) ∧
     fails_with UnsupportedDtype (floor_ self w) ∧
     (∀ result, fails_with UnsupportedDtype (floor_out result self w)) ∧
     fails_with UnsupportedDtype (trunc self w) ∧
     fails_with UnsupportedDtype (trunc_ self w) ∧
     (∀ result, fails_with UnsupportedDtype (trunc_out result self w))) ∧
  (scalar_type i = Bool →
     fails_with UnsupportedDtype (neg self w) ∧
     fails_with UnsupportedDtype (neg_ self w) ∧
     (∀ result, fails_with UnsupportedDtype (neg_out result self w))).
Proof.
  intros Hs. split.
  - intros Hc.
    repeat split; try intros result;
      try (by eapply complex_check_fails);
      (eapply unary_op_impl_fails; [done|]; intros r w' Hs';
       by eapply complex_check_fails).
  - intros Hb.
    assert (∀ result w', tensors (heap w') !! self = Some i →
              fails_with UnsupportedDtype (neg_out result self w')) as Hneg.
    { intros result w' Hs'. unfold neg_out.
      rewrite (bind_inr _ _ _ _ _ (Tensor_scalar_type_run _ _ _ Hs')), Hb.
      by eexists. }
    repeat split; try intros result; try (by apply Hneg).
    eapply unary_op_impl_fails; [done|]. intros. by apply Hneg.
Qed.

(** ** What the collaborators do, step by step *)

Lemma broadcast_rev_same s : broadcast_rev s s = Some s.
Proof.
  induction s as [|x s IH]; simpl; [done|].
  rewrite IH. by rewrite decide_True.
Qed.

Lemma broadcast_same s : broadcast s s = Some s.
Proof.
  unfold broadcast. rewrite broadcast_rev_same. simpl.
  by rewrite reverse_involutive.
Qed.

Lemma expand_strides_rev_same s : ∀ st,
  length st = length s → expand_strides_rev s st s = st.
Proof.
  induction s as [|x s IH]; intros [|k st] Hl; simpl in *; try done.
  rewrite decide_True by done. f_equal. apply IH. lia.
Qed.

Lemma expand_strides_same s st :
  length st = length s → expand_strides s st s = st.
Proof.
  intros Hl. unfold expand_strides.
  rewrite expand_strides_rev_same by (by rewrite !length_reverse).
  apply reverse_involutive.
Qed.

(** The heap after [t.resize_(sz)], for the descriptor [i] of [t]. *)
Definition resized (t : Tensor) (i : TensorImpl) (sz : list nat) (h : Heap) : Heap :=
  if decide (sizes i = sz) then h
  else
    mkHeap
      (<[t := mkImpl (options i) sz (contiguous_strides sz) (storage_offset i)
                (storage i) (is_wrapped_number i)]> (tensors h))
      (alter (λ st, st ++ replicate
                (width (scalar_type i) * (storage_offset i + numel sz) - length st)
                garbage)
         (storage i) (storages h)).

Lemma resize_run w t i sz :
  tensors (heap w) !! t = Some i →
  resize_ t sz w = (inr tt, mkWorld (resized t i sz (heap w)) (trace w ++ [EvResize t sz])).
Proof.
  intros H. unfold resize_, resized.
  rewrite (bind_inr _ _ _ _ _ (get_impl_Some _ _ _ H)).
  unfold bind, emit. simpl.
  destruct (decide (sizes i = sz)); simpl; [|done].
  by destruct w as [[] ].
Qed.

(** The heap after the kernel of a stub has walked a plan. *)
Definition computed (s : Stub) (it : TensorIterator) (args : list StubArg)
    (o i : TensorImpl) (h : Heap) : Heap :=
  mkHeap (tensors h)
    (elementwise garbage
       (λ v, convert (it_common_dtype it) (scalar_type o)
               (kernel_fn s (it_common_dtype it) args v))
       (storage i) (width (scalar_type i))
       (storage o) (width (scalar_type o))
       (zip (offsets (storage_offset i) (it_shape it) (it_in_strides it))
            (offsets (storage_offset o) (it_shape it) (strides o)))
       (storages h)).

Lemma call_stub_run s d it args w o i :
  registered s d = true →
  tensors (heap w) !! it_out it = Some o →
  tensors (heap w) !! it_in it = Some i →
  call_stub s d it args w
  = (inr tt, mkWorld (computed s it args o i (heap w))
               (trace w ++ [EvKernel s d (it_out it) (it_in it) args])).
Proof.
  intros Hr Ho Hi. unfold call_stub. rewrite Hr.
  rewrite (bind_inr _ _ _ _ _ (get_impl_Some _ _ _ Ho)).
  rewrite (bind_inr _ _ _ _ _ (get_impl_Some _ _ _ Hi)).
  reflexivity.
Qed.

Lemma call_stub_unregistered s d it args w :
  registered s d = false →
  call_stub s d it args w = (inl (DispatchFailure s d), w).
Proof. intros Hr. unfold call_stub. by rewrite Hr. Qed.

Lemma view_cells_unallocated o :
  sizes o = [0] → length (strides o) = length (sizes o) → view_cells o = [].
Proof.
  intros Hs Hl. unfold view_cells, view_offsets. rewrite Hs in *.
  destruct (strides o) as [|k [|? ?]]; simpl in *; done.
Qed.

(** Building a plan over an unallocated output gives it the shape of the
    input. *)
Lemma build_unallocated cfg out inp w o i :
  tensors (heap w) !! out = Some o →
  tensors (heap w) !! inp = Some i →
  (check_all_same_dtype cfg = true → scalar_type o = scalar_type i) →
  sizes o = [0] → length (strides o) = length (sizes o) →
  build cfg out inp w
  = (inr (mkIter out inp (sizes i) (strides i) (scalar_type i) (device (options o))),
     mkWorld (resized out o (sizes i) (heap w))
       (trace w ++ [EvResize out (sizes i); EvBuild cfg out inp])).
Proof.
  intros Ho Hi Hd Hs Hl. unfold build.
  rewrite (bind_inr _ _ _ _ _ (get_impl_Some _ _ _ Ho)).
  rewrite (bind_inr _ _ _ _ _ (get_impl_Some _ _ _ Hi)).
  assert (check_all_same_dtype cfg
          && negb (bool_decide (scalar_type o = scalar_type i)) = false) as ->.
  { destruct (check_all_same_dtype cfg); [|done].
    simpl. by rewrite bool_decide_eq_true_2 by auto. }
  assert (check_mem_overlap cfg && partial_overlap out inp o i = false) as ->.
  { unfold partial_overlap. rewrite (view_cells_unallocated o) by done.
    simpl. by rewrite !andb_false_r. }
  unfold unallocated. rewrite bool_decide_eq_true_2 by done.
  rewrite (bind_inr _ _ _ _ _ (resize_run _ _ _ _ Ho)).
  unfold bind, emit, ret. simpl. by rewrite <- app_assoc.
Qed.

(** Building a plan in place changes nothing. *)
Lemma build_in_place cfg x w i :
  tensors (heap w) !! x = Some i →
  length (strides i) = length (sizes i) →
  ∃ tr,
    build cfg x x w
    = (inr (mkIter x x (sizes i) (strides i) (scalar_type i) (device (options i))),
       mkWorld (heap w) tr).
Proof.
  intros Hx Hl. unfold build.
  rewrite (bind_inr _ _ _ _ _ (get_impl_Some _ _ _ Hx)).
  rewrite (bind_inr _ _ _ _ _ (get_impl_Some _ _ _ Hx)).
  rewrite bool_decide_eq_true_2 by done. rewrite andb_false_r.
  unfold partial_overlap. rewrite (bool_decide_eq_true_2 (x = x)) by done.
  simpl. rewrite andb_false_r.
  destruct (unallocated i) eqn:Hu.
  - rewrite (bind_inr _ _ _ _ _ (resize_run _ _ _ _ Hx)).
    unfold resized. rewrite decide_True by done.
    unfold bind, emit, ret. simpl. by eexists.
  - rewrite broadcast_same. rewrite decide_True by done.
    rewrite expand_strides_same by done.
    unfold bind, emit, ret. simpl. by eexists.
Qed.

(** ** Reading tensors, and what a plan computes *)

Lemma length_offsets sz : ∀ b st,
  length st = length sz → length (offsets b sz st) = numel sz.
Proof.
  induction sz as [|n sz IH]; intros b [|k st] Hl; simpl in *; try done.
  assert (∀ l, length (flat_map (λ i, offsets (b + i * k) sz st) l)
               = length l * numel sz) as H.
  { induction l as [|a l IHl]; simpl; [done|].
    rewrite length_app, IHl, IH by lia. done. }
  rewrite H, length_seq. done.
Qed.

Lemma flat_map_seq_blocks b m : ∀ n start,
  flat_map (λ i, seq (b + i * m) m) (seq start n) = seq (b + start * m) (n * m).
Proof.
  induction n as [|n IH]; intros start; simpl; [done|].
  rewrite IH, seq_app. do 2 f_equal. lia.
Qed.

(** A contiguous view covers consecutive elements. *)
Lemma offsets_contiguous sz : ∀ b,
  offsets b sz (contiguous_strides sz) = seq b (numel sz).
Proof.
  induction sz as [|n sz IH]; intros b; simpl; [done|].
  assert (∀ l, flat_map (λ i, offsets (b + i * numel sz) sz (contiguous_strides sz)) l
               = flat_map (λ i, seq (b + i * numel sz) (numel sz)) l) as H.
  { induction l as [|a l IHl]; simpl; [done|]. by rewrite IH, IHl. }
  rewrite H, flat_map_seq_blocks. f_equal. lia.
Qed.

Lemma length_contiguous_strides sz : length (contiguous_strides sz) = length sz.
Proof. induction sz; simpl; auto. Qed.

(** What reading a tensor yields: its dtype, its shape and its elements in
    row-major order, each as the cells it occupies. *)
Definition tensor_elements (h : Heap) (i : TensorImpl) : list (list Val) :=
  (λ o, read_elem garbage (storages h) (storage i) (width (scalar_type i)) o)
    <$> view_offsets i.

Definition read_tensor (h : Heap) (t : Tensor)
  : option (ScalarType * list nat * list (list Val)) :=
  match tensors h !! t with
  | Some i => Some (scalar_type i, sizes i, tensor_elements h i)
  | None => None
  end.

(** The core of an into-buffer form: build the plan, run the kernel on it,
    return the output. *)
Definition iterate (cfg : TensorIteratorConfig) (stub : Stub) (args : list StubArg)
    (result self : Tensor) : M Tensor :=
  let* iter := build cfg result self in
  call_stub stub (device_type iter) iter args;;
  ret result.

Lemma unary_op_impl_out_iterate result self stub :
  unary_op_impl_out result self stub = iterate (mkConfig true true) stub [] result self.
Proof. reflexivity. Qed.

(** The cells a kernel leaves in an output element of dtype [to] when it
    computes in dtype [from]. *)
Definition element_result (stub : Stub) (args : list StubArg) (from to : ScalarType)
    (v : list Val) : list Val :=
  pad garbage (width to) (convert from to (kernel_fn stub from args v)).

(** A view whose indices name distinct elements, all inside its storage. *)
Definition well_formed (h : Heap) (i : TensorImpl) : Prop :=
  length (strides i) = length (sizes i) ∧
  storage i < length (storages h) ∧
  NoDup (view_offsets i) ∧
  ∀ o c, o ∈ view_offsets i → c ∈ cells (width (scalar_type i)) o →
         in_bounds (storages h) (storage i) c.

Lemma fmap_zip_fst {A B C} (f : A → C) (l : list A) (k : list B) :
  length l ≤ length k → (λ q, f q.1) <$> zip l k = f <$> l.
Proof.
  intros H. rewrite <- (fst_zip l k) at 2 by done.
  by rewrite <- list_fmap_compose.
Qed.

Lemma fmap_zip_snd {A B C} (f : B → C) (l : list A) (k : list B) :
  length k ≤ length l → (λ q, f q.2) <$> zip l k = f <$> k.
Proof.
  intros H. rewrite <- (snd_zip l k) at 2 by done.
  by rewrite <- list_fmap_compose.
Qed.

Lemma elem_of_zip_same {A} (l : list A) q : q ∈ zip l l → q.1 = q.2 ∧ q.2 ∈ l.
Proof.
  induction l as [|a l IH]; simpl; intros H.
  - by apply elem_of_nil in H.
  - apply elem_of_cons in H as [->|H]; [split; [done|by left]|].
    destruct (IH H). split; [done|by right].
Qed.

(** In place: every element of [x] is replaced by the kernel's result on it. *)
Lemma iterate_in_place cfg stub args x w i :
  tensors (heap w) !! x = Some i →
  well_formed (heap w) i →
  if registered stub (device (options i)) then
    ∃ w', iterate cfg stub args x x w = (inr x, w') ∧
          tensors (heap w') = tensors (heap w) ∧
          tensor_elements (heap w') i
          = element_result stub args (scalar_type i) (scalar_type i)
              <$> tensor_elements (heap w) i
  else
    ∃ w', iterate cfg stub args x x w
          = (inl (DispatchFailure stub (device (options i))), w').
Proof.
  intros Hx (Hl & Hs & Hnd & Hin). unfold iterate.
  destruct (build_in_place cfg x w i Hx Hl) as [tr Hb].
  rewrite (bind_inr _ _ _ _ _ Hb). simpl.
  destruct (registered stub (device (options i))) eqn:Hr.
  - rewrite (bind_inr _ _ _ _ _
               (call_stub_run stub _
                  (mkIter x x (sizes i) (strides i) (scalar_type i)
                     (device (options i)))
                  args (mkWorld (heap w) tr) i i Hr Hx Hx)).
    eexists. split; [reflexivity|]. split; [done|].
    unfold tensor_elements, computed. simpl.
    rewrite <- list_fmap_compose.
    rewrite <- (fmap_zip_snd _ (view_offsets i) (view_offsets i)) by done.
    rewrite <- (fmap_zip_fst
                  (element_result stub args (scalar_type i) (scalar_type i)
                   ∘ (λ o, read_elem garbage (storages (heap w)) (storage i)
                             (width (scalar_type i)) o))
                  (view_offsets i) (view_offsets i)) by done.
    apply (elementwise_spec garbage).
    + by apply hazard_free_in_place.
    + intros q c Hq Hc. apply elem_of_zip_same in Hq as [_ Hq]. by eapply Hin.
  - rewrite (bind_inl _ _ _ _ _ (call_stub_unregistered _ _ _ _ _ Hr)).
    by eexists.
Qed.

Lemma resized_placeholder o w sz :
  resized (length (tensors (heap w))) (placeholder o w) sz (heap (allocated o w))
  = mkHeap
      (tensors (heap w)
       ++ [mkImpl o sz (contiguous_strides sz) 0 (length (storages (heap w))) false])
      (storages (heap w) ++ [replicate (width (dtype o) * numel sz) garbage]).
Proof.
  unfold resized, placeholder. simpl.
  destruct (decide ([0] = sz)) as [<-|Hne]; simpl.
  - by rewrite Nat.mul_0_r.
  - rewrite insert_app_r_alt, alter_app_r_alt by done.
    rewrite !Nat.sub_diag. simpl. unfold scalar_type. simpl.
    by rewrite Nat.sub_0_r.
Qed.

(** Into a fresh placeholder: the output becomes a contiguous tensor of the
    shape of the input, in a storage of its own, holding the kernel's result
    on every element of the input; nothing else changes. *)
Lemma iterate_fresh cfg stub args c w i o :
  tensors (heap w) !! c = Some i →
  length (strides i) = length (sizes i) →
  storage i < length (storages (heap w)) →
  (check_all_same_dtype cfg = true → dtype o = scalar_type i) →
  let r := length (tensors (heap w)) in
  let i' := mkImpl o (sizes i) (contiguous_strides (sizes i)) 0
              (length (storages (heap w))) false in
  if registered stub (device o) then
    ∃ cs,
      (let* result := at_empty o in iterate cfg stub args result c) w
      = (inr r,
         mkWorld (mkHeap (tensors (heap w) ++ [i']) (storages (heap w) ++ [cs]))
           (trace w ++ [EvEmpty r o; EvResize r (sizes i); EvBuild cfg r c;
                        EvKernel stub (device o) r c args])) ∧
      tensor_elements (mkHeap (tensors (heap w) ++ [i']) (storages (heap w) ++ [cs])) i'
      = element_result stub args (scalar_type i) (dtype o)
          <$> tensor_elements (heap w) i
  else
    ∃ w', (let* result := at_empty o in iterate cfg stub args result c) w
          = (inl (DispatchFailure stub (device o)), w').
Proof.
  intros Hc Hl Hs Hd r i'.
  rewrite (bind_inr _ _ _ _ _ (at_empty_run o w)). unfold iterate. fold r.
  rewrite (bind_inr _ _ _ _ _
             (build_unallocated cfg r c (allocated o w) (placeholder o w) i
                (allocated_lookup_new o w) (allocated_lookup o w c i Hc)
                Hd eq_refl eq_refl)).
  subst r. rewrite resized_placeholder. simpl. fold i'.
  destruct (registered stub (device o)) eqn:Hr.
  - assert ((tensors (heap w) ++ [i']) !! length (tensors (heap w)) = Some i')
      as Hr' by (by rewrite lookup_app_r, Nat.sub_diag).
    assert ((tensors (heap w) ++ [i']) !! c = Some i) as Hc'
      by (by apply lookup_app_l_Some).
    match goal with
    | |- context [bind (call_stub _ _ ?it _) _ ?W] =>
        rewrite (bind_inr _ _ _ _ _
                   (call_stub_run stub (device o) it args W i' i Hr Hr' Hc'))
    end.
    unfold computed. simpl.
    rewrite offsets_contiguous.
    set (m0 := storages (heap w)).
    set (st0 := replicate (width (dtype o) * numel (sizes i)) garbage).
    set (g := λ v, convert (scalar_type i) (dtype o)
                     (kernel_fn stub (scalar_type i) args v)).
    set (pairs := zip (offsets (storage_offset i) (sizes i) (strides i))
                    (seq 0 (numel (sizes i)))).
    destruct (elementwise_app_last garbage g (storage i) (width (scalar_type i))
                (width (dtype o)) pairs m0 st0) as [cs Hcs].
    exists cs. unfold bind, ret. simpl.
    rewrite <- !app_assoc. simpl. unfold scalar_type at 2. simpl. fold m0. 
    split.
    + do 3 f_equal. exact Hcs.
    + assert (length (seq 0 (numel (sizes i)))
              = length (offsets (storage_offset i) (sizes i) (strides i))) as Hlen
        by (by rewrite length_seq, length_offsets).
      unfold tensor_elements, view_offsets. simpl. rewrite offsets_contiguous.
      rewrite <- list_fmap_compose.
      rewrite <- (fmap_zip_snd _ (offsets (storage_offset i) (sizes i) (strides i))
                    (seq 0 (numel (sizes i)))) by lia.
      rewrite <- (fmap_zip_fst
                    (element_result stub args (scalar_type i) (dtype o)
                     ∘ (λ o', read_elem garbage (storages (heap w)) (storage i)
                                (width (scalar_type i)) o'))
                    (offsets (storage_offset i) (sizes i) (strides i))
                    (seq 0 (numel (sizes i)))) by lia.
      fold pairs. rewrite <- Hcs.
      rewrite (elementwise_spec garbage).
      * apply list_fmap_ext. intros k q _. unfold element_result, g. simpl.
        by rewrite read_elem_app_l.
      * apply hazard_free_fresh; [subst m0; lia|apply NoDup_seq].
      * intros [q1 q2] cidx Hq Hcidx. apply elem_of_zip_r in Hq. simpl in *.
        apply in_bounds_app_last. subst st0. rewrite length_replicate.
        apply elem_of_seq in Hq as [_ Hq]. apply elem_of_cells in Hcidx as [_ Hc2].
        eapply Nat.lt_le_trans; [exact Hc2|].
        rewrite <- Nat.mul_succ_r. apply Nat.mul_le_mono_l. lia.
  - rewrite (bind_inl _ _ _ _ _ (call_stub_unregistered _ _ _ _ _ Hr)).
    by eexists.
Qed.

(** ** In place against out of place *)









Ltac reads_known :=
  repeat match goal with
  | H : tensors (heap ?w) !! ?t = Some ?i |- context [Tensor_is_complex ?t ?w] =>
      rewrite (Tensor_is_complex_run w t i H)
  | H : tensors (heap ?w) !! ?t = Some ?i |- context [Tensor_scalar_type ?t ?w] =>
      rewrite (Tensor_scalar_type_run w t i H)
  | H : tensors (heap ?w) !! ?t = Some ?i |- context [Tensor_layout ?t ?w] =>
      rewrite (Tensor_layout_run w t i H)
  | H : tensors (heap ?w) !! ?t = Some ?i |- context [Tensor_device ?t ?w] =>
      rewrite (Tensor_device_run w t i H)
  | H : tensors (heap ?w) !! ?t = Some ?i |- context [Tensor_options ?t ?w] =>
      rewrite (Tensor_options_run w t i H)
  end.

Lemma bind_run {A B} (m : M A) (f : A → M B) w :
  bind m f w = match m w with (inl e, w') => (inl e, w') | (inr a, w') => f a w' end.
Proof. reflexivity. Qed.

(** A computation that can only return [r]. *)
Definition returns {A} (r : A) (m : M A) : Prop :=
  ∀ w, match (m w).1 with inr a => a = r | inl _ => True end.

Lemma returns_ret {A} (r : A) : returns r (ret r).
Proof. by intros w. Qed.

Lemma returns_throw {A} (r : A) e : returns r (throw e).
Proof. by intros w. Qed.

Lemma returns_bind {A B} (m : M A) (f : A → M B) r :
  (∀ a, returns r (f a)) → returns r (bind m f).
Proof.
  intros Hf w. unfold bind. destruct (m w) as [[e|a] w1]; [done|]. apply Hf.
Qed.

Lemma then_ret {A} (m : M A) (r : A) w : returns r m → (m;; ret r) w = m w.
Proof.
  intros H. specialize (H w). unfold bind, ret.
  destruct (m w) as [[e|a] w1]; simpl in *; by subst.
Qed.

Ltac returns_result :=
  repeat first
    [ apply returns_bind; intros ? | apply returns_ret | apply returns_throw
    | match goal with
      | |- returns _ (if ?b then _ else _) => destruct b
      | |- returns _ (match ?x with _ => _ end) => destruct x
      end ].

Lemma returns_iterate cfg stub args result self :
  returns result (iterate cfg stub args result self).
Proof. unfold iterate. returns_result. Qed.

Lemma returns_clamp_max_out result self mx :
  returns result (clamp_max_out result self mx).
Proof. unfold clamp_max_out. returns_result. Qed.

Lemma returns_clamp_min_out result self mn :
  returns result (clamp_min_out result self mn).
Proof. unfold clamp_min_out. returns_result. Qed.


Lemma returns_IMPLEMENT_UNARY_OP_OUT op stub d result self :
  returns result (IMPLEMENT_UNARY_OP_OUT op stub d result self).
Proof. unfold IMPLEMENT_UNARY_OP_OUT. returns_result. Qed.

Lemma returns_dispatch_out cpu cuda result self :
  (∀ r s, returns r (cpu r s)) → (∀ r s, returns r (cuda r s)) →
  returns result (dispatch_out cpu cuda result self).
Proof. intros H1 H2. unfold dispatch_out. returns_result; auto. Qed.

(** With one bound, [clamp_out] is the one-bound operator: the complex check
    they share raises the same failure, and both return the output. *)
Lemma clamp_out_only_max result self mx w :
  clamp_out result self None (Some mx) w = clamp_max_out result self mx w.
Proof.
  unfold clamp_out. rewrite bind_run.
  destruct (Tensor_is_complex self w) as [[e|c] w1] eqn:E.
  - unfold clamp_max_out. by rewrite bind_run, E.
  - assert (w1 = w) as ->.
    { unfold Tensor_is_complex, bind, get_impl, ret in E.
      destruct (tensors (heap w) !! self); by inversion E. }
    destruct c.
    + rewrite bind_run. cbn [negb TORCH_CHECK throw]. symmetry.
      unfold clamp_max_out. by rewrite bind_run, E.
    + rewrite bind_run. cbn [negb TORCH_CHECK ret].
      apply then_ret, returns_clamp_max_out.
Qed.

Lemma clamp_out_only_min result self mn w :
  clamp_out result self (Some mn) None w = clamp_min_out result self mn w.
Proof.
  unfold clamp_out. rewrite bind_run.
  destruct (Tensor_is_complex self w) as [[e|c] w1] eqn:E.
  - unfold clamp_min_out. by rewrite bind_run, E.
  - assert (w1 = w) as ->.
    { unfold Tensor_is_complex, bind, get_impl, ret in E.
      destruct (tensors (heap w) !! self); by inversion E. }
    destruct c.
    + rewrite bind_run. cbn [negb TORCH_CHECK throw]. symmetry.
      unfold clamp_min_out. by rewrite bind_run, E.
    + rewrite bind_run. cbn [negb TORCH_CHECK ret].
      apply then_ret, returns_clamp_min_out.
Qed.






Lemma unary_op_impl_run self out_impl w i :
  tensors (heap w) !! self = Some i →
  unary_op_impl self out_impl w
  = (let* result := at_empty (options i) in out_impl result self) w.
Proof. intros H. unfold unary_op_impl. rewrite bind_run. by reads_known. Qed.


(** What the claim compares: the in-place run read back at [x], and the
    allocate-and-return run read at the tensor it returned.  Both fail alike,
    or both succeed and the readings (dtype, shape, elements) are equal. *)
Definition agree_after (x : Tensor)
    (in_place_run out_of_place_run : (Error + Tensor) * World) : Prop :=
  match in_place_run.1, out_of_place_run.1 with
  | inr _, inr r =>
      is_Some (read_tensor (heap in_place_run.2) x) ∧
      read_tensor (heap in_place_run.2) x = read_tensor (heap out_of_place_run.2) r
  | inl e, inl e' => e = e'
  | _, _ => False
  end.

(** ** Clamp *)

Lemma unary_op_impl_forms_fail self i (out_impl : Tensor → Tensor → M Tensor) k w :
  tensors (heap w) !! self = Some i →
  (∀ result w', tensors (heap w') !! self = Some i →
     fails_with k (out_impl result self w')) →
  fails_with k (unary_op_impl self out_impl w) ∧
  fails_with k (unary_op_impl_ self out_impl w) ∧
  ∀ result, fails_with k (out_impl result self w).
Proof.
  intros Hs H. split; [by eapply unary_op_impl_fails|].
  split; [by apply H|]. intros result. by apply H.
Qed.

Lemma clamp_out_complex result self i mn mx w :
  tensors (heap w) !! self = Some i → is_complex i = true →
  fails_with UnsupportedDtype (clamp_out result self mn mx w).
Proof. intros Hs Hc. by eapply complex_check_fails. Qed.

Lemma clamp_out_no_bound result self i w :
  tensors (heap w) !! self = Some i → is_complex i = false →
  fails_with InvalidArgument (clamp_out result self None None w).
Proof.
  intros Hs Hc. unfold clamp_out. rewrite bind_run. reads_known. rewrite Hc.
  by eexists.
Qed.

Lemma clamp_out_layout result self i mn mx w :
  tensors (heap w) !! self = Some i → is_complex i = false →
  is_Some mn ∨ is_Some mx → layout (options i) ≠ Strided →
  fails_with UnsupportedLayout (clamp_out result self mn mx w).
Proof.
  intros Hs Hc Hb Hl.
  assert (bool_decide (layout (options i) = Strided) = false) as Hd
    by (by apply bool_decide_eq_false_2).
  destruct mn as [lo|], mx as [hi|].
  - unfold clamp_out. rewrite bind_run. reads_known. rewrite Hc.
    cbn [negb TORCH_CHECK]. rewrite bind_run. cbn [ret].
    rewrite bind_run. reads_known. rewrite Hd. by eexists.
  - rewrite clamp_out_only_min. unfold clamp_min_out.
    rewrite bind_run. reads_known. rewrite Hc.
    cbn [negb TORCH_CHECK]. rewrite bind_run. cbn [ret].
    rewrite bind_run. reads_known. rewrite Hd. by eexists.
  - rewrite clamp_out_only_max. unfold clamp_max_out.
    rewrite bind_run. reads_known. rewrite Hc.
    cbn [negb TORCH_CHECK]. rewrite bind_run. cbn [ret].
    rewrite bind_run. reads_known. rewrite Hd. by eexists.
  - destruct Hb as [[? Hb]|[? Hb]]; discriminate Hb.
Qed.

Lemma clamp_out_fused result self i lo hi w :
  tensors (heap w) !! self = Some i → is_complex i = false →
  layout (options i) = Strided →
  clamp_out result self (Some lo) (Some hi) w
  = iterate (mkConfig true true) clamp_stub [ArgScalar lo; ArgScalar hi] result self w.
Proof.
  intros Hs Hc Hl. unfold clamp_out. rewrite bind_run. reads_known. rewrite Hc.
  cbn [negb TORCH_CHECK]. rewrite bind_run. cbn [ret].
  rewrite bind_run. reads_known. rewrite Hl. reflexivity.
Qed.

(** C4 (amended). clamp, in all three call forms: fails with UnsupportedDtype
    for every complex input, whatever the bounds; for an input that is not
    complex it fails with InvalidArgument when neither bound is supplied, and
    with UnsupportedLayout when a bound is supplied and the layout is not
    strided; with both bounds on a strided input that is not complex it runs
    the one fused kernel [clamp_stub] with both bounds; with only max it is
    clamp_max_out, with only min it is clamp_min_out. *)
Theorem clamp_checks_in_order_and_delegates w self i mn mx :
  tensors (heap w) !! self = Some i →
  (is_complex i = true →
     fails_with UnsupportedDtype (clamp self mn mx w) ∧
     fails_with UnsupportedDtype (clamp_ self mn mx w) ∧
     ∀ result, fails_with UnsupportedDtype (clamp_out result self mn mx w)) ∧
  (is_complex i = false →
     fails_with InvalidArgument (clamp self None None w) ∧
     fails_with InvalidArgument (clamp_ self None None w) ∧
     ∀ result, fails_with InvalidArgument (clamp_out result self None None w)) ∧
  (is_complex i = false → is_Some mn ∨ is_Some mx →
   layout (options i) ≠ Strided →
     fails_with UnsupportedLayout (clamp self mn mx w) ∧
     fails_with UnsupportedLayout (clamp_ self mn mx w) ∧
     ∀ result, fails_with UnsupportedLayout (clamp_out result self mn mx w)) ∧
  (is_complex i = false → layout (options i) = Strided →
     ∀ lo hi result,
       clamp_out result self (Some lo) (Some hi) w
       = iterate (mkConfig true true) clamp_stub [ArgScalar lo; ArgScalar hi]
           result self w) ∧
  (∀ hi result,
     clamp_out result self None (Some hi) w = clamp_max_out result self hi w) ∧
  (∀ lo result,
     clamp_out result self (Some lo) None w = clamp_min_out result self lo w).
Proof.
  intros Hs. split; [|split; [|split; [|split; [|split]]]].
  - intros Hc.
    apply (unary_op_impl_forms_fail self i (λ r s, clamp_out r s mn mx) _ w Hs).
    intros. by eapply clamp_out_complex.
  - intros Hc.
    apply (unary_op_impl_forms_fail self i (λ r s, clamp_out r s None None) _ w Hs).
    intros. by eapply clamp_out_no_bound.
  - intros Hc Hb Hl.
    apply (unary_op_impl_forms_fail self i (λ r s, clamp_out r s mn mx) _ w Hs).
    intros. by eapply clamp_out_layout.
  - intros Hc Hl lo hi result. by eapply clamp_out_fused.
  - intros. apply clamp_out_only_max.
  - intros. apply clamp_out_only_min.
Qed.

(** ** polygamma and mvlgamma *)



Lemma aten_run c w t h :
  aten_oracle c (heap w) = (inr t, h) →
  aten c w = (inr t, mkWorld h (trace w ++ [EvAten c])).
Proof. intros H. unfold aten. by rewrite H. Qed.



(** ** square *)

(** C9. square(x) is exactly the call of pow on x and 2, and square_(x)
    exactly the call of pow_out on x, x and 2: their results and effects are
    the results and effects of these calls; no stub of the file belongs to
    square. *)
Theorem square_is_pow self w :
  square self w = aten (call_pow self (ScalarInt 2)) w ∧
  square_ self w = aten (call_pow_out self self (ScalarInt 2)) w ∧
  heap (square self w).2
    = (aten_oracle (call_pow self (ScalarInt 2)) (heap w)).2 ∧
  heap (square_ self w).2
    = (aten_oracle (call_pow_out self self (ScalarInt 2)) (heap w)).2 ∧
  (∀ t, (square self w).1 = inr t ↔
        (aten_oracle (call_pow self (ScalarInt 2)) (heap w)).1 = inr t) ∧
  (∀ t, (square_ self w).1 = inr t ↔
        (aten_oracle (call_pow_out self self (ScalarInt 2)) (heap w)).1 = inr t) ∧
  trace (square self w).2 = trace w ++ [EvAten (call_pow self (ScalarInt 2))] ∧
  trace (square_ self w).2
    = trace w ++ [EvAten (call_pow_out self self (ScalarInt 2))] ∧
  (∀ s, stub_operator s ≠ "square").
Proof.
  unfold square, square_, aten.
  destruct (aten_oracle (call_pow self (ScalarInt 2)) (heap w)) as [[m1|t1] h1].
  all: destruct (aten_oracle (call_pow_out self self (ScalarInt 2)) (heap w))
         as [[m2|t2] h2].
  all: repeat split; simpl; try done; try congruence.
  all: try (intros s; destruct s; discriminate).
Qed.

(** ** real and imag *)

Lemma isComplexType_toValueType t : isComplexType (toValueType t) = false.
Proof. by destruct t. Qed.

Lemma fmap_flat_map {A B C} (F : B → C) (f : A → list B) (l : list A) :
  F <$> flat_map f l = flat_map (λ x, F <$> f x) l.
Proof.
  induction l as [|a l IH]; simpl; [done|]. by rewrite fmap_app, IH.
Qed.

Lemma flat_map_pointwise {A B} (f g : A → list B) (l : list A) :
  (∀ x, f x = g x) → flat_map f l = flat_map g l.
Proof. intros H. induction l as [|a l IH]; simpl; [done|]. by rewrite H, IH. Qed.

(** The elements of the float view of a complex view: element [o] of the
    complex view lies at the real cells [2 * o] and [2 * o + 1]. *)
Lemma offsets_scaled part sz : ∀ st b,
  offsets (2 * b + part) sz (Nat.mul 2 <$> st)
  = (λ o, 2 * o + part) <$> offsets b sz st.
Proof.
  induction sz as [|n sz IH]; intros [|k st] b; simpl; try done.
  rewrite fmap_flat_map. apply flat_map_pointwise. intros x.
  rewrite <- IH. f_equal. lia.
Qed.

Lemma read_elem_real m s o :
  read_elem (uninitialised env) m s 1 o = [load (uninitialised env) m s o].
Proof. unfold read_elem, cells. by rewrite Nat.mul_1_l. Qed.

Lemma read_elem_complex m s o :
  read_elem (uninitialised env) m s 2 o
  = [load (uninitialised env) m s (2 * o); load (uninitialised env) m s (2 * o + 1)].
Proof. unfold read_elem, cells. simpl. by rewrite Nat.add_1_r. Qed.

(** The real part ([part = 0]) or the imaginary part ([part = 1]) of the
    cells of a complex element. *)
Definition component (part : nat) (e : list Val) : list Val := take 1 (drop part e).

(** Selecting along the last dimension: the view without that dimension. *)
Lemma select_last t it sz n st k ix w :
  tensors (heap w) !! t = Some it →
  sizes it = sz ++ [n] → strides it = st ++ [k] → length st = length sz →
  ix < n →
  select t (dim it - 1) (Z.of_nat ix) w
  = (inr (length (tensors (heap w))),
     mkWorld
       (mkHeap
          (tensors (heap w)
           ++ [mkImpl (options it) sz st (storage_offset it + ix * k) (storage it)
                 false])
          (storages (heap w)))
       (trace w ++ [EvView (length (tensors (heap w))) t])).
Proof.
  intros Ht Hsz Hst Hl Hix. unfold select.
  rewrite (bind_inr _ _ _ _ _ (get_impl_Some _ _ _ Ht)).
  assert (dim it = Z.of_nat (length sz) + 1)%Z as Hdim.
  { unfold dim. rewrite Hsz, length_app. simpl. lia. }
  rewrite Hdim.
  assert ((Z.of_nat (length sz) + 1 =? 0)%Z = false) as -> by lia.
  assert (((Z.of_nat (length sz) + 1 - 1 <? - (Z.of_nat (length sz) + 1))
           || (Z.of_nat (length sz) + 1 <=? Z.of_nat (length sz) + 1 - 1))%Z
          = false) as ->.
  { apply orb_false_iff. split; lia. }
  assert ((Z.of_nat (length sz) + 1 - 1 <? 0)%Z = false) as -> by lia.
  assert (Z.to_nat (Z.of_nat (length sz) + 1 - 1) = length sz) as -> by lia.
  rewrite Hsz, Hst.
  rewrite (list_lookup_middle sz [] n (length sz)) by done.
  rewrite (list_lookup_middle st [] k (length sz)) by done.
  cbn [default from_option id].
  assert (((Z.of_nat ix <? - Z.of_nat n) || (Z.of_nat n <=? Z.of_nat ix))%Z
          = false) as ->.
  { apply orb_false_iff. split; lia. }
  assert ((Z.of_nat ix <? 0)%Z = false) as -> by lia.
  rewrite Nat2Z.id.
  rewrite (delete_middle sz [] n).
  replace (delete (length sz) (st ++ [k])) with (delete (length st) (st ++ [k]))
    by (by rewrite Hl).
  rewrite (delete_middle st [] k).
  rewrite !app_nil_r. reflexivity.
Qed.

(** What [real] ([part = 0]) and [imag] ([part = 1]) return on a complex
    tensor: a view with the real dtype and the shape of the input over the
    storage of the input, whose elements are the components, and no other
    change to the heap. *)
Definition is_component_view (w : World) (self : Tensor) (i : TensorImpl)
    (part : nat) (run : (Error + Tensor) * World) : Prop :=
  ∃ v iv float_tensor,
    run.1 = inr v ∧
    tensors (heap run.2) !! v = Some iv ∧
    scalar_type iv = toValueType (scalar_type i) ∧
    sizes iv = sizes i ∧
    storage iv = storage i ∧
    strides iv = (Nat.mul 2 <$> strides i) ∧
    storage_offset iv = 2 * storage_offset i + part ∧
    tensor_elements (heap run.2) iv = component part <$> tensor_elements (heap w) i ∧
    storages (heap run.2) = storages (heap w) ∧
    (∀ t it, tensors (heap w) !! t = Some it → tensors (heap run.2) !! t = Some it) ∧
    trace run.2 = trace w ++ [EvView float_tensor self; EvView v float_tensor].

Lemma component_view_run part self i w :
  tensors (heap w) !! self = Some i → is_complex i = true →
  length (strides i) = length (sizes i) → part < 2 →
  is_component_view w self i part
    ((let* float_tensor := view_complex_as_float self in
      let* d := Tensor_dim float_tensor in
      select float_tensor (d - 1) (Z.of_nat part)) w).
Proof.
  intros Hs Hc Hl Hp.
  unfold view_complex_as_float.
  rewrite bind_run. rewrite (bind_inr _ _ _ _ _ (get_impl_Some _ _ _ Hs)).
  rewrite Hc. unfold new_tensor at 1. rewrite bind_run. cbn [bind emit ret].
  set (f := length (tensors (heap w))).
  set (fi := mkImpl (with_dtype (options i) (toValueType (scalar_type i)))
               (sizes i ++ [2]) ((Nat.mul 2 <$> strides i) ++ [1])
               (2 * storage_offset i) (storage i) false).
  set (w1 := mkWorld (mkHeap (tensors (heap w) ++ [fi]) (storages (heap w)))
               (trace w ++ [EvView f self])).
  assert (tensors (heap w1) !! f = Some fi) as Hf
    by (simpl; by rewrite lookup_app_r, Nat.sub_diag).
  unfold Tensor_dim. rewrite bind_run.
  rewrite (bind_inr _ _ _ _ _ (get_impl_Some _ _ _ Hf)). cbn [ret].
  rewrite (select_last f fi (sizes i) 2 (Nat.mul 2 <$> strides i) 1 part w1 Hf)
    by (try done; by rewrite length_fmap).
  eexists _, _, f. cbn [fst snd heap tensors storages trace].
  split; [reflexivity|].
  split; [by rewrite lookup_app_r, Nat.sub_diag|].
  subst w1 fi.
  cbn [heap tensors storages trace options sizes strides storage_offset storage].
  split; [done|]. split; [done|]. split; [done|]. split; [done|].
  split; [lia|]. split.
  { unfold tensor_elements, view_offsets, scalar_type.
    cbn [sizes strides storage_offset storage options dtype with_dtype heap
         storages].
    unfold width. rewrite isComplexType_toValueType.
    unfold is_complex, scalar_type in Hc. rewrite Hc.
    replace (2 * storage_offset i + part * 1) with (2 * storage_offset i + part)
      by lia.
    rewrite offsets_scaled. rewrite <- !list_fmap_compose.
    apply list_fmap_ext. intros ? o _. cbn [compose].
    rewrite read_elem_real, read_elem_complex.
    destruct part as [|[|?]]; [|done|lia].
    unfold component. cbn [drop take]. by rewrite Nat.add_0_r. }
  split; [done|]. split.
  { intros t it Ht. rewrite <- app_assoc. by apply lookup_app_l_Some. }
  by rewrite <- app_assoc.
Qed.

(** C6. real(x) and imag(x) fail with UnsupportedDtype for every input that
    is not complex; for a complex input of shape S they return a view of real
    dtype and shape S over the storage of the input: the complex array seen
    as a real array with a trailing dimension of 2, at index 0 (real) or 1
    (imag) of that dimension; its elements are the real (imaginary) parts;
    no storage is allocated or written and nothing is computed. *)
Theorem real_and_imag_are_views w self i :
  tensors (heap w) !! self = Some i →
  (is_complex i = false →
     fails_with UnsupportedDtype (real self w) ∧
     fails_with UnsupportedDtype (imag self w)) ∧
  (is_complex i = true → length (strides i) = length (sizes i) →
     is_component_view w self i 0 (real self w) ∧
     is_component_view w self i 1 (imag self w)).
Proof.
  intros Hs. split.
  - intros Hc. split.
    + unfold real. rewrite bind_run. reads_known. rewrite Hc. by eexists.
    + unfold imag. rewrite bind_run. reads_known. rewrite Hc. by eexists.
  - intros Hc Hl. split.
    + unfold real. rewrite bind_run. reads_known. rewrite Hc.
      apply (component_view_run 0); [done..|lia].
    + unfold imag. rewrite bind_run. reads_known. rewrite Hc.
      apply (component_view_run 1); [done..|lia].
Qed.

(** ** logical_not *)

(** A computation that never raises [bad]. *)
Definition avoids (bad : Error) {A} (m : M A) : Prop := ∀ w, (m w).1 ≠ inl bad.

Lemma avoids_ret bad {A} (a : A) : avoids bad (ret a).
Proof. intros w H. simpl in H. discriminate H. Qed.

Lemma avoids_throw bad {A} e : e ≠ bad → avoids bad (@throw A e).
Proof. intros He w. simpl. congruence. Qed.

Lemma avoids_bind bad {A B} (m : M A) (f : A → M B) :
  avoids bad m → (∀ a, avoids bad (f a)) → avoids bad (bind m f).
Proof.
  intros Hm Hf w. unfold bind. specialize (Hm w).
  destruct (m w) as [[e|a] w1]; simpl in *; [congruence|]. apply Hf.
Qed.

Lemma avoids_get_impl bad t : bad ≠ UndefinedTensor → avoids bad (get_impl t).
Proof.
  intros Hb w. unfold get_impl. destruct (_ !! _); simpl; congruence.
Qed.

Lemma avoids_emit bad e : avoids bad (emit e).
Proof. intros w H. simpl in H. discriminate H. Qed.

Lemma avoids_set_storages bad f : avoids bad (set_storages f).
Proof. intros w H. simpl in H. discriminate H. Qed.

Lemma avoids_set_impl bad t i : avoids bad (set_impl t i).
Proof. intros w H. simpl in H. discriminate H. Qed.

Ltac avoids_dtype_mismatch :=
  repeat first
    [ apply avoids_bind; [|intros ?] | apply avoids_ret
    | apply avoids_throw; discriminate | apply avoids_get_impl; discriminate
    | apply avoids_emit | apply avoids_set_storages | apply avoids_set_impl
    | match goal with
      | |- avoids _ (if ?b then _ else _) => destruct b
      | |- avoids _ (match ?x with _ => _ end) => destruct x
      end ].

Lemma logical_not_out_accepts_any_dtype result self :
  avoids (PlanFailure PlanDtypeMismatch) (logical_not_out result self).
Proof.
  unfold logical_not_out, build, call_stub, resize_.
  cbn [check_all_same_dtype andb]. avoids_dtype_mismatch.
Qed.

(** C10. For an input of any dtype, logical_not(x) allocates its result with
    dtype Bool and returns it; logical_not_(x) and logical_not_out(result, x)
    run the kernel over a plan built with the same-dtype check disabled and
    the memory-overlap check enabled, so that a destination of another dtype
    than the input is never refused for its dtype. *)
Theorem logical_not_allocates_bool w self i :
  tensors (heap w) !! self = Some i →
  length (strides i) = length (sizes i) →
  storage i < length (storages (heap w)) →
  (registered logical_not_stub (device (options i)) = true →
   ∃ r ir w',
     logical_not self w = (inr r, w') ∧
     tensors (heap w') !! r = Some ir ∧
     scalar_type ir = Bool ∧
     sizes ir = sizes i ∧
     tensor_elements (heap w') ir
     = element_result logical_not_stub [] (scalar_type i) Bool
         <$> tensor_elements (heap w) i ∧
     trace w'
     = trace w ++ [EvEmpty r (with_dtype (options i) Bool); EvResize r (sizes i);
                   EvBuild (mkConfig false true) r self;
                   EvKernel logical_not_stub (device (options i)) r self []]) ∧
  logical_not_ self w
    = iterate (mkConfig false true) logical_not_stub [] self self w ∧
  (∀ result,
     logical_not_out result self w
     = iterate (mkConfig false true) logical_not_stub [] result self w) ∧
  (∀ result e w',
     logical_not_out result self w = (inl e, w') →
     e ≠ PlanFailure PlanDtypeMismatch).
Proof.
  intros Hs Hl Hst. split; [|split; [done|split; [done|]]].
  - intros Hr.
    pose proof (iterate_fresh (mkConfig false true) logical_not_stub [] self w i
                  (with_dtype (options i) Bool) Hs Hl Hst) as Hrun.
    cbv zeta in Hrun. cbn [device with_dtype] in Hrun. rewrite Hr in Hrun.
    destruct Hrun as (cs & Hrun & Hel); [discriminate|].
    unfold logical_not. rewrite bind_run. reads_known.
    change (let* result := at_empty (with_dtype (options i) Bool)
            in logical_not_out result self)
      with (let* result := at_empty (with_dtype (options i) Bool)
            in iterate (mkConfig false true) logical_not_stub [] result self).
    rewrite Hrun.
    eexists _, _, _. split; [reflexivity|]. cbn [heap tensors trace].
    split; [by rewrite lookup_app_r, Nat.sub_diag|].
    split; [done|]. split; [done|]. split; [exact Hel|done].
  - intros result e w' Hrun ->.
    by apply (logical_not_out_accepts_any_dtype result self w); rewrite Hrun.
Qed.

(** ** The complex-to-real policy *)

(** The descriptor of a tensor after [resize_]. *)
Definition resized_impl (i : TensorImpl) (sz : list nat) : TensorImpl :=
  if decide (sizes i = sz) then i
  else mkImpl (options i) sz (contiguous_strides sz) (storage_offset i) (storage i)
         (is_wrapped_number i).

Lemma resized_tensors t i sz h :
  tensors h !! t = Some i →
  tensors (resized t i sz h) = <[t := resized_impl i sz]> (tensors h).
Proof.
  intros H. unfold resized, resized_impl.
  destruct (decide (sizes i = sz)); [|done].
  by rewrite list_insert_id.
Qed.

Lemma options_resized_impl i sz : options (resized_impl i sz) = options i.
Proof. unfold resized_impl. by destruct (decide _). Qed.

Lemma sizes_resized_impl i sz : sizes (resized_impl i sz) = sz.
Proof. unfold resized_impl. by destruct (decide _). Qed.

Lemma storage_resized_impl i sz : storage (resized_impl i sz) = storage i.
Proof. unfold resized_impl. by destruct (decide _). Qed.

Lemma resized_storages_other t i sz h s :
  s ≠ storage i → storages (resized t i sz h) !! s = storages h !! s.
Proof.
  intros Hs. unfold resized. destruct (decide _); [done|]. simpl.
  by rewrite list_lookup_alter_ne.
Qed.

Lemma length_resized_storages t i sz h :
  length (storages (resized t i sz h)) = length (storages h).
Proof.
  unfold resized. destruct (decide _); [done|]. simpl. by rewrite length_alter.
Qed.

(** After [resize_], a well-formed view is still one: unchanged, or
    contiguous in a storage that has grown to hold it. *)
Lemma resized_well_formed t i sz h :
  storage i < length (storages h) →
  (sizes i = sz → well_formed h i) →
  well_formed (resized t i sz h) (resized_impl i sz).
Proof.
  intros Hs Hwf. unfold resized, resized_impl.
  destruct (decide (sizes i = sz)) as [Heq|Hne]; [by apply Hwf|].
  unfold well_formed, view_offsets, scalar_type. simpl.
  rewrite length_alter, offsets_contiguous.
  split; [apply length_contiguous_strides|]. split; [done|].
  split; [apply NoDup_seq|].
  intros o c Ho Hc.
  destruct (lookup_lt_is_Some_2 (storages h) (storage i) Hs) as [st Hst].
  eexists. split.
  - rewrite list_lookup_alter_eq, Hst. reflexivity.
  - rewrite length_app, length_replicate.
    apply elem_of_seq in Ho as [_ Ho]. apply elem_of_cells in Hc as [_ Hc].
    assert (width (dtype (options i)) * o + width (dtype (options i))
            ≤ width (dtype (options i)) * (storage_offset i + numel sz)).
    { rewrite <- Nat.mul_succ_r. apply Nat.mul_le_mono_l. lia. }
    lia.
Qed.

Lemma iterate_regroup cfg stub args self o {B} (rest : Tensor → M B) w :
  (let* cr := at_empty o in
   let* iter := build cfg cr self in
   call_stub stub (device_type iter) iter args;; rest cr) w
  = (let* cr := (let* r := at_empty o in iterate cfg stub args r self) in rest cr) w.
Proof.
  unfold iterate. rewrite !bind_run. rewrite at_empty_run.
  rewrite !bind_run.
  destruct (build cfg _ self _) as [[e|it] w1]; [done|].
  rewrite !bind_run.
  destruct (call_stub stub _ it args w1) as [[e|[]] w2]; done.
Qed.

(** The world [dst.copy_(src)] leaves when both have the same shape. *)
Lemma copy_run dst src w d s :
  tensors (heap w) !! dst = Some d →
  tensors (heap w) !! src = Some s →
  sizes s = sizes d → length (strides s) = length (sizes s) →
  copy_ dst src w
  = (inr tt,
     mkWorld
       (mkHeap (tensors (heap w))
          (elementwise garbage (convert (scalar_type s) (scalar_type d))
             (storage s) (width (scalar_type s)) (storage d) (width (scalar_type d))
             (zip (view_offsets s) (view_offsets d)) (storages (heap w))))
       (trace w ++ [EvCopy dst src])).
Proof.
  intros Hd Hs Hsz Hl. unfold copy_.
  rewrite (bind_inr _ _ _ _ _ (get_impl_Some _ _ _ Hd)).
  rewrite (bind_inr _ _ _ _ _ (get_impl_Some _ _ _ Hs)).
  rewrite <- Hsz, broadcast_same. rewrite decide_True by done.
  rewrite expand_strides_same by done. reflexivity.
Qed.

(** What the policy leaves when the cast is legal and the kernel registered:
    the caller's output is returned; a temporary with the options and shape
    of the input holds the kernel's results; the output has the shape of the
    temporary and holds its elements, converted; the events are the
    allocation of the temporary, the plan, the kernel, the resize and the
    copy. *)
Definition policy_outcome (stub : Stub) (w : World) (result self : Tensor)
    (i ir : TensorImpl) (run : (Error + Tensor) * World) : Prop :=
  let temp := length (tensors (heap w)) in
  run.1 = inr result ∧
  trace run.2
  = trace w ++ [EvEmpty temp (options i); EvResize temp (sizes i);
                EvBuild (mkConfig true true) temp self;
                EvKernel stub (device (options i)) temp self [];
                EvResize result (sizes i); EvCopy result temp] ∧
  ∃ it ir',
    tensors (heap run.2) !! temp = Some it ∧
    tensors (heap w) !! temp = None ∧
    options it = options i ∧ sizes it = sizes i ∧
    tensor_elements (heap run.2) it
    = element_result stub [] (scalar_type i) (scalar_type i)
        <$> tensor_elements (heap w) i ∧
    tensors (heap run.2) !! result = Some ir' ∧
    options ir' = options ir ∧ sizes ir' = sizes it ∧
    tensor_elements (heap run.2) ir'
    = (λ v, pad garbage (width (scalar_type ir))
              (convert (scalar_type i) (scalar_type ir) v))
        <$> tensor_elements (heap run.2) it.

Lemma complex_to_float_run stub result self w i ir :
  tensors (heap w) !! self = Some i →
  tensors (heap w) !! result = Some ir →
  is_complex i = true → is_complex ir = false →
  canCast (toValueType (scalar_type i)) (scalar_type ir) = true →
  length (strides i) = length (sizes i) →
  storage i < length (storages (heap w)) →
  storage ir < length (storages (heap w)) →
  (sizes ir = sizes i → well_formed (heap w) ir) →
  registered stub (device (options i)) = true →
  policy_outcome stub w result self i ir
    (unary_op_impl_with_complex_to_float_out result self stub w).
Proof.
  intros Hs Hr Hc Hrc Hcast Hl Hst Hstr Hwf Hreg.
  assert (result < length (tensors (heap w))) as Hlt
    by (by eapply lookup_lt_Some).
  unfold unary_op_impl_with_complex_to_float_out.
  rewrite bind_run. reads_known. rewrite Hc.
  rewrite bind_run, bind_run. reads_known. rewrite Hrc. cbn [ret negb].
  rewrite bind_run. reads_known.
  rewrite bind_run. reads_known. rewrite Hcast. cbn [TORCH_CHECK].
  rewrite bind_run. cbn [ret]. rewrite bind_run. reads_known.
  unfold unary_op.
  rewrite (iterate_regroup (mkConfig true true) stub [] self (options i)
             (λ cr, let* sz := Tensor_sizes cr in
                    resize_ result sz;; copy_ result cr;; ret result)).
  pose proof (iterate_fresh (mkConfig true true) stub [] self w i (options i)
                Hs Hl Hst (λ _, eq_refl)) as Hrun.
  cbv zeta in Hrun. rewrite Hreg in Hrun. destruct Hrun as (cs & Hrun & Hel).
  rewrite (bind_inr _ _ _ _ _ Hrun). clear Hrun.
  set (temp := length (tensors (heap w))) in *.
  set (it := mkImpl (options i) (sizes i) (contiguous_strides (sizes i)) 0
               (length (storages (heap w))) false) in *.
  set (h2 := mkHeap (tensors (heap w) ++ [it]) (storages (heap w) ++ [cs])) in *.
  set (w2 := mkWorld h2 _).
  assert (tensors (heap w2) !! temp = Some it) as Ht2
    by (simpl; by rewrite lookup_app_r, Nat.sub_diag).
  assert (tensors (heap w2) !! result = Some ir) as Hr2
    by (simpl; by apply lookup_app_l_Some).
  rewrite (bind_inr _ _ _ _ _ (Tensor_sizes_run _ _ _ Ht2)).
  rewrite (bind_inr _ _ _ _ _ (resize_run _ _ _ _ Hr2)).
  set (w3 := mkWorld (resized result ir (sizes it) (heap w2)) _).
  assert (tensors (heap w3) !! result = Some (resized_impl ir (sizes i))) as Hr3.
  { simpl. rewrite (resized_tensors _ _ _ _ Hr2).
    apply list_lookup_insert_eq. simpl. rewrite length_app. lia. }
  assert (tensors (heap w3) !! temp = Some it) as Ht3.
  { simpl. rewrite (resized_tensors _ _ _ _ Hr2).
    rewrite list_lookup_insert_ne by (subst temp; lia). exact Ht2. }
  rewrite (bind_inr _ _ _ _ _
             (copy_run result temp w3 (resized_impl ir (sizes i)) it Hr3 Ht3
                (eq_sym (sizes_resized_impl ir (sizes i)))
                (length_contiguous_strides (sizes i)))).
  unfold policy_outcome. cbn [ret fst snd heap trace tensors storages].
  split; [done|]. split.
  { subst w3 w2. cbn [trace]. rewrite <- !app_assoc. reflexivity. }
  exists it, (resized_impl ir (sizes i)).
  assert (well_formed (resized result ir (sizes i) h2) (resized_impl ir (sizes i)))
    as (Hwl & Hws & Hwnd & Hwin).
  { apply resized_well_formed.
    - subst h2. simpl. rewrite length_app. lia.
    - intros Heq. destruct (Hwf Heq) as (H1 & H2 & H3 & H4).
      split; [done|]. split; [subst h2; simpl; rewrite length_app; lia|].
      split; [done|]. intros o c Ho Hcc.
      destruct (H4 o c Ho Hcc) as (st & Hst1 & Hst2).
      exists st. split; [|done]. subst h2. simpl. by apply lookup_app_l_Some. }
  rewrite storage_resized_impl in Hws, Hwin.
  assert (storage it ≠ storage ir) as Hne by (subst it; simpl; lia).
  split; [exact Ht3|]. split; [by apply lookup_ge_None_2|].
  split; [done|]. split; [done|].
  assert (tensor_elements
            (mkHeap (tensors (heap w3))
               (elementwise garbage
                  (convert (scalar_type it) (scalar_type (resized_impl ir (sizes i))))
                  (storage it) (width (scalar_type it))
                  (storage (resized_impl ir (sizes i)))
                  (width (scalar_type (resized_impl ir (sizes i))))
                  (zip (view_offsets it) (view_offsets (resized_impl ir (sizes i))))
                  (storages (heap w3)))) it
          = tensor_elements h2 it) as Htemp.
  { unfold tensor_elements. cbn [storages]. apply list_fmap_ext. intros ? o _.
    unfold read_elem. apply list_fmap_ext. intros ? c _. unfold load.
    rewrite elementwise_lookup_other by (by rewrite storage_resized_impl).
    subst w3. cbn [heap]. by rewrite resized_storages_other. }
  split; [by rewrite Htemp|].
  split; [exact Hr3|].
  split; [apply options_resized_impl|].
  split; [apply sizes_resized_impl|].
  rewrite Htemp.
  assert (length (view_offsets it)
          = length (view_offsets (resized_impl ir (sizes i)))) as Hlen.
  { unfold view_offsets. rewrite !length_offsets; try done.
    - by rewrite sizes_resized_impl.
    - apply length_contiguous_strides. }
  unfold tensor_elements at 1. cbn [storages].
  rewrite <- (fmap_zip_snd _ (view_offsets it)
                (view_offsets (resized_impl ir (sizes i)))) by lia.
  unfold tensor_elements. rewrite <- list_fmap_compose.
  rewrite <- (fmap_zip_fst
                ((λ v, pad garbage (width (scalar_type ir))
                         (convert (scalar_type i) (scalar_type ir) v))
                 ∘ (λ o, read_elem garbage (storages h2) (storage it)
                           (width (scalar_type it)) o))
                (view_offsets it) (view_offsets (resized_impl ir (sizes i))))
    by lia.
  rewrite (elementwise_spec garbage).
  - apply list_fmap_ext. intros ? q _. cbn [compose].
    unfold scalar_type. rewrite options_resized_impl. cbn [options it].
    do 2 f_equal. unfold read_elem. apply list_fmap_ext. intros ? c _.
    unfold load. subst w3. cbn [heap]. by rewrite resized_storages_other.
  - apply hazard_free_fresh; [by rewrite storage_resized_impl|done].
  - intros [q1 q2] c Hq Hcc. apply elem_of_zip_r in Hq.
    rewrite storage_resized_impl. subst w3. cbn [heap snd] in *.
    by eapply Hwin.
Qed.

Lemma complex_to_float_direct stub result self w i ir :
  tensors (heap w) !! self = Some i →
  tensors (heap w) !! result = Some ir →
  is_complex i = false ∨ is_complex ir = true →
  unary_op_impl_with_complex_to_float_out result self stub w
  = unary_op_impl_out result self stub w.
Proof.
  intros Hs Hr Hc. unfold unary_op_impl_with_complex_to_float_out.
  rewrite bind_run. reads_known.
  destruct (is_complex i) eqn:Eci.
  - destruct Hc as [Hc|Hc]; [done|].
    rewrite bind_run, bind_run. reads_known. by rewrite Hc.
  - by rewrite bind_run.
Qed.

Lemma complex_to_float_cast_refused stub result self w i ir :
  tensors (heap w) !! self = Some i →
  tensors (heap w) !! result = Some ir →
  is_complex i = true → is_complex ir = false →
  canCast (toValueType (scalar_type i)) (scalar_type ir) = false →
  fails_with InvalidCast (unary_op_impl_with_complex_to_float_out result self stub w) ∧
  (unary_op_impl_with_complex_to_float_out result self stub w).2 = w.
Proof.
  intros Hs Hr Hc Hrc Hcast. unfold unary_op_impl_with_complex_to_float_out.
  rewrite bind_run. reads_known. rewrite Hc.
  rewrite bind_run, bind_run. reads_known. rewrite Hrc. cbn [ret negb].
  rewrite bind_run. reads_known.
  rewrite bind_run. reads_known. rewrite Hcast. cbn [TORCH_CHECK].
  split; [by eexists|done].
Qed.

(** C2. abs_out and angle_out are the complex-to-real helper on their stub.
    When the input is complex and the output is not: the call fails with
    InvalidCast, changing nothing, unless the real counterpart of the input
    dtype can be cast to the dtype of the output; otherwise it runs the kernel
    into a fresh temporary with the options of the input, resizes the output
    to the shape of the temporary, copies the converted elements of the
    temporary into it and returns the output.  When the input is not complex
    or the output is complex the call is the plain into-buffer helper. *)
Theorem complex_to_real_policy stub result self w i ir :
  tensors (heap w) !! self = Some i →
  tensors (heap w) !! result = Some ir →
  abs_out result self
    = unary_op_impl_with_complex_to_float_out result self abs_stub ∧
  angle_out result self
    = unary_op_impl_with_complex_to_float_out result self angle_stub ∧
  (is_complex i = true → is_complex ir = false →
   canCast (toValueType (scalar_type i)) (scalar_type ir) = false →
     fails_with InvalidCast
       (unary_op_impl_with_complex_to_float_out result self stub w) ∧
     (unary_op_impl_with_complex_to_float_out result self stub w).2 = w) ∧
  (is_complex i = true → is_complex ir = false →
   canCast (toValueType (scalar_type i)) (scalar_type ir) = true →
   length (strides i) = length (sizes i) →
   storage i < length (storages (heap w)) →
   storage ir < length (storages (heap w)) →
   (sizes ir = sizes i → well_formed (heap w) ir) →
   registered stub (device (options i)) = true →
     policy_outcome stub w result self i ir
       (unary_op_impl_with_complex_to_float_out result self stub w)) ∧
  (is_complex i = false ∨ is_complex ir = true →
     unary_op_impl_with_complex_to_float_out result self stub w
     = unary_op_impl_out result self stub w).
Proof.
  intros Hs Hr. split; [done|]. split; [done|]. split; [|split].
  - intros. by eapply complex_to_float_cast_refused.
  - intros. by eapply complex_to_float_run.
  - intros. by eapply complex_to_float_direct.
Qed.

(** ** Checking a concrete view *)

Definition well_formedb (h : Heap) (i : TensorImpl) : bool :=
  bool_decide (length (strides i) = length (sizes i))
  && bool_decide (storage i < length (storages h))
  && bool_decide (NoDup (view_offsets i))
  && forallb
       (λ o, forallb
               (λ c, bool_decide (c < length (default [] (storages h !! storage i))))
               (cells (width (scalar_type i)) o))
       (view_offsets i).

Lemma well_formedb_sound h i : well_formedb h i = true → well_formed h i.
Proof.
  unfold well_formedb, well_formed. rewrite !andb_true_iff.
  intros [[[H1 H2] H3] H4].
  apply bool_decide_eq_true_1 in H1, H2, H3.
  split; [done|]. split; [done|]. split; [done|].
  intros o c Ho Hc.
  rewrite forallb_forall in H4. apply list_elem_of_In in Ho.
  specialize (H4 o Ho). rewrite forallb_forall in H4.
  apply list_elem_of_In in Hc. specialize (H4 c Hc).
  apply bool_decide_eq_true_1 in H4.
  destruct (storages h !! storage i) as [st|] eqn:E; simpl in H4; [|lia].
  by exists st.
Qed.

(** ** What a call adds to the trace *)

(** [m] extends the trace, and the events it adds satisfy [Q] together. *)
Definition emits (Q : list Event → Prop) {A} (m : M A) : Prop :=
  ∀ w, ∃ evs, trace (m w).2 = trace w ++ evs ∧ Q evs.

(** A property of event lists that holds of no events and of what two runs
    add one after the other. *)
Class Additive (Q : list Event → Prop) : Prop := {
  additive_nil : Q [];
  additive_app a b : Q a → Q b → Q (a ++ b)
}.

#[local] Instance Forall_Additive (P : Event → Prop) : Additive (Forall P).
Proof. split; [constructor|]. intros a b Ha Hb. by apply Forall_app. Qed.

Section Emits.
Context {Q : list Event → Prop} `{!Additive Q}.

Lemma emits_same_trace {A} (m : M A) :
  (∀ w, trace (m w).2 = trace w) → emits Q m.
Proof.
  intros H w. exists []. rewrite app_nil_r. split; [apply H|apply additive_nil].
Qed.

Lemma emits_ret {A} (a : A) : emits Q (ret a).
Proof. by apply emits_same_trace. Qed.

Lemma emits_throw {A} e : emits Q (@throw A e).
Proof. by apply emits_same_trace. Qed.

Lemma emits_bind {A B} (m : M A) (f : A → M B) :
  emits Q m → (∀ a, emits Q (f a)) → emits Q (bind m f).
Proof.
  intros Hm Hf w. unfold bind. destruct (Hm w) as (e1 & H1 & Q1).
  destruct (m w) as [[e|a] w1]; simpl in *.
  - by exists e1.
  - destruct (Hf a w1) as (e2 & H2 & Q2). exists (e1 ++ e2). split.
    + by rewrite H2, H1, app_assoc.
    + by apply additive_app.
Qed.

Lemma emits_get_impl t : emits Q (get_impl t).
Proof.
  apply emits_same_trace. intros w. unfold get_impl.
  by destruct (tensors (heap w) !! t).
Qed.

Lemma emits_TORCH_CHECK c k msg : emits Q (TORCH_CHECK c k msg).
Proof. apply emits_same_trace. intros w. by destruct c. Qed.

Lemma emits_item t : emits Q (item t).
Proof. by apply emits_same_trace. Qed.

Lemma emits_new_storage cs : emits Q (new_storage cs).
Proof. by apply emits_same_trace. Qed.

Lemma emits_new_tensor i : emits Q (new_tensor i).
Proof. by apply emits_same_trace. Qed.

Lemma emits_set_storages f : emits Q (set_storages f).
Proof. by apply emits_same_trace. Qed.

Lemma emits_set_impl t i : emits Q (set_impl t i).
Proof. by apply emits_same_trace. Qed.

Lemma emits_emit e : Q [e] → emits Q (emit e).
Proof. intros H w. by exists [e]. Qed.

Lemma emits_aten c : Q [EvAten c] → emits Q (aten c).
Proof.
  intros H w. exists [EvAten c]. unfold aten.
  by destruct (aten_oracle c (heap w)).
Qed.

End Emits.

Ltac head_of t := lazymatch t with ?f _ => head_of f | _ => t end.

(** Follow the binds and the branches down to the events; a computation
    defined in this file is looked into. *)
Ltac emits_step :=
  lazymatch goal with
  | |- emits _ (bind _ _) => apply emits_bind; [|intros ?]
  | |- emits _ (ret _) => apply emits_ret
  | |- emits _ (throw _) => apply emits_throw
  | |- emits _ (get_impl _) => apply emits_get_impl
  | |- emits _ (TORCH_CHECK _ _ _) => apply emits_TORCH_CHECK
  | |- emits _ (item _) => apply emits_item
  | |- emits _ (new_storage _) => apply emits_new_storage
  | |- emits _ (new_tensor _) => apply emits_new_tensor
  | |- emits _ (set_storages _) => apply emits_set_storages
  | |- emits _ (set_impl _ _) => apply emits_set_impl
  | |- emits _ (emit _) => apply emits_emit; solve [done | repeat constructor; done]
  | |- emits _ (aten _) => apply emits_aten; solve [done | repeat constructor; done]
  | |- emits _ (if ?b then _ else _) => destruct b
  | |- emits _ (match ?x with _ => _ end) => destruct x
  | |- emits _ ?m => let h := head_of m in unfold h
  end.

Ltac solve_emits := solve [repeat emits_step].

(** ** Which kernels a call runs *)

(** The stubs whose kernels ran, in order. *)
Definition kernels_run (evs : list Event) : list Stub :=
  omap (λ e, match e with EvKernel s _ _ _ _ => Some s | _ => None end) evs.

Definition no_kernels (evs : list Event) : Prop := kernels_run evs = [].

#[local] Instance no_kernels_Additive : Additive no_kernels.
Proof.
  split; [done|]. unfold no_kernels, kernels_run. intros a b Ha Hb.
  by rewrite omap_app, Ha, Hb.
Qed.














(** ** How the plans are configured *)

(** A plan is built with the overlap check, and with the same-dtype check
    unless [mixed]. *)
Definition plan_checked (mixed : bool) (e : Event) : Prop :=
  match e with
  | EvBuild cfg _ _ =>
      check_mem_overlap cfg = true ∧ check_all_same_dtype cfg = negb mixed
  | _ => True
  end.

Definition is_logical_not (e : EntryPoint) : bool :=
  match e with
  | Allocating op_logical_not _ | IntoBuffer op_logical_not _ _
  | InPlace op_logical_not _ => true
  | _ => false
  end.

(** X2. Every iteration plan the file builds asks for the memory-overlap
    check.  The plans of logical_not are built without the same-dtype check;
    every other plan, of every other entry point, is built with it. *)
Theorem every_plan_checks_overlap e :
  emits (Forall (plan_checked (is_logical_not e))) (run e).
Proof.
  destruct e as [o ?|o ? ?|o ?| | | | | | | | |? mn mx|? ? mn mx|? mn mx| | | | | |
                 | | | | | | | | | | | | | | |];
    try destruct o; try destruct mn; try destruct mx;
    cbn [is_logical_not run allocating into_buffer in_place];
    solve_emits.
Qed.

(** ** The arguments mvlgamma hands on *)








(** Where rounding matters the conversions are those of the Standard
    Library's specification of IEEE 754: 2^24 + 1 and 2^24 + 3 lie halfway
    between two floats, 2^53 + 1 and 2^53 + 3 halfway between two doubles,
    and 2^63 - 1 and -2^63 are the ends of [int64_t]. *)
Lemma to_float_is_binary32 :
  Forall (λ n, (SF2Q (binary_normalize 24 128 n 0 false) == inject_Z (to_float n))%Q)
    [16777217; 16777219; -16777217; 16777218; 2 ^ 63 - 1; - 2 ^ 63]%Z.
Proof. repeat constructor. Qed.

Lemma to_double_is_binary64 :
  Forall (λ n, (SF2Q (binary_normalize 53 1024 n 0 false) == inject_Z (to_double n))%Q)
    [2 ^ 53 + 1; 2 ^ 53 + 3; - 2 ^ 53 - 1; 2 ^ 63 - 1; - 2 ^ 63]%Z.
Proof. repeat constructor. Qed.

(** The two constants are the doubles 0x1.ca5dc1a63c1f8p+5 and
    0x1.1df46a2529d39p-6, which the division of the Standard Library's
    specification gives for the literals as well. *)
Lemma M_180_PI_is_binary64 :
  M_180_PI = Qmake 0x1ca5dc1a63c1f8 (2 ^ 47) ∧
  (SF2Q (SFdiv 53 1024
           (S754_finite false 57295779513082320876798154814105170332405472466564 0)
           (S754_finite false (10 ^ 48) 0)) == M_180_PI)%Q.
Proof. split; vm_compute; reflexivity. Qed.

Lemma M_PI_180_is_binary64 :
  M_PI_180 = Qmake 0x11df46a2529d39 (2 ^ 58) ∧
  (SF2Q (SFdiv 53 1024
           (S754_finite false 17453292519943295769236907684886127134428718885417 0)
           (S754_finite false (10 ^ 51) 0)) == M_PI_180)%Q.
Proof. split; vm_compute; reflexivity. Qed.



#[local] Instance any_events_Additive : Additive (λ _, True).
Proof. by split. Qed.





(** ** The one-sided clamps *)

Lemma one_sided_clamp_layout {A} self i msg1 msg2 (rest : M A) w :
  tensors (heap w) !! self = Some i → is_complex i = false →
  layout (options i) ≠ Strided →
  fails_with UnsupportedLayout
    ((let* c := Tensor_is_complex self in
      TORCH_CHECK (negb c) UnsupportedDtype msg1;;
      let* l := Tensor_layout self in
      TORCH_CHECK (bool_decide (l = Strided)) UnsupportedLayout (msg2 l);;
      rest) w).
Proof.
  intros Hs Hc Hl. rewrite bind_run. reads_known. rewrite Hc.
  cbn [negb TORCH_CHECK]. rewrite bind_run. cbn [ret].
  rewrite bind_run. reads_known.
  rewrite bool_decide_eq_false_2 by done. by eexists.
Qed.

Lemma one_sided_clamp_passes {A} self i msg1 msg2 (rest : M A) w :
  tensors (heap w) !! self = Some i → is_complex i = false →
  layout (options i) = Strided →
  (let* c := Tensor_is_complex self in
   TORCH_CHECK (negb c) UnsupportedDtype msg1;;
   let* l := Tensor_layout self in
   TORCH_CHECK (bool_decide (l = Strided)) UnsupportedLayout (msg2 l);;
   rest) w = rest w.
Proof.
  intros Hs Hc Hl. rewrite bind_run. reads_known. rewrite Hc.
  cbn [negb TORCH_CHECK]. rewrite bind_run. cbn [ret].
  rewrite bind_run. reads_known.
  rewrite bool_decide_eq_true_2 by done. reflexivity.
Qed.

(** X4. clamp_max and clamp_min, in all three call forms, fail with
    UnsupportedDtype for every complex input, whatever its layout, and with
    UnsupportedLayout for every input that is not complex and not strided;
    on a strided input that is not complex they build the plan and run
    [clamp_max_stub], respectively [clamp_min_stub], with the bound. *)
Theorem one_sided_clamps_check_dtype_then_layout w self i bound :
  tensors (heap w) !! self = Some i →
  (is_complex i = true →
     (fails_with UnsupportedDtype (clamp_max self bound w) ∧
      fails_with UnsupportedDtype (clamp_max_ self bound w) ∧
      ∀ result, fails_with UnsupportedDtype (clamp_max_out result self bound w)) ∧
     (fails_with UnsupportedDtype (clamp_min self bound w) ∧
      fails_with UnsupportedDtype (clamp_min_ self bound w) ∧
      ∀ result, fails_with UnsupportedDtype (clamp_min_out result self bound w))) ∧
  (is_complex i = false → layout (options i) ≠ Strided →
     (fails_with UnsupportedLayout (clamp_max self bound w) ∧
      fails_with UnsupportedLayout (clamp_max_ self bound w) ∧
      ∀ result, fails_with UnsupportedLayout (clamp_max_out result self bound w)) ∧
     (fails_with UnsupportedLayout (clamp_min self bound w) ∧
      fails_with UnsupportedLayout (clamp_min_ self bound w) ∧
      ∀ result, fails_with UnsupportedLayout (clamp_min_out result self bound w))) ∧
  (is_complex i = false → layout (options i) = Strided →
     ∀ result,
       clamp_max_out result self bound w
       = iterate (mkConfig true true) clamp_max_stub [ArgScalar bound] result self w ∧
       clamp_min_out result self bound w
       = iterate (mkConfig true true) clamp_min_stub [ArgScalar bound] result self w).
Proof.
  intros Hs. split; [|split].
  - intros Hc. split.
    + apply (unary_op_impl_forms_fail self i (λ r s, clamp_max_out r s bound) _ w Hs).
      intros. by eapply complex_check_fails.
    + apply (unary_op_impl_forms_fail self i (λ r s, clamp_min_out r s bound) _ w Hs).
      intros. by eapply complex_check_fails.
  - intros Hc Hl. split.
    + apply (unary_op_impl_forms_fail self i (λ r s, clamp_max_out r s bound) _ w Hs).
      intros result w' Hs'. unfold clamp_max_out.
      by apply (one_sided_clamp_layout self i _
                  (λ l, "clamp_max only supports strided layout, got: " +:+ Layout_name l)).
    + apply (unary_op_impl_forms_fail self i (λ r s, clamp_min_out r s bound) _ w Hs).
      intros result w' Hs'. unfold clamp_min_out.
      by apply (one_sided_clamp_layout self i _
                  (λ l, "clamp_min only supports strided layout, got: " +:+ Layout_name l)).
  - intros Hc Hl result. split.
    + unfold clamp_max_out.
      by rewrite (one_sided_clamp_passes self i _
                    (λ l, "clamp_max only supports strided layout, got: " +:+ Layout_name l)).
    + unfold clamp_min_out.
      by rewrite (one_sided_clamp_passes self i _
                    (λ l, "clamp_min only supports strided layout, got: " +:+ Layout_name l)).
Qed.

Lemma unary_op_impl_ext self (f g : Tensor → Tensor → M Tensor) w :
  (∀ result w', f result self w' = g result self w') →
  unary_op_impl self f w = unary_op_impl self g w.
Proof.
  intros H. unfold unary_op_impl. rewrite !bind_run.
  destruct (Tensor_options self w) as [[e|o] w1]; [done|].
  rewrite !bind_run. destruct (at_empty o w1) as [[e|r] w2]; [done|]. apply H.
Qed.

(** X5. clamp with only an upper bound is clamp_max and clamp with only a
    lower bound is clamp_min, in the allocate-and-return and in the in-place
    form as in the into-buffer form: the same result, the same failure and
    the same final state. *)
Theorem clamp_with_one_bound_is_one_sided self bound w :
  clamp self None (Some bound) w = clamp_max self bound w ∧
  clamp_ self None (Some bound) w = clamp_max_ self bound w ∧
  clamp self (Some bound) None w = clamp_min self bound w ∧
  clamp_ self (Some bound) None w = clamp_min_ self bound w.
Proof.
  split; [|split; [|split]].
  - apply (unary_op_impl_ext self (λ r s, clamp_out r s None (Some bound))
             (λ r s, clamp_max_out r s bound)).
    intros. apply clamp_out_only_max.
  - apply clamp_out_only_max.
  - apply (unary_op_impl_ext self (λ r s, clamp_out r s (Some bound) None)
             (λ r s, clamp_min_out r s bound)).
    intros. apply clamp_out_only_min.
  - apply clamp_out_only_min.
Qed.

(** ** The entry points of IMPLEMENT_UNARY_OP_VEC_CUDA *)

(** X6. The into-buffer entry point that IMPLEMENT_UNARY_OP_OUT_INPLACE
    generates for a device checks its output, not its input: an output on
    another device fails with UnsupportedDevice whatever its layout, an
    output on the device that is not strided fails with UnsupportedLayout,
    both before anything is changed; with a strided output on the device the
    entry point builds the plan and runs the kernel of the stub. *)
Theorem generated_entry_point_checks_its_output op stub d result self w ir :
  tensors (heap w) !! result = Some ir →
  (device (options ir) ≠ d →
     fails_with UnsupportedDevice (IMPLEMENT_UNARY_OP_OUT op stub d result self w) ∧
     (IMPLEMENT_UNARY_OP_OUT op stub d result self w).2 = w) ∧
  (device (options ir) = d → layout (options ir) ≠ Strided →
     fails_with UnsupportedLayout (IMPLEMENT_UNARY_OP_OUT op stub d result self w) ∧
     (IMPLEMENT_UNARY_OP_OUT op stub d result self w).2 = w) ∧
  (device (options ir) = d → layout (options ir) = Strided →
     IMPLEMENT_UNARY_OP_OUT op stub d result self w
     = iterate (mkConfig true true) stub [] result self w).
Proof.
  intros Hr. unfold IMPLEMENT_UNARY_OP_OUT, checkDeviceType, checkLayout.
  split; [|split].
  - intros Hd. rewrite !bind_run. reads_known.
    rewrite bool_decide_eq_false_2 by done. split; [by eexists|done].
  - intros Hd Hl. rewrite !bind_run. reads_known.
    rewrite bool_decide_eq_true_2 by done. cbn [TORCH_CHECK ret].
    rewrite !bind_run. reads_known.
    rewrite bool_decide_eq_false_2 by done. split; [by eexists|done].
  - intros Hd Hl. rewrite !bind_run. reads_known.
    rewrite bool_decide_eq_true_2 by done. cbn [TORCH_CHECK ret].
    rewrite !bind_run. reads_known.
    rewrite bool_decide_eq_true_2 by done. reflexivity.
Qed.

(** ** What mvlgamma accepts *)



(** ** rad2deg and deg2rad *)

(** The heap in which the tensor [t], of descriptor [it], carries the
    wrapped-number flag. *)
Definition flagged (t : Tensor) (it : TensorImpl) (h : Heap) : Heap :=
  mkHeap
    (<[t := mkImpl (options it) (sizes it) (strides it) (storage_offset it)
              (storage it) true]> (tensors h))
    (storages h).

Lemma wrapped_scalar_tensor_run scalar w t h it :
  aten_oracle (call_scalar_to_tensor scalar) (heap w) = (inr t, h) →
  tensors h !! t = Some it →
  wrapped_scalar_tensor scalar w
  = (inr t, mkWorld (flagged t it h) (trace w ++ [EvAten (call_scalar_to_tensor scalar)])).
Proof.
  intros Ho Ht. unfold wrapped_scalar_tensor.
  rewrite (bind_inr _ _ _ _ _ (aten_run _ _ _ _ Ho)).
  unfold set_wrapped_number. rewrite !bind_run.
  unfold get_impl at 1. cbn [heap]. rewrite Ht. reflexivity.
Qed.

Lemma conversion_run self i msg scalar result w t h it :
  tensors (heap w) !! self = Some i → is_complex i = false →
  aten_oracle (call_scalar_to_tensor scalar) (heap w) = (inr t, h) →
  tensors h !! t = Some it →
  (let* c := Tensor_is_complex self in
   TORCH_CHECK (negb c) UnsupportedDtype msg;;
   let* other := wrapped_scalar_tensor scalar in
   aten (call_mul_out result self other)) w
  = aten (call_mul_out result self t)
      (mkWorld (flagged t it h) (trace w ++ [EvAten (call_scalar_to_tensor scalar)])).
Proof.
  intros Hs Hc Ho Ht. rewrite bind_run. reads_known. rewrite Hc.
  cbn [negb TORCH_CHECK]. rewrite bind_run. cbn [ret].
  by rewrite (bind_inr _ _ _ _ _ (wrapped_scalar_tensor_run _ _ _ _ _ Ho Ht)).
Qed.

(** X8. rad2deg and deg2rad, in all three call forms, fail with
    UnsupportedDtype for every complex input.  On an input that is not
    complex the into-buffer form is one multiplication by an operator of
    another file: once scalar_to_tensor has returned the tensor of the
    factor (180/pi for rad2deg, pi/180 for deg2rad), mul_out is called on the
    output, the input and that tensor, which by then carries the
    wrapped-number flag; the result and the final state are those of
    mul_out. *)
Theorem degree_conversions_multiply_by_a_wrapped_scalar w self i :
  tensors (heap w) !! self = Some i →
  (is_complex i = true →
     (fails_with UnsupportedDtype (rad2deg self w) ∧
      fails_with UnsupportedDtype (rad2deg_ self w) ∧
      ∀ result, fails_with UnsupportedDtype (rad2deg_out result self w)) ∧
     (fails_with UnsupportedDtype (deg2rad self w) ∧
      fails_with UnsupportedDtype (deg2rad_ self w) ∧
      ∀ result, fails_with UnsupportedDtype (deg2rad_out result self w))) ∧
  (is_complex i = false →
     ∀ result t h it,
       tensors h !! t = Some it →
       (aten_oracle (call_scalar_to_tensor (ScalarDouble M_180_PI)) (heap w)
          = (inr t, h) →
        rad2deg_out result self w
        = aten (call_mul_out result self t)
            (mkWorld (flagged t it h)
               (trace w ++ [EvAten (call_scalar_to_tensor (ScalarDouble M_180_PI))]))) ∧
       (aten_oracle (call_scalar_to_tensor (ScalarDouble M_PI_180)) (heap w)
          = (inr t, h) →
        deg2rad_out result self w
        = aten (call_mul_out result self t)
            (mkWorld (flagged t it h)
               (trace w ++ [EvAten (call_scalar_to_tensor (ScalarDouble M_PI_180))])))).
Proof.
  intros Hs. split.
  - intros Hc. split.
    + apply (unary_op_impl_forms_fail self i rad2deg_out _ w Hs).
      intros. by eapply complex_check_fails.
    + apply (unary_op_impl_forms_fail self i deg2rad_out _ w Hs).
      intros. by eapply complex_check_fails.
  - intros Hc result t h it Ht. split; intros Ho.
    + unfold rad2deg_out. by eapply conversion_run.
    + unfold deg2rad_out. by eapply conversion_run.
Qed.

(** ** What a call returns *)

(** The tensor an entry point writes through a plan of this file: the output
    of an into-buffer form, self for an in-place form.  None for the
    allocate-and-return forms and for the forms that hand the writing to an
    operator of another file: rad2deg and deg2rad (to [at::mul_out]), square_
    (to [at::pow_out]) and mvlgamma_ (to [copy_] of what operators of other
    files have computed). *)
Definition output_of (e : EntryPoint) : option Tensor :=
  match e with
  | IntoBuffer o result _ =>
      match o with op_rad2deg | op_deg2rad => None | _ => Some result end
  | InPlace o self =>
      match o with op_rad2deg | op_deg2rad => None | _ => Some self end
  | AngleOut result _ | ConjOut result _ | ClampOut result _ _ _
  | ClampMaxOut result _ _ | ClampMinOut result _ _ | PolygammaOut result _ _
  | ErfinvOutCpu result _ | ErfinvOutCuda result _
  | LgammaOutCpu result _ | LgammaOutCuda result _ => Some result
  | Clamp_ self _ _ | ClampMax_ self _ | ClampMin_ self _ | Polygamma_ self _
  | Erfinv_Cpu self | Erfinv_Cuda self | Lgamma_Cpu self | Lgamma_Cuda self =>
      Some self
  | _ => None
  end.

(** mvlgamma_ also returns self, after the operators of other files. *)
Definition returned_argument (e : EntryPoint) : option Tensor :=
  match e with
  | Mvlgamma_ self _ => Some self
  | _ => output_of e
  end.

Ltac returns_step :=
  lazymatch goal with
  | |- returns _ (bind _ _) => apply returns_bind; intros ?
  | |- returns _ (ret _) => apply returns_ret
  | |- returns _ (throw _) => apply returns_throw
  | |- returns _ (if ?b then _ else _) => destruct b
  | |- returns _ (match ?x with _ => _ end) => destruct x
  | |- returns _ ?m => let h := head_of m in unfold h
  end.

(** X10. Whenever it succeeds, an into-buffer form returns the output it was
    given and an in-place form returns self (rad2deg, deg2rad and square_
    return what the operator of the other file returns); so does
    mvlgamma_. *)
Theorem calls_return_their_output e :
  match returned_argument e with
  | Some r => returns r (run e)
  | None => True
  end.
Proof.
  destruct e as [o ?|o ? ?|o ?| | | | | | | | |? mn mx|? ? mn mx|? mn mx| | | | | |
                 | | | | | | | | | | | | | | |];
    try destruct o; try destruct mn; try destruct mx;
    cbn [returned_argument output_of run allocating into_buffer in_place];
    try exact I; solve [repeat returns_step].
Qed.


(** ** What a call leaves alone *)

Section Frame.
Variables (h0 : Heap) (out : Tensor) (i0 : TensorImpl).
Hypothesis Hout : tensors h0 !! out = Some i0.

(** [h] comes from [h0] by allocations and by writes through [out] and
    through the tensors allocated since: every other tensor of [h0] has its
    descriptor, every storage of [h0] but the one of [out] its contents, and
    [out] still views its storage, with its options; the tensors allocated
    since view storages allocated since. *)
Definition reached (h : Heap) : Prop :=
  length (tensors h0) ≤ length (tensors h) ∧
  length (storages h0) ≤ length (storages h) ∧
  (∀ t, t < length (tensors h0) → t ≠ out → tensors h !! t = tensors h0 !! t) ∧
  (∀ s, s < length (storages h0) → s ≠ storage i0 →
        storages h !! s = storages h0 !! s) ∧
  (∃ i, tensors h !! out = Some i ∧ storage i = storage i0 ∧ options i = options i0) ∧
  (∀ t i, length (tensors h0) ≤ t → tensors h !! t = Some i →
          length (storages h0) ≤ storage i).

Definition writable (t : Tensor) : Prop := t = out ∨ length (tensors h0) ≤ t.

(** [m] stays within [reached], and what it returns satisfies [Φ]. *)
Definition keeps {A} (Φ : A → Prop) (m : M A) : Prop :=
  ∀ w, reached (heap w) →
    reached (heap (m w).2) ∧ match (m w).1 with inr a => Φ a | inl _ => True end.

Lemma out_defined : out < length (tensors h0).
Proof. by eapply lookup_lt_Some. Qed.

Lemma reached_refl : reached h0.
Proof.
  split; [done|]. split; [done|]. split; [done|]. split; [done|].
  split; [by exists i0|].
  intros t i Ht Hi. apply lookup_lt_Some in Hi. lia.
Qed.

Lemma writable_storage h t i :
  reached h → writable t → tensors h !! t = Some i →
  storage i = storage i0 ∨ length (storages h0) ≤ storage i.
Proof.
  intros (_ & _ & _ & _ & (io & Hio & Hs & _) & N) [->|Ht] Hi.
  - left. congruence.
  - right. by eapply N.
Qed.

Lemma reached_set_impl h t i i' :
  reached h → writable t → tensors h !! t = Some i →
  storage i' = storage i → options i' = options i →
  reached (mkHeap (<[t := i']> (tensors h)) (storages h)).
Proof.
  intros Hr Hw Hi Hs Ho.
  pose proof (writable_storage h t i Hr Hw Hi) as Hst.
  destruct Hr as (L1 & L2 & T & S & (io & Hio & Hso & Hoo) & N).
  pose proof out_defined as Hlt.
  assert (t < length (tensors h)) as Hlen by (by eapply lookup_lt_Some).
  unfold reached. cbn [tensors storages].
  split; [by rewrite length_insert|]. split; [done|].
  split; [|split; [done|split]].
  - intros t' Ht' Hne. destruct Hw as [->|Hw].
    + rewrite list_lookup_insert_ne by done. by apply T.
    + rewrite list_lookup_insert_ne by lia. by apply T.
  - destruct Hw as [->|Hw].
    + exists i'. rewrite list_lookup_insert_eq by done.
      split; [done|]. split; congruence.
    + exists io. rewrite list_lookup_insert_ne by lia. done.
  - intros t' i1 Ht' Hi1. destruct (decide (t' = t)) as [->|Hne].
    + rewrite list_lookup_insert_eq in Hi1 by done. injection Hi1 as <-.
      rewrite Hs. destruct Hst as [Hst|Hst]; [|done].
      destruct Hw as [->|Hw]; [lia|]. by eapply N.
    + rewrite list_lookup_insert_ne in Hi1 by done. by eapply N.
Qed.

Lemma reached_set_storages h s (f : list (list Val) → list (list Val)) :
  reached h → storage i0 = s ∨ length (storages h0) ≤ s →
  (∀ s', s ≠ s' → f (storages h) !! s' = storages h !! s') →
  length (f (storages h)) = length (storages h) →
  reached (mkHeap (tensors h) (f (storages h))).
Proof.
  intros (L1 & L2 & T & S & E & N) Hs Hf Hl.
  unfold reached. cbn [tensors storages].
  split; [done|]. split; [lia|]. split; [done|]. split; [|done].
  intros s' Hs' Hne. rewrite Hf; [by apply S|].
  destruct Hs as [<-|Hs]; [done|lia].
Qed.

Lemma reached_resized h t i sz :
  reached h → writable t → tensors h !! t = Some i → reached (resized t i sz h).
Proof.
  intros Hr Hw Hi. unfold resized. destruct (decide (sizes i = sz)); [done|].
  pose proof (writable_storage h t i Hr Hw Hi) as Hst.
  apply (reached_set_storages
           (mkHeap (<[t := mkImpl (options i) sz (contiguous_strides sz)
                            (storage_offset i) (storage i) (is_wrapped_number i)]>
                      (tensors h)) (storages h))
           (storage i)).
  - by eapply reached_set_impl.
  - destruct Hst as [Hst|Hst]; [by left|by right].
  - intros s' Hne. cbn [storages]. by rewrite list_lookup_alter_ne.
  - cbn [storages]. by rewrite length_alter.
Qed.

Lemma keeps_same_heap {A} (m : M A) :
  (∀ w, heap (m w).2 = heap w) → keeps (λ _, True) m.
Proof. intros H w Hr. rewrite H. split; [done|]. by destruct (m w).1. Qed.

Lemma keeps_ret {A} (a : A) : keeps (λ _, True) (ret a).
Proof. by apply keeps_same_heap. Qed.

Lemma keeps_throw {A} e : keeps (λ _ : A, True) (throw e).
Proof. by apply keeps_same_heap. Qed.

Lemma keeps_get_impl t : keeps (λ _, True) (get_impl t).
Proof.
  apply keeps_same_heap. intros w. unfold get_impl.
  by destruct (tensors (heap w) !! t).
Qed.

Lemma keeps_TORCH_CHECK c k msg : keeps (λ _, True) (TORCH_CHECK c k msg).
Proof. apply keeps_same_heap. intros w. by destruct c. Qed.

Lemma keeps_bind {A B} (Φ : A → Prop) (Ψ : B → Prop) (m : M A) (f : A → M B) :
  keeps Φ m → (∀ a, Φ a → keeps Ψ (f a)) → keeps Ψ (bind m f).
Proof.
  intros Hm Hf w Hr. unfold bind. destruct (Hm w Hr) as [Hr1 Hphi].
  destruct (m w) as [[e|a] w1]; simpl in *; [done|]. by apply Hf.
Qed.

Lemma keeps_then {A B} (Ψ : B → Prop) (m : M A) (f : A → M B) :
  keeps (λ _, True) m → (∀ a, keeps Ψ (f a)) → keeps Ψ (bind m f).
Proof. intros Hm Hf. apply (keeps_bind (λ _, True)); [done|]. intros a _. apply Hf. Qed.

Lemma keeps_at_empty o : keeps (λ a, length (tensors h0) ≤ a) (at_empty o).
Proof.
  intros w (L1 & L2 & T & S & (io & Hio & Hso & Hoo) & N).
  rewrite at_empty_run. cbn [fst snd]. split; [|done].
  pose proof out_defined as Hlt.
  cbn [allocated heap tensors storages]. unfold reached. cbn [tensors storages].
  split; [rewrite length_app; lia|]. split; [rewrite length_app; lia|].
  split; [|split; [|split]].
  - intros t Ht Hne. rewrite lookup_app_l by lia. by apply T.
  - intros s Hs Hne. rewrite lookup_app_l by lia. by apply S.
  - exists io. rewrite lookup_app_l by lia. done.
  - intros t i Ht Hi.
    destruct (decide (t < length (tensors (heap w)))) as [Hl|Hl].
    + rewrite lookup_app_l in Hi by done. by eapply N.
    + rewrite lookup_app_r in Hi by lia.
      destruct (t - length (tensors (heap w))) as [|k]; [|by destruct k].
      injection Hi as <-. unfold placeholder. cbn [storage]. lia.
Qed.

Lemma keeps_resize t sz : writable t → keeps (λ _, True) (resize_ t sz).
Proof.
  intros Hw w Hr. destruct (tensors (heap w) !! t) as [i|] eqn:Hi.
  - rewrite (resize_run w t i sz Hi). cbn [fst snd heap]. split; [|done].
    by apply reached_resized.
  - unfold resize_, bind, get_impl. rewrite Hi. by cbv beta iota.
Qed.

Lemma keeps_build cfg t inp :
  writable t → keeps (λ it, it_out it = t) (build cfg t inp).
Proof.
  intros Hw w Hr. unfold build, bind, get_impl.
  destruct (tensors (heap w) !! t) as [o|] eqn:Ho; [|by cbv beta iota].
  destruct (tensors (heap w) !! inp) as [i|] eqn:Hi; [|by cbv beta iota].
  cbv beta iota.
  destruct (check_all_same_dtype cfg && negb (bool_decide (scalar_type o = scalar_type i)));
    [done|].
  destruct (check_mem_overlap cfg && partial_overlap t inp o i); [done|].
  destruct (unallocated o).
  - rewrite (resize_run _ _ _ _ Ho). unfold emit, ret. cbn [fst snd heap].
    split; [|done]. by apply reached_resized.
  - destruct (broadcast (sizes i) (sizes o)) as [sh|]; [|done].
    destruct (decide (sh = sizes o)); [|done].
    unfold emit, ret. cbn [fst snd heap]. done.
Qed.

Lemma keeps_call_stub s d it args :
  writable (it_out it) → keeps (λ _, True) (call_stub s d it args).
Proof.
  intros Hw w Hr. unfold call_stub. destruct (registered s d); [|done].
  unfold bind, get_impl.
  destruct (tensors (heap w) !! it_out it) as [o|] eqn:Ho; [|by cbv beta iota].
  destruct (tensors (heap w) !! it_in it) as [i|] eqn:Hi; [|by cbv beta iota].
  unfold emit, set_storages. cbn [fst snd heap tensors storages].
  split; [|done].
  pose proof (writable_storage _ _ _ Hr Hw Ho) as Hst.
  apply (reached_set_storages (heap w) (storage o)
           (λ m, elementwise _ _ _ _ _ _ _ m)).
  - done.
  - destruct Hst as [Hst|Hst]; [by left|by right].
  - intros s' Hne. by apply elementwise_lookup_other.
  - apply length_elementwise.
Qed.

Lemma keeps_copy dst src : writable dst → keeps (λ _, True) (copy_ dst src).
Proof.
  intros Hw w Hr. unfold copy_, bind, get_impl.
  destruct (tensors (heap w) !! dst) as [d|] eqn:Hd; [|by cbv beta iota].
  destruct (tensors (heap w) !! src) as [s|] eqn:Hs; [|by cbv beta iota].
  cbv beta iota.
  destruct (broadcast (sizes s) (sizes d)) as [sh|]; [|done].
  destruct (decide (sh = sizes d)); [|done].
  unfold emit, set_storages. cbn [fst snd heap tensors storages].
  split; [|done].
  pose proof (writable_storage _ _ _ Hr Hw Hd) as Hst.
  apply (reached_set_storages (heap w) (storage d)
           (λ m, elementwise _ _ _ _ _ _ _ m)).
  - done.
  - destruct Hst as [Hst|Hst]; [by left|by right].
  - intros s' Hne. by apply elementwise_lookup_other.
  - apply length_elementwise.
Qed.

End Frame.


Ltac writable_tac :=
  unfold writable;
  repeat match goal with H : it_out _ = _ |- _ => rewrite H; clear H end;
  first [ left; reflexivity | right; assumption ].

Ltac keeps_side := first [ assumption | writable_tac ].

(** Follow a computation that writes through the output, and through what it
    allocates itself. *)
Ltac keeps_step :=
  lazymatch goal with
  | |- keeps _ _ _ _ (bind (at_empty _) _) =>
      let H := fresh in
      eapply keeps_bind;
      [eapply keeps_at_empty; keeps_side | intros ? H; cbv beta in H]
  | |- keeps _ _ _ _ (bind (build _ _ _) _) =>
      let H := fresh in
      eapply keeps_bind;
      [eapply keeps_build; keeps_side | intros ? H; cbv beta in H]
  | |- keeps _ _ _ _ (bind (unary_op _ _ _) _) => unfold unary_op
  | |- keeps _ _ _ _ (bind _ _) => apply keeps_then; [|intros ?]
  | |- keeps _ _ _ _ (ret _) => apply keeps_ret
  | |- keeps _ _ _ _ (throw _) => apply keeps_throw
  | |- keeps _ _ _ _ (get_impl _) => apply keeps_get_impl
  | |- keeps _ _ _ _ (TORCH_CHECK _ _ _) => apply keeps_TORCH_CHECK
  | |- keeps _ _ _ _ (resize_ _ _) => apply keeps_resize; keeps_side
  | |- keeps _ _ _ _ (copy_ _ _) => apply keeps_copy; keeps_side
  | |- keeps _ _ _ _ (call_stub _ _ _ _) => apply keeps_call_stub; keeps_side
  | |- keeps _ _ _ _ (if ?b then _ else _) => destruct b
  | |- keeps _ _ _ _ (match ?x with _ => _ end) => destruct x
  | |- keeps _ _ _ _ ?m => let h := head_of m in unfold h
  end.

Ltac solve_keeps := solve [repeat keeps_step].

Lemma keeps_run h0 out i0 e :
  tensors h0 !! out = Some i0 → output_of e = Some out →
  keeps h0 out i0 (λ _, True) (run e).
Proof.
  intros Hout He.
  destruct e as [o ?|o ? ?|o ?| | | | | | | | |? mn mx|? ? mn mx|? mn mx| | | | | |
                 | | | | | | | | | | | | | | |];
    try destruct o; try discriminate He; injection He as ->;
    try destruct mn; try destruct mx;
    cbn [run into_buffer in_place]; solve_keeps.
Qed.

(** X11. An into-buffer form writes only its output and an in-place form only
    self: whether the call succeeds or fails, every other tensor that existed
    keeps its descriptor, every storage that existed keeps its contents but
    the storage of the output, and the output still views the same storage
    with the same options (dtype, layout and device).  This is for the forms
    that write through a plan of this file: all but rad2deg, deg2rad, square_
    and mvlgamma_, which hand the writing to operators of other files. *)
Theorem calls_write_only_their_output e w out i0 :
  output_of e = Some out →
  tensors (heap w) !! out = Some i0 →
  (∀ t, t < length (tensors (heap w)) → t ≠ out →
        tensors (heap (run e w).2) !! t = tensors (heap w) !! t) ∧
  (∀ s, s < length (storages (heap w)) → s ≠ storage i0 →
        storages (heap (run e w).2) !! s = storages (heap w) !! s) ∧
  (∃ i, tensors (heap (run e w).2) !! out = Some i ∧
        storage i = storage i0 ∧ options i = options i0).
Proof.
  intros He Hout.
  destruct (keeps_run (heap w) out i0 e Hout He w (reached_refl _ _ _ Hout))
    as [(L1 & L2 & T & S & E & N) _].
  done.
Qed.

(** ** What the allocate-and-return forms leave alone *)

Lemma prefix_from_lookups {X} (l l' : list X) :
  length l ≤ length l' → (∀ k, k < length l → l' !! k = l !! k) →
  ∃ ts, l' = l ++ ts.
Proof.
  intros Hl H. exists (drop (length l) l'). apply list_eq. intros k.
  destruct (decide (k < length l)) as [Hk|Hk].
  - rewrite lookup_app_l by done. by apply H.
  - rewrite lookup_app_r by lia. rewrite lookup_drop. f_equal. lia.
Qed.

(** [h'] is [h] with more tensors and more storages. *)
Definition extends (h h' : Heap) : Prop :=
  (∃ ts, tensors h' = tensors h ++ ts) ∧ (∃ ss, storages h' = storages h ++ ss).

Lemma extends_trans h1 h2 h3 : extends h1 h2 → extends h2 h3 → extends h1 h3.
Proof.
  intros [[ts Ht] [ss Hs]] [[ts' Ht'] [ss' Hs']]. split.
  - exists (ts ++ ts'). by rewrite Ht', Ht, app_assoc.
  - exists (ss ++ ss'). by rewrite Hs', Hs, app_assoc.
Qed.

(** [m] changes nothing that exists, and returns a tensor it allocated. *)
Definition allocs_only (m : M Tensor) : Prop :=
  ∀ w, extends (heap w) (heap (m w).2) ∧
       match (m w).1 with
       | inr t => length (tensors (heap w)) ≤ t < length (tensors (heap (m w).2))
       | inl _ => True
       end.

Lemma allocs_only_throw e : allocs_only (throw e).
Proof.
  intros w. split; [|done]. split; exists []; by rewrite app_nil_r.
Qed.

Lemma allocs_only_bind_quiet {A} (m : M A) (f : A → M Tensor) :
  always_quiet m → (∀ a, allocs_only (f a)) → allocs_only (bind m f).
Proof.
  intros Hm Hf w. unfold bind. destruct (Hm w) as (Ht & Hs & _).
  destruct (m w) as [[e|a] w1]; cbn [fst snd] in *; [by split|].
  destruct (Hf a w1) as [Hext Hret]. split.
  - by apply (extends_trans _ (heap w1)).
  - destruct (f a w1).1 as [|t]; [done|].
    destruct Ht as [ts Ht]. rewrite Ht, length_app in Hret. lia.
Qed.

Lemma allocs_only_alloc o (f : Tensor → M Tensor) :
  (∀ h0 r i0, tensors h0 !! r = Some i0 → keeps h0 r i0 (λ _, True) (f r)) →
  (∀ r, returns r (f r)) →
  allocs_only (bind (at_empty o) f).
Proof.
  intros Hk Hret w. rewrite bind_run, at_empty_run.
  pose proof (allocated_lookup_new o w) as Hnew.
  destruct (Hk _ _ _ Hnew (allocated o w) (reached_refl _ _ _ Hnew))
    as [(L1 & L2 & T & S & _ & _) _].
  specialize (Hret (length (tensors (heap w))) (allocated o w)).
  cbn [allocated heap tensors storages placeholder storage] in *.
  rewrite length_app in *. cbn [length] in *.
  split; [split|].
  - apply prefix_from_lookups; [lia|]. intros k Hk'.
    rewrite T by lia. by rewrite lookup_app_l.
  - apply prefix_from_lookups; [lia|]. intros k Hk'.
    rewrite S by lia. by rewrite lookup_app_l.
  - destruct (f _ _).1 as [|t]; [done|]. subst t. lia.
Qed.

Ltac alloc_step :=
  lazymatch goal with
  | |- allocs_only (bind (at_empty _) _) =>
      apply allocs_only_alloc;
      [ intros ? ? ? ?; cbv beta; solve_keeps
      | intros ?; solve [repeat returns_step] ]
  | |- allocs_only (bind _ _) => apply allocs_only_bind_quiet; [solve_quiet|intros ?]
  | |- allocs_only (throw _) => apply allocs_only_throw
  | |- allocs_only (if ?b then _ else _) => destruct b
  | |- allocs_only (match ?x with _ => _ end) => destruct x
  | |- allocs_only ?m => let h := head_of m in unfold h
  end.

(** The allocate-and-return forms that compute with a kernel of this file. *)
Definition allocates (e : EntryPoint) : bool :=
  match e with
  | Allocating o _ => match o with op_rad2deg | op_deg2rad => false | _ => true end
  | Angle _ | Conj _ | Clamp _ _ _ | ClampMax _ _ | ClampMin _ _
  | Polygamma _ _ | Erfinv _ | Lgamma _ => true
  | _ => false
  end.

(** X12. An allocate-and-return form changes nothing that existed before the
    call, whether it succeeds or fails: the tensors and the storages of the
    final state are those of the initial state followed by new ones, so the
    input is as it was; and the tensor it returns is one of the new ones. *)
Theorem allocating_forms_leave_their_input_alone e w :
  allocates e = true →
  (∃ ts, tensors (heap (run e w).2) = tensors (heap w) ++ ts) ∧
  (∃ ss, storages (heap (run e w).2) = storages (heap w) ++ ss) ∧
  (∀ t, (run e w).1 = inr t →
        length (tensors (heap w)) ≤ t < length (tensors (heap (run e w).2))).
Proof.
  intros He.
  assert (allocs_only (run e)) as H.
  { destruct e as [o ?|o ? ?|o ?| | | | | | | | |? mn mx|? ? mn mx|? mn mx| | | | | |
                   | | | | | | | | | | | | | | |];
      try destruct o; try discriminate He; clear He;
      try destruct mn; try destruct mx;
      cbn [run allocating]; solve [repeat alloc_step]. }
  destruct (H w) as [[Ht Hs] Hr]. split; [done|]. split; [done|].
  intros t Hrun. by rewrite Hrun in Hr.
Qed.


(** ** What the typical operators compute *)

(** The successful run of [unary_op_impl] on [unary_op_impl_out]. *)
Lemma unary_op_impl_fresh stub self w i :
  tensors (heap w) !! self = Some i →
  length (strides i) = length (sizes i) →
  storage i < length (storages (heap w)) →
  registered stub (device (options i)) = true →
  let result := length (tensors (heap w)) in
  let ir := mkImpl (options i) (sizes i) (contiguous_strides (sizes i)) 0
              (length (storages (heap w))) false in
  ∃ cs,
    unary_op_impl self (λ result self, unary_op_impl_out result self stub) w
    = (inr result,
       mkWorld (mkHeap (tensors (heap w) ++ [ir]) (storages (heap w) ++ [cs]))
         (trace w ++ [EvEmpty result (options i); EvResize result (sizes i);
                      EvBuild (mkConfig true true) result self;
                      EvKernel stub (device (options i)) result self []])) ∧
    tensor_elements (mkHeap (tensors (heap w) ++ [ir]) (storages (heap w) ++ [cs])) ir
    = element_result stub [] (scalar_type i) (scalar_type i)
        <$> tensor_elements (heap w) i.
Proof.
  intros Hs Hl Hst Hr result ir.
  rewrite (unary_op_impl_run self _ w i Hs).
  pose proof (iterate_fresh (mkConfig true true) stub [] self w i (options i)
                Hs Hl Hst (λ _, eq_refl)) as H.
  cbv zeta in H. by rewrite Hr in H.
Qed.

(** X13. The allocate-and-return form of a typical operator ([unary_op_impl]
    on [unary_op_impl_out] and the stub of the operator, as acos, exp, sqrt
    and the like are defined).  When a kernel is registered for the device of
    the input, the call returns a new contiguous tensor with the options and
    the shape of the input, in a storage of its own, whose elements are the
    results of the kernel on the elements of the input, in order; it adds
    nothing else to the heap, so the input still reads as before; the events
    are the allocation, the resize, the plan and the kernel.  When none is
    registered the call fails in the dispatch. *)
Theorem unary_op_impl_computes_each_element stub self w i :
  tensors (heap w) !! self = Some i →
  length (strides i) = length (sizes i) →
  storage i < length (storages (heap w)) →
  let result := length (tensors (heap w)) in
  let ir := mkImpl (options i) (sizes i) (contiguous_strides (sizes i)) 0
              (length (storages (heap w))) false in
  if registered stub (device (options i)) then
    ∃ cs,
      let h' := mkHeap (tensors (heap w) ++ [ir]) (storages (heap w) ++ [cs]) in
      unary_op_impl self (λ result self, unary_op_impl_out result self stub) w
      = (inr result,
         mkWorld h'
           (trace w ++ [EvEmpty result (options i); EvResize result (sizes i);
                        EvBuild (mkConfig true true) result self;
                        EvKernel stub (device (options i)) result self []])) ∧
      tensor_elements h' ir
      = element_result stub [] (scalar_type i) (scalar_type i)
          <$> tensor_elements (heap w) i ∧
      tensor_elements h' i = tensor_elements (heap w) i
  else
    ∃ w',
      unary_op_impl self (λ result self, unary_op_impl_out result self stub) w
      = (inl (DispatchFailure stub (device (options i))), w').
Proof.
  intros Hs Hl Hst result ir.
  destruct (registered stub (device (options i))) eqn:Hr.
  - destruct (unary_op_impl_fresh stub self w i Hs Hl Hst Hr) as (cs & Hrun & Hel).
    exists cs. cbv zeta. split; [exact Hrun|]. split; [exact Hel|].
    unfold tensor_elements. cbn [storages].
    apply list_fmap_ext. intros k o _. by apply read_elem_app_l.
  - rewrite (unary_op_impl_run self _ w i Hs).
    pose proof (iterate_fresh (mkConfig true true) stub [] self w i (options i)
                  Hs Hl Hst (λ _, eq_refl)) as H.
    cbv zeta in H. by rewrite Hr in H.
Qed.

(** X14. The in-place form of a typical operator ([unary_op_impl_] on
    [unary_op_impl_out] and the stub of the operator) on a well-formed
    tensor.  When a kernel is registered for the device, the call returns
    self, changes no descriptor, and replaces every element of self by the
    result of the kernel on it; when none is registered it fails in the
    dispatch. *)
Theorem unary_op_impl__replaces_each_element stub self w i :
  tensors (heap w) !! self = Some i →
  well_formed (heap w) i →
  if registered stub (device (options i)) then
    ∃ w',
      unary_op_impl_ self (λ result self, unary_op_impl_out result self stub) w
      = (inr self, w') ∧
      tensors (heap w') = tensors (heap w) ∧
      tensor_elements (heap w') i
      = element_result stub [] (scalar_type i) (scalar_type i)
          <$> tensor_elements (heap w) i
  else
    ∃ w',
      unary_op_impl_ self (λ result self, unary_op_impl_out result self stub) w
      = (inl (DispatchFailure stub (device (options i))), w').
Proof.
  intros Hs Hwf.
  exact (iterate_in_place (mkConfig true true) stub [] self w i Hs Hwf).
Qed.


(** ** The operators with a domain check, on their domain *)

Lemma complex_check_passes {A} self i msg (rest : M A) w :
  tensors (heap w) !! self = Some i → is_complex i = false →
  (let* c := Tensor_is_complex self in
   TORCH_CHECK (negb c) UnsupportedDtype msg;; rest) w = rest w.
Proof.
  intros Hs Hc. rewrite bind_run. reads_known. rewrite Hc.
  cbn [negb TORCH_CHECK]. rewrite bind_run. reflexivity.
Qed.

Lemma neg_out_passes result self i w :
  tensors (heap w) !! self = Some i → scalar_type i ≠ Bool →
  neg_out result self w = unary_op_impl_out result self neg_stub w.
Proof.
  intros Hs Hb. unfold neg_out. rewrite bind_run. reads_known.
  rewrite bool_decide_eq_false_2 by done.
  cbn [negb TORCH_CHECK]. rewrite bind_run. reflexivity.
Qed.

Lemma unary_op_impl_on self i (f g : Tensor → Tensor → M Tensor) w :
  tensors (heap w) !! self = Some i →
  (∀ result w', tensors (heap w') !! self = Some i →
     f result self w' = g result self w') →
  unary_op_impl self f w = unary_op_impl self g w.
Proof.
  intros Hs H. rewrite !(unary_op_impl_run self _ w i Hs).
  rewrite !(bind_inr _ _ _ _ _ (at_empty_run _ _)).
  apply H. by apply allocated_lookup.
Qed.

(** X15. On an input that is not complex, ceil, floor and trunc are typical
    operators: each of their three call forms is the helper on
    [unary_op_impl_out] and the stub of the operator, with the same result
    and the same final state.  So is neg on an input that is not boolean. *)
Theorem checked_operators_are_typical_on_their_domain w self i :
  tensors (heap w) !! self = Some i →
  (is_complex i = false →
     (ceil self w = unary_op_impl self (λ r s, unary_op_impl_out r s ceil_stub) w ∧
      ceil_ self w = unary_op_impl_ self (λ r s, unary_op_impl_out r s ceil_stub) w ∧
      ∀ result, ceil_out result self w = unary_op_impl_out result self ceil_stub w) ∧
     (floor self w = unary_op_impl self (λ r s, unary_op_impl_out r s floor_stub) w ∧
      floor_ self w = unary_op_impl_ self (λ r s, unary_op_impl_out r s floor_stub) w ∧
      ∀ result, floor_out result self w = unary_op_impl_out result self floor_stub w) ∧
     (trunc self w = unary_op_impl self (λ r s, unary_op_impl_out r s trunc_stub) w ∧
      trunc_ self w = unary_op_impl_ self (λ r s, unary_op_impl_out r s trunc_stub) w ∧
      ∀ result, trunc_out result self w = unary_op_impl_out result self trunc_stub w)) ∧
  (scalar_type i ≠ Bool →
     neg self w = unary_op_impl self (λ r s, unary_op_impl_out r s neg_stub) w ∧
     neg_ self w = unary_op_impl_ self (λ r s, unary_op_impl_out r s neg_stub) w ∧
     ∀ result, neg_out result self w = unary_op_impl_out result self neg_stub w).
Proof.
  intros Hs. split.
  - intros Hc.
    repeat split; try intros result;
      try (by eapply complex_check_passes);
      (apply (unary_op_impl_on self i); [done|]; intros r w' Hs';
       by eapply complex_check_passes).
  - intros Hb. split; [|split].
    + apply (unary_op_impl_on self i); [done|]. intros r w' Hs'.
      by eapply neg_out_passes.
    + by eapply neg_out_passes.
    + intros result. by eapply neg_out_passes.
Qed.

(** ** erfinv and lgamma on the CPU *)

Lemma generated_entry_point_passes op stub d result self w ir :
  tensors (heap w) !! result = Some ir →
  device (options ir) = d → layout (options ir) = Strided →
  IMPLEMENT_UNARY_OP_OUT op stub d result self w
  = unary_op_impl_out result self stub w.
Proof.
  intros Hr Hd Hl. unfold IMPLEMENT_UNARY_OP_OUT, checkDeviceType, checkLayout.
  rewrite !bind_run. reads_known.
  rewrite bool_decide_eq_true_2 by done. cbn [TORCH_CHECK ret].
  rewrite !bind_run. reads_known.
  rewrite bool_decide_eq_true_2 by done. reflexivity.
Qed.

Lemma dispatch_out_cpu (cpu cuda : Tensor → Tensor → M Tensor) result self w ir i :
  tensors (heap w) !! result = Some ir → tensors (heap w) !! self = Some i →
  device (options ir) = CPU → device (options i) = CPU →
  dispatch_out cpu cuda result self w = cpu result self w.
Proof.
  intros Hr Hs Hdr Hds. unfold dispatch_out. rewrite !bind_run. reads_known.
  rewrite bind_run. reads_known. by rewrite Hdr, Hds.
Qed.

Lemma vectorised_out_cpu op stub result self w ir i :
  tensors (heap w) !! result = Some ir → tensors (heap w) !! self = Some i →
  options ir = options i →
  device (options i) = CPU → layout (options i) = Strided →
  dispatch_out (IMPLEMENT_UNARY_OP_OUT op stub CPU) (IMPLEMENT_UNARY_OP_OUT op stub CUDA)
    result self w
  = unary_op_impl_out result self stub w.
Proof.
  intros Hr Hs Ho Hd Hl.
  rewrite (dispatch_out_cpu _ _ result self w ir i) by (rewrite ?Ho; done).
  apply (generated_entry_point_passes op stub CPU result self w ir);
    rewrite ?Ho; done.
Qed.

Lemma vectorised_core_cpu op stub self w i :
  tensors (heap w) !! self = Some i →
  device (options i) = CPU → layout (options i) = Strided →
  (let* o := Tensor_options self in
   let* result := at_empty o in
   dispatch_out (IMPLEMENT_UNARY_OP_OUT op stub CPU) (IMPLEMENT_UNARY_OP_OUT op stub CUDA)
     result self;;
   ret result) w
  = unary_op_impl self (λ r s, unary_op_impl_out r s stub) w.
Proof.
  intros Hs Hd Hl. rewrite (unary_op_impl_run self _ w i Hs).
  rewrite bind_run. reads_known.
  rewrite !(bind_inr _ _ _ _ _ (at_empty_run _ _)).
  rewrite then_ret
    by (apply returns_dispatch_out; intros; apply returns_IMPLEMENT_UNARY_OP_OUT).
  apply (vectorised_out_cpu op stub _ self _ (placeholder (options i) w) i);
    try done.
  - apply allocated_lookup_new.
  - by apply allocated_lookup.
Qed.

(** X16. erfinv and lgamma are typical operators on the CPU.  The
    into-buffer entry point of the CPU that IMPLEMENT_UNARY_OP_OUT_INPLACE
    generates, into any strided output on the CPU, passes its device and
    layout checks and is [unary_op_impl_out] on [erfinv_stub] and
    [lgamma_stub].  On a strided input on the CPU, the allocate-and-return
    form that IMPLEMENT_UNARY_OP_CORE generates and the in-place form are the
    helpers on [unary_op_impl_out] and the stub.  Each time the result and
    the final state are the same. *)
Theorem erfinv_and_lgamma_are_typical_on_the_cpu w self i :
  tensors (heap w) !! self = Some i →
  (∀ result ir,
     tensors (heap w) !! result = Some ir →
     device (options ir) = CPU → layout (options ir) = Strided →
     _erfinv_out_cpu result self w = unary_op_impl_out result self erfinv_stub w ∧
     _lgamma_out_cpu result self w = unary_op_impl_out result self lgamma_stub w) ∧
  (device (options i) = CPU → layout (options i) = Strided →
     (erfinv self w = unary_op_impl self (λ r s, unary_op_impl_out r s erfinv_stub) w ∧
      _erfinv__cpu self w
      = unary_op_impl_ self (λ r s, unary_op_impl_out r s erfinv_stub) w) ∧
     (lgamma self w = unary_op_impl self (λ r s, unary_op_impl_out r s lgamma_stub) w ∧
      _lgamma__cpu self w
      = unary_op_impl_ self (λ r s, unary_op_impl_out r s lgamma_stub) w)).
Proof.
  intros Hs. split.
  - intros result ir Hr Hd Hl. split.
    + by apply (generated_entry_point_passes "erfinv" erfinv_stub CPU result self w ir).
    + by apply (generated_entry_point_passes "lgamma" lgamma_stub CPU result self w ir).
  - intros Hd Hl. split; split.
    + by apply (vectorised_core_cpu "erfinv" erfinv_stub self w i).
    + by apply (vectorised_out_cpu "erfinv" erfinv_stub self self w i i).
    + by apply (vectorised_core_cpu "lgamma" lgamma_stub self w i).
    + by apply (vectorised_out_cpu "lgamma" lgamma_stub self self w i i).
Qed.


(** ** Calls one after the other *)

(** X17. Typical operators compose out of place: op2(op1(x)) allocates two
    tensors, one per call, each in a storage of its own with the options and
    the shape of x; the second holds the results of the kernel of op2 on the
    results of the kernel of op1 on the elements of x, in order, and x still
    reads as before. *)
Theorem typical_operators_compose stub1 stub2 self w i :
  tensors (heap w) !! self = Some i →
  length (strides i) = length (sizes i) →
  storage i < length (storages (heap w)) →
  registered stub1 (device (options i)) = true →
  registered stub2 (device (options i)) = true →
  ∃ cs1 cs2 tr,
    let ir k := mkImpl (options i) (sizes i) (contiguous_strides (sizes i)) 0
                  (length (storages (heap w)) + k) false in
    let h' := mkHeap (tensors (heap w) ++ [ir 0; ir 1])
                (storages (heap w) ++ [cs1; cs2]) in
    (let* y := unary_op_impl self (λ result self, unary_op_impl_out result self stub1) in
     unary_op_impl y (λ result self, unary_op_impl_out result self stub2)) w
    = (inr (S (length (tensors (heap w)))), mkWorld h' tr) ∧
    tensor_elements h' (ir 1)
    = (λ v, element_result stub2 [] (scalar_type i) (scalar_type i)
              (element_result stub1 [] (scalar_type i) (scalar_type i) v))
        <$> tensor_elements (heap w) i ∧
    tensor_elements h' i = tensor_elements (heap w) i.
Proof.
  intros Hs Hl Hst Hr1 Hr2.
  destruct (unary_op_impl_fresh stub1 self w i Hs Hl Hst Hr1) as (cs1 & Hrun1 & Hel1).
  rewrite (bind_inr _ _ _ _ _ Hrun1).
  set (ir0 := mkImpl (options i) (sizes i) (contiguous_strides (sizes i)) 0
                (length (storages (heap w))) false) in *.
  match goal with
  | |- context [unary_op_impl _ _ ?W] => set (w1 := W) in *
  end.
  assert (tensors (heap w1) !! length (tensors (heap w)) = Some ir0) as Hs1.
  { subst w1. cbn [heap tensors]. by rewrite lookup_app_r, Nat.sub_diag. }
  assert (length (strides ir0) = length (sizes ir0)) as Hl0
    by apply length_contiguous_strides.
  assert (storage ir0 < length (storages (heap w1))) as Hst0.
  { subst w1 ir0. cbn [heap storages storage]. rewrite length_app. simpl. lia. }
  destruct (unary_op_impl_fresh stub2 (length (tensors (heap w))) w1 ir0
              Hs1 Hl0 Hst0 Hr2) as (cs2 & Hrun2 & Hel2).
  change (options ir0) with (options i) in Hrun2, Hel2.
  subst w1. cbn [heap tensors storages trace] in *.
  assert (length (tensors (heap w) ++ [ir0]) = S (length (tensors (heap w)))) as Hn1
    by (rewrite length_app; simpl; lia).
  assert (length (storages (heap w) ++ [cs1]) = length (storages (heap w)) + 1) as Hn2
    by (by rewrite length_app).
  rewrite Hn1, Hn2 in Hrun2. rewrite Hn2 in Hel2.
  rewrite <- !app_assoc in Hrun2. rewrite <- !app_assoc in Hel2.
  cbn [app] in Hrun2, Hel2.
  change (sizes ir0) with (sizes i) in *.
  change (scalar_type ir0) with (scalar_type i) in *.
  exists cs1, cs2. eexists. cbv zeta. rewrite Nat.add_0_r. fold ir0.
  split; [exact Hrun2|]. split.
  - rewrite Hel2, Hel1. by rewrite <- list_fmap_compose.
  - unfold tensor_elements. cbn [storages].
    apply list_fmap_ext. intros k o _. by apply read_elem_app_l.
Qed.

(** After an in-place run the view is as well formed as before, and holds
    the results. *)
Lemma iterate_in_place_again cfg stub args x w i :
  tensors (heap w) !! x = Some i →
  well_formed (heap w) i →
  registered stub (device (options i)) = true →
  ∃ w', iterate cfg stub args x x w = (inr x, w') ∧
        tensors (heap w') = tensors (heap w) ∧
        well_formed (heap w') i ∧
        tensor_elements (heap w') i
        = element_result stub args (scalar_type i) (scalar_type i)
            <$> tensor_elements (heap w) i.
Proof.
  intros Hx Hwf Hr.
  pose proof (iterate_in_place cfg stub args x w i Hx Hwf) as H.
  rewrite Hr in H. destruct H as (w' & Hrun & Ht & Hel).
  exists w'. split; [done|]. split; [done|]. split; [|done].
  destruct Hwf as (Hl & Hs & Hnd & Hin). unfold iterate in Hrun.
  destruct (build_in_place cfg x w i Hx Hl) as [tr Hb].
  rewrite (bind_inr _ _ _ _ _ Hb) in Hrun. cbn [device_type] in Hrun.
  rewrite (bind_inr _ _ _ _ _
             (call_stub_run stub _
                (mkIter x x (sizes i) (strides i) (scalar_type i)
                   (device (options i)))
                args (mkWorld (heap w) tr) i i Hr Hx Hx)) in Hrun.
  injection Hrun as <-. unfold well_formed, computed. cbn [heap storages tensors].
  split; [done|]. split; [by rewrite length_elementwise|]. split; [done|].
  intros o c Ho Hc. apply in_bounds_elementwise. by eapply Hin.
Qed.

(** X18. In-place calls chain: since an in-place form returns self,
    x.op1_().op2_() on a well-formed tensor returns x, changes no
    descriptor, and leaves in every element of x the result of the kernel of
    op2 on the result of the kernel of op1 on that element. *)
Theorem in_place_calls_chain stub1 stub2 self w i :
  tensors (heap w) !! self = Some i →
  well_formed (heap w) i →
  registered stub1 (device (options i)) = true →
  registered stub2 (device (options i)) = true →
  ∃ w',
    (let* y := unary_op_impl_ self (λ result self, unary_op_impl_out result self stub1) in
     unary_op_impl_ y (λ result self, unary_op_impl_out result self stub2)) w
    = (inr self, w') ∧
    tensors (heap w') = tensors (heap w) ∧
    tensor_elements (heap w') i
    = (λ v, element_result stub2 [] (scalar_type i) (scalar_type i)
              (element_result stub1 [] (scalar_type i) (scalar_type i) v))
        <$> tensor_elements (heap w) i.
Proof.
  intros Hs Hwf Hr1 Hr2.
  destruct (iterate_in_place_again (mkConfig true true) stub1 [] self w i Hs Hwf Hr1)
    as (w1 & Hrun1 & Ht1 & Hwf1 & Hel1).
  assert (tensors (heap w1) !! self = Some i) as Hs1 by (by rewrite Ht1).
  destruct (iterate_in_place_again (mkConfig true true) stub2 [] self w1 i Hs1 Hwf1 Hr2)
    as (w2 & Hrun2 & Ht2 & _ & Hel2).
  exists w2. split; [|split].
  - unfold unary_op_impl_. rewrite unary_op_impl_out_iterate.
    rewrite (bind_inr _ _ _ _ _ Hrun1). exact Hrun2.
  - by rewrite Ht2.
  - rewrite Hel2, Hel1. by rewrite <- list_fmap_compose.
Qed.


(** ** Writing through real and imag *)

(** [f] on one component of the cells of a complex element, the other
    component as it is. *)
Definition on_component (part : nat) (f : list Val → list Val) (e : list Val)
  : list Val :=
  match part with
  | 0 => f (component 0 e) ++ component 1 e
  | _ => component 0 e ++ f (component 1 e)
  end.

(** The descriptor of the view that [real] ([part = 0]) or [imag]
    ([part = 1]) returns. *)
Definition component_impl (part : nat) (i : TensorImpl) : TensorImpl :=
  mkImpl (with_dtype (options i) (toValueType (scalar_type i))) (sizes i)
    (Nat.mul 2 <$> strides i) (2 * storage_offset i + part) (storage i) false.

Lemma width_toValueType t : width (toValueType t) = 1.
Proof. unfold width. by rewrite isComplexType_toValueType. Qed.

Lemma component_view_explicit part self i w :
  tensors (heap w) !! self = Some i → is_complex i = true →
  length (strides i) = length (sizes i) → part < 2 →
  ∃ fi tr,
    (let* float_tensor := view_complex_as_float self in
     let* d := Tensor_dim float_tensor in
     select float_tensor (d - 1) (Z.of_nat part)) w
    = (inr (S (length (tensors (heap w)))),
       mkWorld
         (mkHeap (tensors (heap w) ++ [fi; component_impl part i])
            (storages (heap w)))
         tr).
Proof.
  intros Hs Hc Hl Hp.
  unfold view_complex_as_float.
  rewrite bind_run. rewrite (bind_inr _ _ _ _ _ (get_impl_Some _ _ _ Hs)).
  rewrite Hc. unfold new_tensor at 1. rewrite bind_run. cbn [bind emit ret].
  set (f := length (tensors (heap w))).
  set (fi := mkImpl (with_dtype (options i) (toValueType (scalar_type i)))
               (sizes i ++ [2]) ((Nat.mul 2 <$> strides i) ++ [1])
               (2 * storage_offset i) (storage i) false).
  set (w1 := mkWorld (mkHeap (tensors (heap w) ++ [fi]) (storages (heap w)))
               (trace w ++ [EvView f self])).
  assert (tensors (heap w1) !! f = Some fi) as Hf
    by (simpl; by rewrite lookup_app_r, Nat.sub_diag).
  unfold Tensor_dim. rewrite bind_run.
  rewrite (bind_inr _ _ _ _ _ (get_impl_Some _ _ _ Hf)). cbn [ret].
  rewrite (select_last f fi (sizes i) 2 (Nat.mul 2 <$> strides i) 1 part w1 Hf)
    by (try done; by rewrite length_fmap).
  exists fi. eexists. subst w1 fi. unfold component_impl.
  cbn [heap tensors storages trace options sizes strides storage_offset storage].
  rewrite length_app, Nat.mul_1_r, <- app_assoc. cbn [length app].
  replace (length (tensors (heap w)) + 1) with (S (length (tensors (heap w)))) by lia.
  reflexivity.
Qed.

Lemma iterate_in_place_run cfg stub args x w i :
  tensors (heap w) !! x = Some i → length (strides i) = length (sizes i) →
  registered stub (device (options i)) = true →
  ∃ tr,
    iterate cfg stub args x x w
    = (inr x,
       mkWorld
         (computed stub
            (mkIter x x (sizes i) (strides i) (scalar_type i) (device (options i)))
            args i i (heap w))
         tr).
Proof.
  intros Hx Hl Hr. unfold iterate.
  destruct (build_in_place cfg x w i Hx Hl) as [tr Hb].
  rewrite (bind_inr _ _ _ _ _ Hb). cbn [device_type].
  rewrite (bind_inr _ _ _ _ _
             (call_stub_run stub _
                (mkIter x x (sizes i) (strides i) (scalar_type i)
                   (device (options i)))
                args (mkWorld (heap w) tr) i i Hr Hx Hx)).
  by eexists.
Qed.

Lemma fmap_eq_pointwise {A B} (f g : A → B) (l : list A) x :
  f <$> l = g <$> l → x ∈ l → f x = g x.
Proof.
  intros H Hx. apply list_elem_of_lookup_1 in Hx as [k Hk].
  apply (f_equal (λ l, l !! k)) in H. rewrite !list_lookup_fmap, Hk in H.
  by injection H.
Qed.

Lemma elem_of_zip_diag {A} (l : list A) x : x ∈ l → (x, x) ∈ zip l l.
Proof.
  induction l as [|a l IH]; intros H; [by apply elem_of_nil in H|].
  apply elem_of_cons in H as [->|H]; simpl; [by left|right; by apply IH].
Qed.

(** An in-place typical operator on the view of one component replaces that
    component of every element of the complex tensor. *)
Lemma component_write part stub self w i :
  tensors (heap w) !! self = Some i → is_complex i = true →
  well_formed (heap w) i → part < 2 →
  registered stub (device (options i)) = true →
  ∃ v w',
    (let* v := (let* float_tensor := view_complex_as_float self in
                let* d := Tensor_dim float_tensor in
                select float_tensor (d - 1) (Z.of_nat part)) in
     unary_op_impl_ v (λ result self, unary_op_impl_out result self stub)) w
    = (inr v, w') ∧
    tensors (heap w') !! self = Some i ∧
    tensor_elements (heap w') i
    = on_component part
        (element_result stub [] (toValueType (scalar_type i))
           (toValueType (scalar_type i)))
        <$> tensor_elements (heap w) i.
Proof.
  intros Hs Hc (Hl & Hst & Hnd & Hin) Hp Hr.
  destruct (component_view_explicit part self i w Hs Hc Hl Hp) as (fi & tr & Hview).
  rewrite (bind_inr _ _ _ _ _ Hview).
  set (v := S (length (tensors (heap w)))).
  set (iv := component_impl part i).
  set (w1 := mkWorld (mkHeap (tensors (heap w) ++ [fi; iv]) (storages (heap w))) tr).
  assert (tensors (heap w1) !! v = Some iv) as Hv.
  { subst w1 v. cbn [heap tensors]. rewrite lookup_app_r by lia.
    by replace (S (length (tensors (heap w))) - length (tensors (heap w))) with 1
      by lia. }
  assert (length (strides iv) = length (sizes iv)) as Hliv
    by (subst iv; cbn [component_impl strides sizes]; by rewrite length_fmap).
  assert (registered stub (device (options iv)) = true) as Hriv by exact Hr.
  unfold unary_op_impl_. rewrite unary_op_impl_out_iterate.
  destruct (iterate_in_place_run (mkConfig true true) stub [] v w1 iv Hv Hliv Hriv)
    as [tr' Hrun].
  rewrite Hrun. eexists v, _. split; [reflexivity|].
  unfold computed.
  cbn [heap tensors storages it_out it_in it_shape it_in_strides it_common_dtype].
  split; [by apply lookup_app_l_Some|].
  assert (width (scalar_type i) = 2) as Hw2.
  { unfold width. unfold is_complex in Hc. by rewrite Hc. }
  assert (width (scalar_type iv) = 1) as Hw1 by apply width_toValueType.
  set (vt := toValueType (scalar_type i)) in *.
  assert (scalar_type iv = vt) as Hty by done.
  rewrite Hw1, Hty.
  set (offs := (λ o, 2 * o + part) <$> view_offsets i).
  assert (offsets (storage_offset iv) (sizes iv) (strides iv) = offs) as Hoffs.
  { subst offs iv. unfold view_offsets. cbn [component_impl storage_offset sizes strides].
    apply offsets_scaled. }
  rewrite Hoffs. change (storage iv) with (storage i).
  set (gk := λ v0 : list Val, convert vt vt (kernel_fn stub vt [] v0)).
  set (m := storages (heap w)).
  set (m' := elementwise garbage gk (storage i) 1 (storage i) 1 (zip offs offs) m).
  assert (NoDup offs) as Hndo.
  { subst offs. apply NoDup_fmap_2; [|done]. intros a b Hab. lia. }
  assert (∀ q c, q ∈ zip offs offs → c ∈ cells 1 q.2 → in_bounds m (storage i) c)
    as Hino.
  { intros q c Hq Hcq. apply elem_of_zip_same in Hq as [_ Hq].
    subst offs. apply list_elem_of_fmap in Hq as (o' & Hqo & Ho').
    apply (Hin o' c Ho'). rewrite Hw2. apply elem_of_cells.
    apply elem_of_cells in Hcq. lia. }
  pose proof (elementwise_spec garbage gk (storage i) 1 (storage i) 1 (zip offs offs) m
                (hazard_free_in_place _ _ _ Hndo) Hino) as Hspec.
  fold m' in Hspec.
  unfold tensor_elements. cbn [storages]. rewrite Hw2.
  rewrite <- list_fmap_compose. apply list_fmap_ext. intros k o Hk. cbn [compose].
  assert (o ∈ view_offsets i) as Ho by (by eapply list_elem_of_lookup_2).
  assert (2 * o + part ∈ offs) as Hoin
    by (subst offs; by apply (list_elem_of_fmap_2 (λ o, 2 * o + part))).
  pose proof (fmap_eq_pointwise _ _ _ _ Hspec (elem_of_zip_diag _ _ Hoin)) as HA.
  cbn [fst snd] in HA.
  assert (read_elem garbage m' (storage i) 1 (2 * o + (1 - part))
          = read_elem garbage m (storage i) 1 (2 * o + (1 - part))) as HB.
  { subst m'. apply elementwise_frame. intros q Hq. right. intros c Hc1 Hc2.
    apply elem_of_zip_same in Hq as [_ Hq].
    subst offs. apply list_elem_of_fmap in Hq as (o' & Hqo & Ho').
    apply elem_of_cells in Hc1, Hc2. lia. }
  rewrite !read_elem_real in HA, HB. rewrite !read_elem_complex.
  change (storages (heap w1)) with m. fold m'.
  unfold on_component, component, element_result.
  assert (width vt = 1) as -> by apply width_toValueType.
  destruct part as [|[|?]]; [| |lia]; cbn [drop take Nat.sub] in *.
  - rewrite Nat.add_0_r in HA.
    assert (load garbage m' (storage i) (2 * o + 1)
            = load garbage m (storage i) (2 * o + 1)) as -> by congruence.
    apply (f_equal (λ l, l ++ [load garbage m (storage i) (2 * o + 1)])) in HA.
    exact HA.
  - rewrite Nat.add_0_r in HB.
    assert (load garbage m' (storage i) (2 * o)
            = load garbage m (storage i) (2 * o)) as -> by congruence.
    apply (f_equal (λ l, [load garbage m (storage i) (2 * o)] ++ l)) in HA.
    exact HA.
Qed.

(** X19. The views of real and imag alias the tensor: an in-place typical
    operator on real(x) replaces the real part of every element of x by the
    result of the kernel on it and leaves the imaginary parts as they are;
    on imag(x) it replaces the imaginary parts and leaves the real parts.
    The descriptor of x does not change. *)
Theorem writes_through_real_and_imag_reach_the_tensor stub self w i :
  tensors (heap w) !! self = Some i → is_complex i = true →
  well_formed (heap w) i →
  registered stub (device (options i)) = true →
  let value_type := toValueType (scalar_type i) in
  (∃ v w',
     (let* v := real self in
      unary_op_impl_ v (λ result self, unary_op_impl_out result self stub)) w
     = (inr v, w') ∧
     tensors (heap w') !! self = Some i ∧
     tensor_elements (heap w') i
     = on_component 0 (element_result stub [] value_type value_type)
         <$> tensor_elements (heap w) i) ∧
  (∃ v w',
     (let* v := imag self in
      unary_op_impl_ v (λ result self, unary_op_impl_out result self stub)) w
     = (inr v, w') ∧
     tensors (heap w') !! self = Some i ∧
     tensor_elements (heap w') i
     = on_component 1 (element_result stub [] value_type value_type)
         <$> tensor_elements (heap w) i).
Proof.
  intros Hs Hc Hwf Hr value_type. split.
  - destruct (component_write 0 stub self w i Hs Hc Hwf) as (v & w' & Hrun & H);
      [lia|done|].
    exists v, w'. split; [|exact H].
    rewrite <- Hrun. unfold real. rewrite !bind_run. reads_known. by rewrite Hc.
  - destruct (component_write 1 stub self w i Hs Hc Hwf) as (v & w' & Hrun & H);
      [lia|done|].
    exists v, w'. split; [|exact H].
    rewrite <- Hrun. unfold imag. rewrite !bind_run. reads_known. by rewrite Hc.
Qed.


(** ** The validation failures of each entry point *)

(** [m] raises no validation failure of a kind outside [ks]. *)
Definition raises_only (ks : list ErrorKind) {A} (m : M A) : Prop :=
  ∀ w, match (m w).1 with
       | inl (CheckFailure k _) => k ∈ ks
       | _ => True
       end.

Lemma raises_only_never ks {A} (m : M A) : never_check m → raises_only ks m.
Proof. intros H w. specialize (H w). by destruct (m w).1 as [[]|]. Qed.

Lemma raises_only_bind ks {A B} (m : M A) (f : A → M B) :
  raises_only ks m → (∀ a, raises_only ks (f a)) → raises_only ks (bind m f).
Proof.
  intros Hm Hf w. unfold bind. specialize (Hm w).
  destruct (m w) as [[e|a] w1]; [exact Hm|]. apply Hf.
Qed.

Lemma raises_only_TORCH_CHECK ks c k msg :
  k ∈ ks → raises_only ks (TORCH_CHECK c k msg).
Proof. intros Hk w. by destruct c. Qed.

Lemma raises_only_AT_ERROR ks {A} k msg : k ∈ ks → raises_only ks (@AT_ERROR A k msg).
Proof. by intros Hk w. Qed.

Ltac raises_step :=
  first
    [ apply raises_only_never; solve_never
    | lazymatch goal with
      | |- raises_only _ (bind _ _) => apply raises_only_bind; [|intros ?]
      | |- raises_only _ (TORCH_CHECK _ _ _) =>
          apply raises_only_TORCH_CHECK; solve [repeat constructor]
      | |- raises_only _ (AT_ERROR _ _) =>
          apply raises_only_AT_ERROR; solve [repeat constructor]
      | |- raises_only _ (if ?b then _ else _) => destruct b
      | |- raises_only _ (match ?x with _ => _ end) => destruct x
      | |- raises_only _ ?m => let h := head_of m in unfold h
      end ].

(** The kinds of validation failure the operators check for. *)
Definition operator_checks (o : UnaryOperator) : list ErrorKind :=
  match o with
  | op_rad2deg | op_deg2rad | op_ceil | op_floor | op_trunc | op_neg =>
      [UnsupportedDtype]
  | op_abs => [InvalidCast]
  | _ => []
  end.

Definition checks_of (e : EntryPoint) : list ErrorKind :=
  match e with
  | Allocating o _ | IntoBuffer o _ _ | InPlace o _ => operator_checks o
  | Angle _ | AngleOut _ _ => [InvalidCast]
  | Real _ | Imag _ => [UnsupportedDtype]
  | Conj _ | ConjOut _ _ | Square _ | Square_ _ => []
  | Clamp _ _ _ | ClampOut _ _ _ _ | Clamp_ _ _ _ =>
      [UnsupportedDtype; UnsupportedLayout; InvalidArgument]
  | ClampMax _ _ | ClampMaxOut _ _ _ | ClampMax_ _ _
  | ClampMin _ _ | ClampMinOut _ _ _ | ClampMin_ _ _ =>
      [UnsupportedDtype; UnsupportedLayout]
  | Polygamma _ _ | PolygammaOut _ _ _ | Polygamma_ _ _ => [InvalidArgument]
  | Mvlgamma _ _ | Mvlgamma_ _ _ =>
      [UnsupportedDtype; InvalidArgument; UnsupportedDevice; UnsupportedLayout]
  | Erfinv _ | ErfinvOutCpu _ _ | ErfinvOutCuda _ _ | Erfinv_Cpu _ | Erfinv_Cuda _
  | Lgamma _ | LgammaOutCpu _ _ | LgammaOutCuda _ _ | Lgamma_Cpu _ | Lgamma_Cuda _ =>
      [UnsupportedDevice; UnsupportedLayout]
  end.

(** X20. The validation failures an entry point can raise: none for the
    typical operators, conj, logical_not and square; UnsupportedDtype for
    ceil, floor, trunc, neg, rad2deg, deg2rad, real and imag; InvalidCast for
    abs and angle; UnsupportedDtype and UnsupportedLayout for clamp_max and
    clamp_min, and InvalidArgument besides for clamp; InvalidArgument for
    polygamma; the device and layout checks for erfinv and lgamma;
    UnsupportedDtype and InvalidArgument for mvlgamma, and besides the device
    and layout checks of lgamma, which it calls in place on the tensor of its
    arguments.  Whatever the input, no entry point fails a check of another
    kind. *)
Theorem validation_failures_by_entry_point e : raises_only (checks_of e) (run e).
Proof.
  destruct e as [o ?|o ? ?|o ?| | | | | | | | |? mn mx|? ? mn mx|? mn mx| | | | | |
                 | | | | | | | | | | | | | | |];
    try destruct o; try destruct mn; try destruct mx;
    cbn [checks_of operator_checks run allocating into_buffer in_place];
    solve [repeat raises_step].
Qed.


(** ** Into an output of the caller *)

(** Building a plan over an output that has the shape of the input, in
    another storage, changes nothing. *)
Lemma build_same_shape cfg out inp w o i :
  tensors (heap w) !! out = Some o → tensors (heap w) !! inp = Some i →
  (check_all_same_dtype cfg = true → scalar_type o = scalar_type i) →
  storage o ≠ storage i → sizes o = sizes i →
  length (strides i) = length (sizes i) →
  ∃ tr,
    build cfg out inp w
    = (inr (mkIter out inp (sizes i) (strides i) (scalar_type i) (device (options o))),
       mkWorld (heap w) tr).
Proof.
  intros Ho Hi Hd Hst Hsz Hl. unfold build.
  rewrite (bind_inr _ _ _ _ _ (get_impl_Some _ _ _ Ho)).
  rewrite (bind_inr _ _ _ _ _ (get_impl_Some _ _ _ Hi)).
  assert (check_all_same_dtype cfg
          && negb (bool_decide (scalar_type o = scalar_type i)) = false) as ->.
  { destruct (check_all_same_dtype cfg); [|done].
    simpl. by rewrite bool_decide_eq_true_2 by auto. }
  assert (check_mem_overlap cfg && partial_overlap out inp o i = false) as ->.
  { unfold partial_overlap. rewrite (bool_decide_eq_false_2 (storage o = storage i)) by done.
    by rewrite andb_false_r, andb_false_r. }
  destruct (unallocated o).
  - rewrite (bind_inr _ _ _ _ _ (resize_run _ _ _ _ Ho)).
    unfold resized. rewrite decide_True by done.
    unfold bind, emit, ret. simpl. by eexists.
  - rewrite Hsz, broadcast_same. rewrite decide_True by done.
    rewrite expand_strides_same by done.
    unfold bind, emit, ret. simpl. by eexists.
Qed.

Lemma read_elem_same_storage (m m' : list (list Val)) s width o :
  m' !! s = m !! s →
  read_elem garbage m' s width o = read_elem garbage m s width o.
Proof.
  intros H. unfold read_elem. apply list_fmap_ext. intros k c _.
  unfold load. by rewrite H.
Qed.

(** X21. The into-buffer form of a typical operator ([unary_op_impl_out] on
    the stub of the operator) into a well-formed output of the caller that
    has the dtype and the shape of the input and lies in another storage.
    When a kernel is registered for the device of the output, the call
    returns the output, changes no descriptor, fills the output with the
    results of the kernel on the elements of the input, in order, and leaves
    the input as it was; when none is registered it fails in the dispatch. *)
Theorem unary_op_impl_out_fills_the_output stub result self w ir i :
  tensors (heap w) !! result = Some ir →
  tensors (heap w) !! self = Some i →
  scalar_type ir = scalar_type i →
  sizes ir = sizes i →
  storage ir ≠ storage i →
  well_formed (heap w) ir →
  length (strides i) = length (sizes i) →
  if registered stub (device (options ir)) then
    ∃ w',
      unary_op_impl_out result self stub w = (inr result, w') ∧
      tensors (heap w') = tensors (heap w) ∧
      tensor_elements (heap w') ir
      = element_result stub [] (scalar_type i) (scalar_type ir)
          <$> tensor_elements (heap w) i ∧
      tensor_elements (heap w') i = tensor_elements (heap w) i
  else
    ∃ w',
      unary_op_impl_out result self stub w
      = (inl (DispatchFailure stub (device (options ir))), w').
Proof.
  intros Hr Hs Hty Hsz Hst (Hlr & Hsr & Hnd & Hin) Hl.
  rewrite unary_op_impl_out_iterate. unfold iterate.
  destruct (build_same_shape (mkConfig true true) result self w ir i Hr Hs
              (λ _, Hty) Hst Hsz Hl) as [tr Hb].
  rewrite (bind_inr _ _ _ _ _ Hb). cbn [device_type].
  destruct (registered stub (device (options ir))) eqn:Hreg.
  - rewrite (bind_inr _ _ _ _ _
               (call_stub_run stub _
                  (mkIter result self (sizes i) (strides i) (scalar_type i)
                     (device (options ir)))
                  [] (mkWorld (heap w) tr) ir i Hreg Hr Hs)).
    eexists. split; [reflexivity|]. split; [done|].
    unfold computed.
    cbn [heap tensors storages it_out it_in it_shape it_in_strides it_common_dtype].
    set (g := λ v, convert (scalar_type i) (scalar_type ir)
                     (kernel_fn stub (scalar_type i) [] v)).
    set (ins := offsets (storage_offset i) (sizes i) (strides i)).
    set (outs := offsets (storage_offset ir) (sizes i) (strides ir)).
    assert (outs = view_offsets ir) as Houts.
    { subst outs. unfold view_offsets. by rewrite Hsz. }
    assert (length ins = length outs) as Hlen.
    { subst ins outs. rewrite !length_offsets; [done| |done]. by rewrite Hlr, Hsz. }
    split.
    + unfold tensor_elements. cbn [storages]. rewrite <- list_fmap_compose.
      change (view_offsets i) with ins. rewrite <- Houts.
      rewrite <- (fmap_zip_snd _ ins outs) by lia.
      rewrite <- (fmap_zip_fst
                    (element_result stub [] (scalar_type i) (scalar_type ir)
                     ∘ (λ o, read_elem garbage (storages (heap w)) (storage i)
                               (width (scalar_type i)) o))
                    ins outs) by lia.
      apply (elementwise_spec garbage).
      * apply hazard_free_fresh; [done|]. by rewrite Houts.
      * intros [a b] c Hq Hc. apply elem_of_zip_r in Hq. rewrite Houts in Hq.
        by eapply Hin.
    + unfold tensor_elements. cbn [storages].
      apply list_fmap_ext. intros k o _. apply read_elem_same_storage.
      by apply elementwise_lookup_other.
  - rewrite (bind_inl _ _ _ _ _ (call_stub_unregistered _ _ _ _ _ Hreg)).
    by eexists.
Qed.


(** ** abs and angle where nothing is converted *)

Lemma complex_to_float_out_on_real stub result self i w :
  tensors (heap w) !! self = Some i → is_complex i = false →
  unary_op_impl_with_complex_to_float_out result self stub w
  = unary_op_impl_out result self stub w.
Proof.
  intros Hs Hc. unfold unary_op_impl_with_complex_to_float_out.
  rewrite bind_run. reads_known. rewrite Hc.
  rewrite bind_run. reflexivity.
Qed.

Lemma complex_to_float_out_into_complex stub result self ir i w :
  tensors (heap w) !! result = Some ir → tensors (heap w) !! self = Some i →
  is_complex ir = true →
  unary_op_impl_with_complex_to_float_out result self stub w
  = unary_op_impl_out result self stub w.
Proof.
  intros Hr Hs Hc. destruct (is_complex i) eqn:Hi.
  - unfold unary_op_impl_with_complex_to_float_out.
    rewrite bind_run. reads_known. rewrite Hi.
    rewrite !bind_run. reads_known. rewrite Hc. reflexivity.
  - by eapply complex_to_float_out_on_real.
Qed.

Lemma complex_to_float_on_real self i (out_impl : Tensor → Tensor → M Tensor) w :
  tensors (heap w) !! self = Some i → is_complex i = false →
  unary_op_impl_with_complex_to_float self out_impl w = unary_op_impl self out_impl w.
Proof.
  intros Hs Hc. unfold unary_op_impl_with_complex_to_float.
  rewrite bind_run. reads_known. by rewrite Hc.
Qed.

(** X22. Where the complex-to-real policy converts nothing, abs and angle
    are typical operators, with the same result and the same final state as
    the helper on [unary_op_impl_out] and their stub.  abs_ is so on every
    tensor, complex ones included, since its output is its input; abs_out
    and angle_out are so on an input that is not complex and into an output
    that is complex; abs and angle are so on an input that is not complex. *)
Theorem abs_and_angle_are_typical_without_conversion w self i :
  tensors (heap w) !! self = Some i →
  abs_ self w = unary_op_impl_ self (λ r s, unary_op_impl_out r s abs_stub) w ∧
  (∀ result ir,
     tensors (heap w) !! result = Some ir → is_complex ir = true →
     abs_out result self w = unary_op_impl_out result self abs_stub w ∧
     angle_out result self w = unary_op_impl_out result self angle_stub w) ∧
  (is_complex i = false →
     (∀ result,
        abs_out result self w = unary_op_impl_out result self abs_stub w ∧
        angle_out result self w = unary_op_impl_out result self angle_stub w) ∧
     abs self w = unary_op_impl self (λ r s, unary_op_impl_out r s abs_stub) w ∧
     angle self w = unary_op_impl self (λ r s, unary_op_impl_out r s angle_stub) w).
Proof.
  intros Hs. split; [|split].
  - unfold abs_, unary_op_impl_, abs_out.
    destruct (is_complex i) eqn:Hc.
    + by eapply complex_to_float_out_into_complex.
    + by eapply complex_to_float_out_on_real.
  - intros result ir Hr Hc.
    split; by eapply complex_to_float_out_into_complex.
  - intros Hc. split; [|split].
    + intros result. split; by eapply complex_to_float_out_on_real.
    + unfold abs. rewrite (complex_to_float_on_real self i) by done.
      apply (unary_op_impl_on self i); [done|]. intros r w' Hs'.
      by eapply complex_to_float_out_on_real.
    + unfold angle. rewrite (complex_to_float_on_real self i) by done.
      apply (unary_op_impl_on self i); [done|]. intros r w' Hs'.
      by eapply complex_to_float_out_on_real.
Qed.


(** ** The tensor abs and angle return *)

(** The run returned a tensor it allocated with the options [o]: its handle
    and its storage are new, [at::empty] with these options is the first
    thing that happened, the tensor has the shape [sz] in the end, and every
    tensor and storage that existed is as it was. *)
Definition returns_new_tensor (o : TensorOptions) (sz : list nat) (w : World)
    (run : (Error + Tensor) * World) : Prop :=
  let r : Tensor := length (tensors (heap w)) in
  run.1 = inr r ∧
  (∃ evs, trace run.2 = trace w ++ EvEmpty r o :: evs) ∧
  (∃ ir, tensors (heap run.2) !! r = Some ir ∧ options ir = o ∧ sizes ir = sz ∧
         storage ir = length (storages (heap w))) ∧
  extends (heap w) (heap run.2).

Lemma well_formed_placeholder o w :
  well_formed (heap (allocated o w)) (placeholder o w).
Proof.
  unfold well_formed, placeholder, view_offsets. simpl.
  split; [done|]. split; [rewrite length_app; simpl; lia|].
  split; [apply NoDup_nil_2|]. intros o' c Ho. by apply elem_of_nil in Ho.
Qed.

(** Into a fresh placeholder, a plan and its kernel leave a new tensor. *)
Lemma iterate_returns_new_tensor cfg stub args self w i o :
  tensors (heap w) !! self = Some i →
  length (strides i) = length (sizes i) →
  storage i < length (storages (heap w)) →
  (check_all_same_dtype cfg = true → dtype o = scalar_type i) →
  registered stub (device o) = true →
  returns_new_tensor o (sizes i) w
    ((let* result := at_empty o in iterate cfg stub args result self) w).
Proof.
  intros Hs Hl Hst Hd Hreg.
  pose proof (iterate_fresh cfg stub args self w i o Hs Hl Hst Hd) as Hrun.
  cbv zeta in Hrun. rewrite Hreg in Hrun. destruct Hrun as (cs & -> & _).
  unfold returns_new_tensor. cbn [fst snd heap trace tensors storages].
  split; [done|]. split; [by eexists|]. split.
  - eexists. rewrite lookup_app_r, Nat.sub_diag by done. by split.
  - split; by eexists.
Qed.

Lemma keeps_complex_to_float_out h0 r i0 self stub :
  tensors h0 !! r = Some i0 →
  keeps h0 r i0 (λ _, True) (unary_op_impl_with_complex_to_float_out r self stub).
Proof. intros Hout. solve_keeps. Qed.

Lemma returns_complex_to_float_out result self stub :
  returns result (unary_op_impl_with_complex_to_float_out result self stub).
Proof. repeat returns_step. Qed.

Lemma complex_to_float_allocating_complex stub self w i :
  tensors (heap w) !! self = Some i →
  length (strides i) = length (sizes i) →
  storage i < length (storages (heap w)) →
  is_complex i = true →
  canCast (toValueType (scalar_type i)) (toValueType (scalar_type i)) = true →
  registered stub (device (options i)) = true →
  returns_new_tensor (with_dtype (options i) (toValueType (scalar_type i))) (sizes i) w
    (unary_op_impl_with_complex_to_float self
       (λ r s, unary_op_impl_with_complex_to_float_out r s stub) w).
Proof.
  intros Hs Hl Hst Hc Hcast Hreg. unfold unary_op_impl_with_complex_to_float.
  rewrite bind_run. reads_known. rewrite Hc.
  rewrite bind_run. reads_known. rewrite bind_run. reads_known.
  set (o := with_dtype (options i) (toValueType (scalar_type i))).
  pose proof (allocs_only_alloc o
                (λ r, unary_op_impl_with_complex_to_float_out r self stub)
                (λ h0 r i0 H, keeps_complex_to_float_out h0 r i0 self stub H)
                (λ r, returns_complex_to_float_out r self stub) w) as [Hext _].
  rewrite (bind_inr _ _ _ _ _ (at_empty_run _ _)) in Hext |- *.
  pose proof (allocated_lookup_new o w) as Hnew.
  destruct (keeps_complex_to_float_out (heap (allocated o w))
              (length (tensors (heap w))) (placeholder o w) self stub Hnew
              (allocated o w) (reached_refl _ _ _ Hnew))
    as [(_ & _ & _ & _ & (ik & Hik & Hsk & Hok) & _) _].
  destruct (complex_to_float_run stub (length (tensors (heap w))) self
              (allocated o w) i (placeholder o w))
    as (Hret & Htr & it & ir' & _ & _ & _ & Hsz & _ & Hlook & Hopt & Hsz' & _).
  - by apply allocated_lookup.
  - exact Hnew.
  - done.
  - unfold is_complex, scalar_type. simpl. apply isComplexType_toValueType.
  - done.
  - done.
  - simpl. rewrite length_app. lia.
  - simpl. rewrite length_app. simpl. lia.
  - intros _. apply well_formed_placeholder.
  - done.
  - unfold returns_new_tensor. split; [exact Hret|]. split; [|split; [|exact Hext]].
    + rewrite Htr. cbn [allocated trace]. rewrite <- app_assoc. by eexists.
    + exists ik. split; [exact Hik|]. split; [exact Hok|].
      split; [|exact Hsk].
      rewrite Hlook in Hik. injection Hik as <-. by rewrite Hsz', Hsz.
Qed.

Lemma complex_to_float_allocating_real stub self w i :
  tensors (heap w) !! self = Some i →
  length (strides i) = length (sizes i) →
  storage i < length (storages (heap w)) →
  is_complex i = false →
  registered stub (device (options i)) = true →
  returns_new_tensor (options i) (sizes i) w
    (unary_op_impl_with_complex_to_float self
       (λ r s, unary_op_impl_with_complex_to_float_out r s stub) w).
Proof.
  intros Hs Hl Hst Hc Hreg. unfold unary_op_impl_with_complex_to_float.
  rewrite bind_run. reads_known. rewrite Hc.
  rewrite bind_run. reads_known.
  pose proof (iterate_returns_new_tensor (mkConfig true true) stub [] self w i
                (options i) Hs Hl Hst (λ _, eq_refl) Hreg) as Hrun.
  rewrite (bind_inr _ _ _ _ _ (at_empty_run _ _)) in Hrun.
  rewrite (bind_inr _ _ _ _ _ (at_empty_run _ _)).
  rewrite (complex_to_float_direct stub _ self _ i (placeholder (options i) w));
    [|by apply allocated_lookup|apply allocated_lookup_new|by left].
  exact Hrun.
Qed.

(** C3. For every complex input the allocate-and-return forms abs(x) and
    angle(x) return a tensor they allocate with the options of the input but
    for the dtype, which is the real counterpart of the dtype of the input;
    for every input that is not complex they return a tensor they allocate
    with the options of the input.  The tensor is new: [at::empty] with these
    options comes first and returns its handle, its storage is new, it has
    the shape of the input in the end, and the input and everything else
    that existed are as they were.  The kernel is registered for the device,
    and a dtype can be cast to itself. *)
Theorem abs_and_angle_result_dtype w self i :
  tensors (heap w) !! self = Some i →
  length (strides i) = length (sizes i) →
  storage i < length (storages (heap w)) →
  (is_complex i = true →
   canCast (toValueType (scalar_type i)) (toValueType (scalar_type i)) = true →
     (registered abs_stub (device (options i)) = true →
        returns_new_tensor (with_dtype (options i) (toValueType (scalar_type i)))
          (sizes i) w (abs self w)) ∧
     (registered angle_stub (device (options i)) = true →
        returns_new_tensor (with_dtype (options i) (toValueType (scalar_type i)))
          (sizes i) w (angle self w))) ∧
  (is_complex i = false →
     (registered abs_stub (device (options i)) = true →
        returns_new_tensor (options i) (sizes i) w (abs self w)) ∧
     (registered angle_stub (device (options i)) = true →
        returns_new_tensor (options i) (sizes i) w (angle self w))).
Proof.
  intros Hs Hl Hst. split.
  - intros Hc Hcast. split; intros Hreg.
    + by apply (complex_to_float_allocating_complex abs_stub).
    + by apply (complex_to_float_allocating_complex angle_stub).
  - intros Hc. split; intros Hreg.
    + by apply (complex_to_float_allocating_real abs_stub).
    + by apply (complex_to_float_allocating_real angle_stub).
Qed.


(** ** In place against out of place, operator by operator *)





(** *** Into an output in another storage *)



(** *** The degree conversions, given the multiplication *)










(** ** Validation comes first *)

(** A computation that looks at the world and leaves it as it is. *)
Definition observes {A} (m : M A) : Prop := ∀ w, (m w).2 = w.

(** A computation whose validation failures come before it has changed
    anything. *)
Definition checks_first {A} (m : M A) : Prop :=
  ∀ w, match (m w).1 with
       | inl (CheckFailure _ _) => (m w).2 = w
       | _ => True
       end.

(** A computation whose validation failures come when it has allocated its
    placeholder and done nothing else. *)
Definition checks_on_placeholder {A} (m : M A) : Prop :=
  ∀ w, match (m w).1 with
       | inl (CheckFailure _ _) => ∃ o, (m w).2 = allocated o w
       | _ => True
       end.

Lemma observes_ret {A} (a : A) : observes (ret a).
Proof. by intros w. Qed.

Lemma observes_throw {A} e : observes (@throw A e).
Proof. by intros w. Qed.

Lemma observes_get_impl t : observes (get_impl t).
Proof. intros w. unfold get_impl. by destruct (_ !! _). Qed.

Lemma observes_TORCH_CHECK c k msg : observes (TORCH_CHECK c k msg).
Proof. intros w. by destruct c. Qed.

Lemma observes_item t : observes (item t).
Proof. by intros w. Qed.

Lemma observes_bind {A B} (m : M A) (f : A → M B) :
  observes m → (∀ a, observes (f a)) → observes (bind m f).
Proof.
  intros Hm Hf w. unfold bind. specialize (Hm w).
  destruct (m w) as [[e|a] w1]; simpl in *; subst; [done|apply Hf].
Qed.

Ltac solve_observes :=
  solve [unfold_reads;
         repeat first
           [ apply observes_bind; [|intros ?] | apply observes_ret
           | apply observes_throw | apply observes_get_impl
           | apply observes_TORCH_CHECK | apply observes_item
           | match goal with |- observes (if ?b then _ else _) => destruct b end ]].

Lemma checks_first_never {A} (m : M A) : never_check m → checks_first m.
Proof.
  intros Hm w. specialize (Hm w). destruct (m w) as [[[]|] ?]; done.
Qed.

Lemma checks_first_observes {A} (m : M A) : observes m → checks_first m.
Proof.
  intros Hm w. specialize (Hm w). destruct (m w) as [[[]|] ?]; done.
Qed.

Lemma checks_first_bind {A B} (m : M A) (f : A → M B) :
  observes m → (∀ a, checks_first (f a)) → checks_first (bind m f).
Proof.
  intros Hm Hf w. unfold bind. specialize (Hm w).
  destruct (m w) as [[e|a] w1]; simpl in *; subst; [by destruct e|apply Hf].
Qed.

Lemma checks_first_then_ret {A B} (m : M A) (b : B) :
  checks_first m → checks_first (m ;; ret b).
Proof.
  intros Hm w. unfold bind. specialize (Hm w).
  destruct (m w) as [[[]|] w1]; done.
Qed.

(** Follow the reads and the checks down to the first effect; from there on
    no check may fail. *)
Ltac validates :=
  repeat first
    [ apply checks_first_never; solve_never
    | apply checks_first_observes; solve_observes
    | apply checks_first_bind; [solve_observes | intros ?]
    | match goal with
      | |- checks_first (if ?b then _ else _) => destruct b
      | |- checks_first (match ?x with _ => _ end) => destruct x
      end ].

Lemma checks_first_unary_op_impl_with_complex_to_float_out result self stub :
  checks_first (unary_op_impl_with_complex_to_float_out result self stub).
Proof. unfold unary_op_impl_with_complex_to_float_out. validates. Qed.

Lemma checks_first_into_buffer o result self :
  checks_first (into_buffer o result self).
Proof.
  destruct o; simpl;
    first [ apply checks_first_never, never_check_unary_op_impl_out
          | apply checks_first_unary_op_impl_with_complex_to_float_out
          | unfold rad2deg_out, deg2rad_out, ceil_out, floor_out, trunc_out,
              neg_out, logical_not_out; validates ].
Qed.

Lemma checks_first_in_place o self : checks_first (in_place o self).
Proof.
  pose proof (checks_first_into_buffer o self self) as H.
  destruct o; simpl in *; exact H.
Qed.

Lemma checks_first_clamp_max_out result self mx :
  checks_first (clamp_max_out result self mx).
Proof. unfold clamp_max_out. validates. Qed.

Lemma checks_first_clamp_min_out result self mn :
  checks_first (clamp_min_out result self mn).
Proof. unfold clamp_min_out. validates. Qed.

Lemma checks_first_clamp_out result self mn mx :
  checks_first (clamp_out result self mn mx).
Proof.
  unfold clamp_out.
  apply checks_first_bind; [solve_observes|intros c].
  apply checks_first_bind; [solve_observes|intros _].
  destruct mn, mx;
    first [ apply checks_first_then_ret, checks_first_clamp_max_out
          | apply checks_first_then_ret, checks_first_clamp_min_out
          | validates ].
Qed.

Lemma checks_first_polygamma_out result n self :
  checks_first (polygamma_out result n self).
Proof. unfold polygamma_out. validates. Qed.

Lemma checks_first_IMPLEMENT_UNARY_OP_OUT op stub d result self :
  checks_first (IMPLEMENT_UNARY_OP_OUT op stub d result self).
Proof. unfold IMPLEMENT_UNARY_OP_OUT, checkDeviceType, checkLayout. validates. Qed.

Lemma checks_first_dispatch_out op stub result self :
  checks_first
    (dispatch_out (IMPLEMENT_UNARY_OP_OUT op stub CPU)
       (IMPLEMENT_UNARY_OP_OUT op stub CUDA) result self).
Proof.
  unfold dispatch_out. validates; apply checks_first_IMPLEMENT_UNARY_OP_OUT.
Qed.

Lemma checks_first_lgamma_ self : checks_first (lgamma_ self).
Proof.
  unfold lgamma_, dispatch_in_place. validates;
    apply (checks_first_dispatch_out "lgamma" lgamma_stub).
Qed.

Lemma checks_on_placeholder_alloc {A} o (f : Tensor → M A) :
  (∀ r, checks_first (f r)) → checks_on_placeholder (bind (at_empty o) f).
Proof.
  intros H w. rewrite bind_run, at_empty_run.
  specialize (H (length (tensors (heap w))) (allocated o w)).
  destruct (f _ _) as [[[]|] w1]; simpl in *; try done. by exists o.
Qed.

Lemma checks_on_placeholder_bind {A B} (m : M A) (f : A → M B) :
  observes m → never_check m → (∀ a, checks_on_placeholder (f a)) →
  checks_on_placeholder (bind m f).
Proof.
  intros Hm Hn Hf w. unfold bind. specialize (Hm w). specialize (Hn w).
  destruct (m w) as [[e|a] w1]; simpl in *; subst; [by destruct e|apply Hf].
Qed.

(** Follow the reads of an allocate-and-return form down to [at::empty]. *)
Ltac validates_allocating :=
  repeat first
    [ apply checks_on_placeholder_alloc; intros ?
    | apply checks_on_placeholder_bind; [solve_observes | solve_never | intros ?]
    | match goal with
      | |- checks_on_placeholder (if ?b then _ else _) => destruct b
      end ].

(** The entry points that call [at::empty] for the tensor they return. *)
Definition allocates_output (e : EntryPoint) : bool :=
  match e with
  | Allocating _ _ | Angle _ | Conj _ | Clamp _ _ _ | ClampMax _ _ | ClampMin _ _
  | Polygamma _ _ | Erfinv _ | Lgamma _ => true
  | _ => false
  end.

Lemma checks_first_run e :
  is_mvlgamma e = false → allocates_output e = false → checks_first (run e).
Proof.
  destruct e; simpl; try done; intros _ _.
  - apply checks_first_into_buffer.
  - apply checks_first_in_place.
  - apply checks_first_unary_op_impl_with_complex_to_float_out.
  - unfold real, view_complex_as_float, select. validates.
  - unfold imag, view_complex_as_float, select. validates.
  - apply checks_first_never, never_check_unary_op_impl_out.
  - apply checks_first_never, never_check_aten.
  - apply checks_first_never, never_check_aten.
  - apply checks_first_clamp_out.
  - apply checks_first_clamp_out.
  - apply checks_first_clamp_max_out.
  - apply checks_first_clamp_max_out.
  - apply checks_first_clamp_min_out.
  - apply checks_first_clamp_min_out.
  - apply checks_first_polygamma_out.
  - apply checks_first_polygamma_out.
  - apply checks_first_IMPLEMENT_UNARY_OP_OUT.
  - apply checks_first_IMPLEMENT_UNARY_OP_OUT.
  - apply (checks_first_dispatch_out "erfinv" erfinv_stub).
  - apply (checks_first_dispatch_out "erfinv" erfinv_stub).
  - apply checks_first_IMPLEMENT_UNARY_OP_OUT.
  - apply checks_first_IMPLEMENT_UNARY_OP_OUT.
  - apply (checks_first_dispatch_out "lgamma" lgamma_stub).
  - apply (checks_first_dispatch_out "lgamma" lgamma_stub).
Qed.

Lemma checks_on_placeholder_run e :
  allocates_output e = true → checks_on_placeholder (run e).
Proof.
  destruct e as [o self| | | | | | | | | | | | | | | | | | | | | | | | | | | | |
                 | | | | |]; simpl; try done; intros _.
  - pose proof (λ r, checks_first_into_buffer o r self) as H.
    destruct o; simpl in *;
      unfold unary_op_impl, abs, unary_op_impl_with_complex_to_float, logical_not;
      validates_allocating; apply H.
  - unfold angle, unary_op_impl_with_complex_to_float. validates_allocating;
      apply checks_first_unary_op_impl_with_complex_to_float_out.
  - unfold conj, unary_op_impl. validates_allocating.
    apply checks_first_never, never_check_unary_op_impl_out.
  - unfold clamp. validates_allocating. apply checks_first_clamp_out.
  - unfold clamp_max. validates_allocating. apply checks_first_clamp_max_out.
  - unfold clamp_min. validates_allocating. apply checks_first_clamp_min_out.
  - unfold polygamma. validates_allocating.
    apply checks_first_then_ret, checks_first_polygamma_out.
  - unfold erfinv. validates_allocating.
    apply checks_first_then_ret, (checks_first_dispatch_out "erfinv" erfinv_stub).
  - unfold lgamma. validates_allocating.
    apply checks_first_then_ret, (checks_first_dispatch_out "lgamma" lgamma_stub).
Qed.

(** *** mvlgamma, which validates its elements by computing *)

(** The operators of other files that return a new tensor. *)
Definition out_of_place (c : AtenCall) : bool :=
  match c with
  | call_mul_out _ _ _ | call_pow_out _ _ _ | call_add_log_pi_term _ _ => false
  | _ => true
  end.

(** A computation that only adds tensors and storages, whatever it returns. *)
Definition only_allocates {A} (m : M A) : Prop :=
  ∀ w, extends (heap w) (heap (m w).2).

(** A computation after whose validation failures everything that existed is
    as it was. *)
Definition intact_at_checks {A} (m : M A) : Prop :=
  ∀ w, match (m w).1 with
       | inl (CheckFailure _ _) => extends (heap w) (heap (m w).2)
       | _ => True
       end.

Lemma extends_refl h : extends h h.
Proof. split; exists []; by rewrite app_nil_r. Qed.

Lemma only_allocates_observes {A} (m : M A) : observes m → only_allocates m.
Proof. intros H w. rewrite H. apply extends_refl. Qed.

Lemma only_allocates_bind {A B} (m : M A) (f : A → M B) :
  only_allocates m → (∀ a, only_allocates (f a)) → only_allocates (bind m f).
Proof.
  intros Hm Hf w. unfold bind. specialize (Hm w).
  destruct (m w) as [[e|a] w1]; simpl in *; [done|].
  eapply extends_trans; [exact Hm|apply Hf].
Qed.

Lemma intact_at_checks_first {A} (m : M A) : checks_first m → intact_at_checks m.
Proof.
  intros H w. specialize (H w).
  destruct (m w) as [[[]|] w1]; simpl in *; subst; try done. apply extends_refl.
Qed.

Lemma intact_at_checks_bind {A B} (m : M A) (f : A → M B) :
  only_allocates m → (∀ a, intact_at_checks (f a)) → intact_at_checks (bind m f).
Proof.
  intros Hm Hf w. unfold bind. specialize (Hm w).
  destruct (m w) as [[e|a] w1]; simpl in *; [by destruct e|].
  specialize (Hf a w1). destruct (f a w1) as [[[]|] w2]; simpl in *; try done.
  by eapply extends_trans.
Qed.

Lemma intact_at_checks_then {A B} (m : M A) (f : A → M B) :
  intact_at_checks m → (∀ a, never_check (f a)) → intact_at_checks (bind m f).
Proof.
  intros Hm Hf w. unfold bind. specialize (Hm w).
  destruct (m w) as [[e|a] w1]; simpl in *; [exact Hm|].
  specialize (Hf a w1). by destruct (f a w1) as [[[]|] w2].
Qed.

Section OutOfPlace.
(** The operators of other files that return a new tensor write to none of
    their arguments: after the call, what existed is as it was. *)
Hypothesis out_of_place_allocates :
  ∀ c h, out_of_place c = true → extends h (aten_oracle c h).2.

Lemma only_allocates_aten c : out_of_place c = true → only_allocates (aten c).
Proof.
  intros Hc w. unfold aten. pose proof (out_of_place_allocates c (heap w) Hc) as H.
  by destruct (aten_oracle c (heap w)).
Qed.

Ltac allocates_step :=
  first [ apply only_allocates_observes; solve_observes
        | apply only_allocates_aten; reflexivity
        | apply only_allocates_bind; [|intros ?] ].

Lemma only_allocates_mvlgamma_check self p : only_allocates (mvlgamma_check self p).
Proof. unfold mvlgamma_check. repeat allocates_step. Qed.

Lemma intact_mvlgamma_value self p : intact_at_checks (mvlgamma_value self p).
Proof.
  unfold mvlgamma_value.
  do 4 (apply intact_at_checks_bind; [repeat allocates_step|intros ?]).
  apply intact_at_checks_then; [|intros ?; solve_never].
  apply intact_at_checks_first, checks_first_lgamma_.
Qed.

Lemma intact_mvlgamma e : is_mvlgamma e = true → intact_at_checks (run e).
Proof.
  destruct e; try discriminate; intros _; cbn [run].
  - unfold mvlgamma.
    apply intact_at_checks_bind; [apply only_allocates_mvlgamma_check|intros _].
    apply intact_mvlgamma_value.
  - unfold mvlgamma_.
    apply intact_at_checks_bind; [apply only_allocates_mvlgamma_check|intros _].
    apply intact_at_checks_then; [apply intact_mvlgamma_value|intros ?; solve_never].
Qed.

End OutOfPlace.

Lemma mvlgamma_check_dtype_failure self p w msg w' :
  mvlgamma_check self p w = (inl (CheckFailure UnsupportedDtype msg), w') → w' = w.
Proof.
  unfold mvlgamma_check. rewrite bind_run.
  destruct (Tensor_scalar_type self w) as [[e|t] w0] eqn:E0.
  { unfold Tensor_scalar_type, bind, get_impl, ret in E0.
    destruct (tensors (heap w) !! self); inversion E0; subst. discriminate. }
  assert (w0 = w) as ->.
  { unfold Tensor_scalar_type, bind, get_impl, ret in E0.
    destruct (tensors (heap w) !! self); by inversion E0. }
  rewrite bind_run.
  destruct (isFloatingType t); cbn [TORCH_CHECK ret throw]; [|by intros [= _ ->]].
  rewrite bind_run.
  destruct (aten (call_gt self (ScalarDouble (Qmake (to_float (p - 1)) 2))) w)
    as [[e1|t1] w1] eqn:E1.
  { intros [= -> _].
    pose proof (never_check_aten
                  (call_gt self (ScalarDouble (Qmake (to_float (p - 1)) 2))) w) as H.
    by rewrite E1 in H. }
  rewrite bind_run.
  destruct (aten (call_all t1) w1) as [[e2|t2] w2] eqn:E2.
  { intros [= -> _]. pose proof (never_check_aten (call_all t1) w1) as H.
    by rewrite E2 in H. }
  rewrite bind_run. unfold item. cbn [fst snd].
  rewrite bind_run.
  destruct (item_bool t2 (heap w2)); cbn [TORCH_CHECK ret throw].
  - destruct (1 <=? p)%Z; discriminate.
  - discriminate.
Qed.

(** What mvlgamma computes after its check raises only the device and layout
    checks of lgamma. *)
Lemma mvlgamma_value_checks self p :
  raises_only [UnsupportedDevice; UnsupportedLayout] (mvlgamma_value self p).
Proof. repeat raises_step. Qed.

Lemma mvlgamma_value_no_dtype_failure self p w msg w' :
  mvlgamma_value self p w ≠ (inl (CheckFailure UnsupportedDtype msg), w').
Proof.
  intros Hrun. pose proof (mvlgamma_value_checks self p w) as H.
  rewrite Hrun in H. cbn [fst] in H.
  apply elem_of_cons in H as [H|H]; [discriminate H|].
  apply elem_of_cons in H as [H|H]; [discriminate H|]. by apply elem_of_nil in H.
Qed.

Lemma mvlgamma_dtype_failure e w msg w' :
  is_mvlgamma e = true →
  run e w = (inl (CheckFailure UnsupportedDtype msg), w') → w' = w.
Proof.
  destruct e; try discriminate; intros _ Hrun; cbn [run] in Hrun.
  - unfold mvlgamma in Hrun. rewrite bind_run in Hrun.
    destruct (mvlgamma_check self p w) as [[err|[]] w1] eqn:E.
    + inversion Hrun; subst. by eapply mvlgamma_check_dtype_failure.
    + by apply mvlgamma_value_no_dtype_failure in Hrun.
  - unfold mvlgamma_ in Hrun. rewrite bind_run in Hrun.
    destruct (mvlgamma_check self p w) as [[err|[]] w1] eqn:E.
    + inversion Hrun; subst. by eapply mvlgamma_check_dtype_failure.
    + rewrite bind_run in Hrun.
      destruct (mvlgamma_value self p w1) as [[err|v] w2] eqn:Ev.
      * inversion Hrun; subst. by apply mvlgamma_value_no_dtype_failure in Ev.
      * rewrite bind_run in Hrun.
        pose proof (never_check_copy_ self v w2) as H2.
        destruct (copy_ self v w2) as [[err|[]] w3]; simpl in H2.
        -- inversion Hrun; subst. done.
        -- discriminate Hrun.
Qed.

(** C8 (amended). For every entry point of the file other than mvlgamma and
    mvlgamma_, a validation failure (a failed TORCH_CHECK or AT_ERROR) is
    raised before anything is computed: when an into-buffer or in-place form
    fails so, the world is as it was; when an allocate-and-return form fails
    so, the world is the initial one with the placeholder [at::empty] has
    returned, and nothing else.  So no kernel, copy or operator of another
    file has run, and every tensor and storage that existed, the output of
    the caller or self included, is as it was.  For mvlgamma and mvlgamma_
    the UnsupportedDtype failure leaves the world as it was; their other
    validation failures come after operators of other files have run, and,
    these operators being out of place, every tensor and storage that
    existed, self included, is as it was after them too. *)
Theorem validation_precedes_computation e w k msg w' :
  run e w = (inl (CheckFailure k msg), w') →
  (is_mvlgamma e = false →
     if allocates_output e then ∃ o, w' = allocated o w else w' = w) ∧
  (is_mvlgamma e = true →
     (k = UnsupportedDtype → w' = w) ∧
     ((∀ c h, out_of_place c = true → extends h (aten_oracle c h).2) →
      extends (heap w) (heap w'))).
Proof.
  intros Hrun. split.
  - intros He. destruct (allocates_output e) eqn:Ha.
    + pose proof (checks_on_placeholder_run e Ha w) as H. by rewrite Hrun in H.
    + pose proof (checks_first_run e He Ha w) as H. by rewrite Hrun in H.
  - intros He. split.
    + intros ->. by eapply mvlgamma_dtype_failure.
    + intros Hpure. pose proof (intact_mvlgamma Hpure e He w) as H.
      by rewrite Hrun in H.
Qed.

End UnaryOps.

(** ** A small instance: integer cells on the CPU *)

Module Reference.

(** [c10::isIntegralType] and [c10::canCast]. *)
Definition isIntegralType (t : ScalarType) (includeBool : bool) : bool :=
  match t with
  | Byte | Char | Short | Int | Long => true
  | Bool => includeBool
  | _ => false
  end.

Definition canCast (from to : ScalarType) : bool :=
  if isComplexType from && negb (isComplexType to) then false
  else if isFloatingType from && isIntegralType to false then false
  else if negb (bool_decide (from = Bool)) && bool_decide (to = Bool) then false
  else true.

(** Complex to real keeps the real part; real to complex adds a zero
    imaginary part. *)
Definition cast (from to : ScalarType) (v : list Z) : list Z :=
  match isComplexType from, isComplexType to with
  | true, false => take 1 v
  | false, true => v ++ [0%Z]
  | _, _ => v
  end.

Definition bound (a : StubArg) : Z :=
  match a with
  | ArgScalar (ScalarInt z) => z
  | ArgInt z => z
  | _ => 0%Z
  end.

(** A few kernels on integers; the magnitude of a complex integer is taken
    in the 1-norm to stay within integers. *)
Definition kernel (s : Stub) (t : ScalarType) (args : list StubArg) (v : list Z)
  : list Z :=
  match s, v, args with
  | abs_stub, [a], _ => [Z.abs a]
  | abs_stub, [re; im], _ => [(Z.abs re + Z.abs im)%Z; 0%Z]
  | neg_stub, _, _ => Z.opp <$> v
  | sign_stub, _, _ => Z.sgn <$> v
  | logical_not_stub, _, _ => [if forallb (Z.eqb 0) v then 1%Z else 0%Z]
  | clamp_stub, [a], [lo; hi] => [Z.min (Z.max a (bound lo)) (bound hi)]
  | clamp_max_stub, [a], [hi] => [Z.min a (bound hi)]
  | clamp_min_stub, [a], [lo] => [Z.max a (bound lo)]
  | _, _, _ => v
  end.

(** The cells of the elements of a real tensor, in row-major order. *)
Definition cell_values (h : Heap Z) (i : TensorImpl) : list Z :=
  (λ o, load 0%Z (storages h) (storage i) o) <$> view_offsets i.

(** [q < v] for a rational [q] and an integer [v]. *)
Definition greater_than (q : Q) (v : Z) : bool :=
  (Qnum q <? v * Z.pos (Qden q))%Z.

(** Operators of other files: the comparison with a scalar and the reduction
    that [mvlgamma_check] calls, each returning a new boolean tensor; the
    others are absent. *)
Definition operator (c : AtenCall) (h : Heap Z) : (string + Tensor) * Heap Z :=
  match c with
  | call_gt self (ScalarDouble q) =>
      match tensors h !! self with
      | Some i =>
          (inr (length (tensors h)),
           mkHeap
             (tensors h
              ++ [mkImpl (with_dtype (options i) Bool) (sizes i)
                    (contiguous_strides (sizes i)) 0 (length (storages h)) false])
             (storages h
              ++ [(λ v, if greater_than q v then 1%Z else 0%Z) <$> cell_values h i]))
      | None => (inl "undefined tensor", h)
      end
  | call_all self =>
      match tensors h !! self with
      | Some i =>
          (inr (length (tensors h)),
           mkHeap
             (tensors h ++ [mkImpl (options i) [] [] 0 (length (storages h)) false])
             (storages h
              ++ [[if forallb (λ v, negb (v =? 0)%Z) (cell_values h i)
                   then 1%Z else 0%Z]]))
      | None => (inl "undefined tensor", h)
      end
  | _ => (inl "not available in this instance", h)
  end.

(** [item<bool>()]: the first cell of the view is not zero. *)
Definition item (t : Tensor) (h : Heap Z) : bool :=
  match tensors h !! t with
  | Some i => negb (load 0%Z (storages h) (storage i) (storage_offset i) =? 0)%Z
  | None => false
  end.

Definition env : Collaborators Z :=
  mkCollaborators 0%Z canCast cast (λ _ d, bool_decide (d = CPU)) kernel operator
    item.

Definition cpu (t : ScalarType) : TensorOptions := mkOptions t Strided CPU.

(** The tensors of the examples, by handle: 0 a real vector, 1 a complex
    vector, 2 a boolean vector, 3 a copy of 1, 4 an integer vector, 5 a sparse
    real vector, 6 a copy of 0, 7 a real vector of positive elements. *)
Definition t_real : TensorImpl := mkImpl (cpu Float) [3] [1] 0 0 false.
Definition t_complex : TensorImpl := mkImpl (cpu ComplexFloat) [2] [1] 0 1 false.
Definition t_bool : TensorImpl := mkImpl (cpu Bool) [2] [1] 0 2 false.
Definition t_complex_copy : TensorImpl := mkImpl (cpu ComplexFloat) [2] [1] 0 3 false.
Definition t_int : TensorImpl := mkImpl (cpu Int) [2] [1] 0 4 false.
Definition t_sparse : TensorImpl := mkImpl (mkOptions Float Sparse CPU) [2] [1] 0 5 false.
Definition t_real_copy : TensorImpl := mkImpl (cpu Float) [3] [1] 0 6 false.
Definition t_positive : TensorImpl := mkImpl (cpu Float) [2] [1] 0 7 false.

Definition w0 : World Z :=
  mkWorld
    (mkHeap
       [ t_real; t_complex; t_bool; t_complex_copy; t_int; t_sparse; t_real_copy;
         t_positive ]
       [ [-1; 5; 20]%Z; [3; -4; 0; 2]%Z; [0; 1]%Z; [3; -4; 0; 2]%Z; [7; -7]%Z;
         [1; 2]%Z; [-1; 5; 20]%Z; [1; 2]%Z ])
    [].

(** The comparison and the reduction return new tensors and leave what
    existed as it was. *)
Lemma operator_allocates c h : out_of_place c = true → extends h (operator c h).2.
Proof.
  intros _. destruct c as [| | | |self [| |]| | | | | |]; cbn [operator snd];
    try apply extends_refl.
  all: destruct (tensors h !! self); cbn [snd];
    [split; by eexists|apply extends_refl].
Qed.

End Reference.

(** ** The instance with scalar tensors *)

Module Scalars.

(** On integer cells a scalar is rounded down. *)
Definition scalar_cell (s : Scalar) : Z :=
  match s with
  | ScalarInt z => z
  | ScalarDouble q => (Qnum q / Z.pos (Qden q))%Z
  | ScalarBool b => if b then 1%Z else 0%Z
  end.

(** [scalar_to_tensor] returns a new 0-dimensional Double tensor on the CPU
    that holds the scalar; the other operators are those of [Reference]. *)
Definition operator (c : AtenCall) (h : Heap Z) : (string + Tensor) * Heap Z :=
  match c with
  | call_scalar_to_tensor s =>
      (inr (length (tensors h)),
       mkHeap
         (tensors h ++ [mkImpl (Reference.cpu Double) [] [] 0 (length (storages h)) false])
         (storages h ++ [[scalar_cell s]]))
  | _ => Reference.operator c h
  end.

Definition env : Collaborators Z :=
  mkCollaborators 0%Z Reference.canCast Reference.cast
    (λ _ d, bool_decide (d = CPU)) Reference.kernel operator Reference.item.

End Scalars.

(** ** The instance with a multiplication *)

Module Multiplying.

(** The per-element function of a multiplication: the cells of the element
    times the factor the loop is given. *)
Definition times (_ : Stub) (_ : ScalarType) (args : list StubArg) (v : list Z)
  : list Z :=
  match args with
  | [ArgInt k] => Z.mul k <$> v
  | _ => v
  end.

(** The plan builder and the loop of the kernel interface with that
    function, on any device. *)
Definition loop : Collaborators Z :=
  mkCollaborators 0%Z Reference.canCast Reference.cast (λ _ _, true) times
    Reference.operator Reference.item.

(** The factor a tensor holds: the first cell of its first element. *)
Definition factor (h : Heap Z) (i : TensorImpl) : Z :=
  default 0%Z (head (concat (tensor_elements loop h i))).

(** [mul_out] runs the loop over the output and the input with the factor of
    the other operand (the stub only names the event); [scalar_to_tensor] is
    that of [Scalars]. *)
Definition operator (c : AtenCall) (h : Heap Z) : (string + Tensor) * Heap Z :=
  match c with
  | call_mul_out result self other =>
      match tensors h !! other with
      | Some it =>
          let run := iterate loop (mkConfig true true) neg_stub [ArgInt (factor h it)]
                       result self (mkWorld h []) in
          (match run.1 with
           | inl _ => inl "the multiplication failed"
           | inr t => inr t
           end, heap run.2)
      | None => (inl "undefined tensor", h)
      end
  | _ => Scalars.operator c h
  end.

Definition env : Collaborators Z :=
  mkCollaborators 0%Z Reference.canCast Reference.cast
    (λ _ d, bool_decide (d = CPU)) Reference.kernel operator Reference.item.



End Multiplying.

(** ** The theorems at concrete inputs *)

Section Examples.
Import Reference.



(** With the multiplication of [Multiplying], on integer cells, rad2deg_
    leaves the real vector [-1, 5, 20] as [-57, 285, 1140], and rad2deg of
    its copy returns a new tensor that reads the same. *)
Lemma rad2deg_in_place_and_out_of_place_on_real :
  (rad2deg_ Multiplying.env 0 w0).1 = inr 0 ∧
  read_tensor Multiplying.env (heap (rad2deg_ Multiplying.env 0 w0).2) 0
  = Some (Float, [3], [[-57]; [285]; [1140]]%Z) ∧
  (rad2deg Multiplying.env 6 w0).1 = inr 8 ∧
  read_tensor Multiplying.env (heap (rad2deg Multiplying.env 6 w0).2) 8
  = Some (Float, [3], [[-57]; [285]; [1140]]%Z).
Proof. vm_compute. repeat split. Qed.

(** logical_not_ leaves the real vector a Float tensor, logical_not of its
    copy returns a Bool tensor: C1 as stated fails for logical_not too. *)
Lemma logical_not_in_place_differs_from_out_of_place_on_real :
  ¬ agree_after env 0 (logical_not_ env 0 w0) (logical_not env 6 w0).
Proof.
  unfold agree_after. vm_compute. intros [_ H]. discriminate H.
Qed.

(** abs_out from the complex vector into the integer vector is refused; into
    the real vector it goes through the temporary. *)
Lemma complex_to_real_policy_witness :
  (fails_with InvalidCast
     (unary_op_impl_with_complex_to_float_out env 4 1 abs_stub w0) ∧
   (unary_op_impl_with_complex_to_float_out env 4 1 abs_stub w0).2 = w0) ∧
  policy_outcome env abs_stub w0 0 1 t_complex t_real
    (unary_op_impl_with_complex_to_float_out env 0 1 abs_stub w0).
Proof.
  split.
  - destruct (complex_to_real_policy env abs_stub 4 1 w0 t_complex t_int
                eq_refl eq_refl) as (_ & _ & H & _).
    exact (H eq_refl eq_refl eq_refl).
  - destruct (complex_to_real_policy env abs_stub 0 1 w0 t_complex t_real
                eq_refl eq_refl) as (_ & _ & _ & H & _).
    apply H; try reflexivity.
    + vm_compute. lia.
    + vm_compute. lia.
    + intros Hsz. discriminate Hsz.
Defined.

(** abs and angle of the complex vector are new real tensors; abs and angle
    of the real vector are new tensors with its options. *)
Lemma abs_and_angle_result_dtype_witness :
  (returns_new_tensor (cpu Float) [2] w0 (abs env 1 w0) ∧
   returns_new_tensor (cpu Float) [2] w0 (angle env 1 w0)) ∧
  (returns_new_tensor (cpu Float) [3] w0 (abs env 0 w0) ∧
   returns_new_tensor (cpu Float) [3] w0 (angle env 0 w0)).
Proof.
  split.
  - destruct (abs_and_angle_result_dtype env w0 1 t_complex eq_refl eq_refl)
      as [H _]; [vm_compute; lia|].
    destruct (H eq_refl eq_refl) as [H1 H2].
    split; [exact (H1 eq_refl)|exact (H2 eq_refl)].
  - destruct (abs_and_angle_result_dtype env w0 0 t_real eq_refl eq_refl)
      as [_ H]; [vm_compute; lia|].
    destruct (H eq_refl) as [H1 H2].
    split; [exact (H1 eq_refl)|exact (H2 eq_refl)].
Defined.

(** clamp on the complex, the real and the sparse vector. *)
Lemma clamp_checks_in_order_and_delegates_witness :
  fails_with UnsupportedDtype (clamp env 1 None None w0) ∧
  fails_with InvalidArgument (clamp env 0 None None w0) ∧
  fails_with UnsupportedLayout (clamp env 5 (Some (ScalarInt 0)) None w0) ∧
  clamp_out env 6 0 (Some (ScalarInt 0)) (Some (ScalarInt 10)) w0
  = iterate env (mkConfig true true) clamp_stub
      [ArgScalar (ScalarInt 0); ArgScalar (ScalarInt 10)] 6 0 w0.
Proof.
  split; [|split; [|split]].
  - destruct (clamp_checks_in_order_and_delegates env w0 1 t_complex None None
                eq_refl) as (H & _).
    exact (proj1 (H eq_refl)).
  - destruct (clamp_checks_in_order_and_delegates env w0 0 t_real None None
                eq_refl) as (_ & H & _).
    exact (proj1 (H eq_refl)).
  - destruct (clamp_checks_in_order_and_delegates env w0 5 t_sparse
                (Some (ScalarInt 0)) None eq_refl) as (_ & _ & H & _).
    refine (proj1 (H eq_refl _ _)).
    + left. by eexists.
    + discriminate.
  - destruct (clamp_checks_in_order_and_delegates env w0 0 t_real None None
                eq_refl) as (_ & _ & _ & H & _).
    exact (H eq_refl eq_refl _ _ _).
Defined.

(** C4 as stated fails for a complex input without bounds: the complex check
    comes first, and the failure is UnsupportedDtype, not InvalidArgument. *)
Lemma clamp_without_bounds_on_complex_is_a_dtype_failure :
  fails_with UnsupportedDtype (clamp env 1 None None w0) ∧
  ¬ fails_with InvalidArgument (clamp env 1 None None w0).
Proof.
  split.
  - eexists. vm_compute. reflexivity.
  - intros [msg H]. vm_compute in H. discriminate H.
Qed.

(** ceil of the complex vector and neg of the boolean vector. *)
Lemma rounding_rejects_complex_and_neg_rejects_bool_witness :
  (fails_with UnsupportedDtype (ceil env 1 w0) ∧
   fails_with UnsupportedDtype (floor_ env 1 w0) ∧
   fails_with UnsupportedDtype (trunc_out env 0 1 w0)) ∧
  fails_with UnsupportedDtype (neg env 2 w0).
Proof.
  split.
  - destruct (rounding_rejects_complex_and_neg_rejects_bool env w0 1 t_complex
                eq_refl) as [H _].
    destruct (H eq_refl) as (H1 & _ & _ & _ & H5 & _ & _ & _ & H9).
    split; [exact H1|]. split; [exact H5|exact (H9 0)].
  - destruct (rounding_rejects_complex_and_neg_rejects_bool env w0 2 t_bool
                eq_refl) as [_ H].
    exact (proj1 (H eq_refl)).
Defined.

(** real and imag of the complex vector; real of the real vector. *)
Lemma real_and_imag_are_views_witness :
  (is_component_view env w0 1 t_complex 0 (real 1 w0) ∧
   is_component_view env w0 1 t_complex 1 (imag 1 w0)) ∧
  fails_with UnsupportedDtype (real 0 w0).
Proof.
  split.
  - destruct (real_and_imag_are_views env w0 1 t_complex eq_refl) as [_ H].
    exact (H eq_refl eq_refl).
  - destruct (real_and_imag_are_views env w0 0 t_real eq_refl) as [H _].
    exact (proj1 (H eq_refl)).
Defined.



(** ceil of the complex vector fails when the placeholder is allocated and
    nothing else; ceil_ of it fails when nothing has changed; mvlgamma_ of
    multiplicity 1 of the real vector, whose first element is below 0, fails
    with the real vector and everything else as they were. *)
Lemma validation_precedes_computation_witness :
  (∃ o, (run env (Allocating op_ceil 1) w0).2 = allocated o w0) ∧
  (run env (InPlace op_ceil 1) w0).2 = w0 ∧
  extends (heap w0) (heap (run env (Mvlgamma_ 0 1) w0).2).
Proof.
  split; [|split].
  - destruct (validation_precedes_computation env (Allocating op_ceil 1) w0
                UnsupportedDtype "ceil is not supported for complex inputs"
                (run env (Allocating op_ceil 1) w0).2 eq_refl) as [H _].
    exact (H eq_refl).
  - destruct (validation_precedes_computation env (InPlace op_ceil 1) w0
                UnsupportedDtype "ceil is not supported for complex inputs"
                (run env (InPlace op_ceil 1) w0).2 eq_refl) as [H _].
    exact (H eq_refl).
  - destruct (validation_precedes_computation env (Mvlgamma_ 0 1) w0
                InvalidArgument "All elements must be greater than (p-1)/2"
                (run env (Mvlgamma_ 0 1) w0).2 eq_refl) as [_ H].
    exact (proj2 (H eq_refl) operator_allocates).
Defined.

(** C8 as stated fails for mvlgamma: with multiplicity 1 on the real vector,
    whose first element is below 0, the element-range failure is raised after
    the comparison and the reduction have run. *)
Lemma mvlgamma_validates_after_computing :
  fails_with InvalidArgument (mvlgamma env 0 1 w0) ∧
  ¬ quiet w0 (mvlgamma env 0 1 w0).2.
Proof.
  split.
  - eexists. vm_compute. reflexivity.
  - intros (_ & _ & evs & Heq & Hall). vm_compute in Heq. subst evs.
    inversion Hall as [|? ? Hc _]. discriminate Hc.
Qed.

(** logical_not of the real vector is boolean. *)
Lemma logical_not_allocates_bool_witness :
  ∃ r ir w',
    logical_not env 0 w0 = (inr r, w') ∧
    tensors (heap w') !! r = Some ir ∧
    scalar_type ir = Bool.
Proof.
  destruct (logical_not_allocates_bool env w0 0 t_real eq_refl eq_refl)
    as [H _]; [vm_compute; lia|].
  destruct (H eq_refl) as (r & ir & w' & H1 & H2 & H3 & _).
  exists r, ir, w'. split; [exact H1|]. split; [exact H2|exact H3].
Defined.

(** clamp_max of the complex vector, clamp_min_ of the sparse vector, and
    clamp_max_out from the real vector into its copy. *)
Lemma one_sided_clamps_check_dtype_then_layout_witness :
  fails_with UnsupportedDtype (clamp_max env 1 (ScalarInt 3) w0) ∧
  fails_with UnsupportedLayout (clamp_min_ env 5 (ScalarInt 3) w0) ∧
  clamp_max_out env 6 0 (ScalarInt 3) w0
  = iterate env (mkConfig true true) clamp_max_stub [ArgScalar (ScalarInt 3)] 6 0 w0.
Proof.
  split; [|split].
  - destruct (one_sided_clamps_check_dtype_then_layout env w0 1 t_complex
                (ScalarInt 3) eq_refl) as (H & _).
    exact (proj1 (proj1 (H eq_refl))).
  - destruct (one_sided_clamps_check_dtype_then_layout env w0 5 t_sparse
                (ScalarInt 3) eq_refl) as (_ & H & _).
    refine (proj1 (proj2 (proj2 (H eq_refl _)))). discriminate.
  - destruct (one_sided_clamps_check_dtype_then_layout env w0 0 t_real
                (ScalarInt 3) eq_refl) as (_ & _ & H).
    exact (proj1 (H eq_refl eq_refl 6)).
Defined.

(** The CUDA entry point of erfinv on an output on the CPU, the CPU entry
    point of lgamma on the sparse vector, and the CPU entry point of erfinv
    from the real vector into its copy. *)
Lemma generated_entry_point_checks_its_output_witness :
  fails_with UnsupportedDevice (_erfinv_out_cuda env 0 1 w0) ∧
  fails_with UnsupportedLayout (_lgamma_out_cpu env 5 0 w0) ∧
  _erfinv_out_cpu env 6 0 w0 = iterate env (mkConfig true true) erfinv_stub [] 6 0 w0.
Proof.
  split; [|split].
  - destruct (generated_entry_point_checks_its_output env "erfinv" erfinv_stub CUDA
                0 1 w0 t_real eq_refl) as (H & _).
    refine (proj1 (H _)). discriminate.
  - destruct (generated_entry_point_checks_its_output env "lgamma" lgamma_stub CPU
                5 0 w0 t_sparse eq_refl) as (_ & H & _).
    refine (proj1 (H eq_refl _)). discriminate.
  - destruct (generated_entry_point_checks_its_output env "erfinv" erfinv_stub CPU
                6 0 w0 t_real_copy eq_refl) as (_ & _ & H).
    exact (H eq_refl eq_refl).
Defined.


(** neg_ on the real vector: the other tensors and storages are as before,
    and the vector still views storage 0 as a Float tensor on the CPU. *)
Lemma calls_write_only_their_output_witness :
  (∀ t, t < length (tensors (heap w0)) → t ≠ 0 →
        tensors (heap (run env (InPlace op_neg 0) w0).2) !! t = tensors (heap w0) !! t) ∧
  (∀ s, s < length (storages (heap w0)) → s ≠ storage t_real →
        storages (heap (run env (InPlace op_neg 0) w0).2) !! s
        = storages (heap w0) !! s) ∧
  (∃ i, tensors (heap (run env (InPlace op_neg 0) w0).2) !! 0 = Some i ∧
        storage i = storage t_real ∧ options i = options t_real).
Proof.
  exact (calls_write_only_their_output env (InPlace op_neg 0) w0 0 t_real
           eq_refl eq_refl).
Defined.

(** neg of the real vector: the heap grows, and the result is new. *)
Lemma allocating_forms_leave_their_input_alone_witness :
  (∃ ts, tensors (heap (run env (Allocating op_neg 0) w0).2)
         = tensors (heap w0) ++ ts) ∧
  (∃ ss, storages (heap (run env (Allocating op_neg 0) w0).2)
         = storages (heap w0) ++ ss) ∧
  (∀ t, (run env (Allocating op_neg 0) w0).1 = inr t →
        length (tensors (heap w0)) ≤ t
        < length (tensors (heap (run env (Allocating op_neg 0) w0).2))).
Proof.
  exact (allocating_forms_leave_their_input_alone env (Allocating op_neg 0) w0 eq_refl).
Defined.

(** sign of the real vector [-1; 5; 20] is a new vector, tensor 8 in
    storage 8, that holds the signs; the real vector is as before. *)
Lemma unary_op_impl_computes_each_element_witness :
  ∃ cs,
    let ir := mkImpl (cpu Float) [3] [1] 0 8 false in
    let h' := mkHeap (tensors (heap w0) ++ [ir]) (storages (heap w0) ++ [cs]) in
    sign env 0 w0
    = (inr 8,
       mkWorld h'
         (trace w0 ++ [EvEmpty 8 (cpu Float); EvResize 8 [3];
                       EvBuild (mkConfig true true) 8 0;
                       EvKernel sign_stub CPU 8 0 []])) ∧
    tensor_elements env h' ir
    = element_result env sign_stub [] Float Float <$> tensor_elements env (heap w0) t_real ∧
    tensor_elements env h' t_real = tensor_elements env (heap w0) t_real.
Proof.
  refine (unary_op_impl_computes_each_element env sign_stub 0 w0 t_real
            eq_refl eq_refl _).
  vm_compute. lia.
Defined.

(** sign_ on the real vector returns it, with its elements replaced. *)
Lemma unary_op_impl__replaces_each_element_witness :
  ∃ w',
    sign_ env 0 w0 = (inr 0, w') ∧
    tensors (heap w') = tensors (heap w0) ∧
    tensor_elements env (heap w') t_real
    = element_result env sign_stub [] Float Float <$> tensor_elements env (heap w0) t_real.
Proof.
  refine (unary_op_impl__replaces_each_element env sign_stub 0 w0 t_real eq_refl _).
  apply well_formedb_sound. vm_compute. reflexivity.
Defined.

(** ceil and neg of the real vector are the helpers on their stubs. *)
Lemma checked_operators_are_typical_on_their_domain_witness :
  ceil env 0 w0 = unary_op_impl 0 (λ r s, unary_op_impl_out env r s ceil_stub) w0 ∧
  neg_ env 0 w0 = unary_op_impl_ 0 (λ r s, unary_op_impl_out env r s neg_stub) w0.
Proof.
  destruct (checked_operators_are_typical_on_their_domain env w0 0 t_real eq_refl)
    as [H1 H2].
  split.
  - exact (proj1 (proj1 (H1 eq_refl))).
  - refine (proj1 (proj2 (H2 _))). discriminate.
Defined.

(** erfinv and lgamma of the real vector, which is strided and on the CPU,
    and the CPU entry point of erfinv from the real vector into its copy. *)
Lemma erfinv_and_lgamma_are_typical_on_the_cpu_witness :
  erfinv env 0 w0 = unary_op_impl 0 (λ r s, unary_op_impl_out env r s erfinv_stub) w0 ∧
  _lgamma__cpu env 0 w0
  = unary_op_impl_ 0 (λ r s, unary_op_impl_out env r s lgamma_stub) w0 ∧
  _erfinv_out_cpu env 6 0 w0 = unary_op_impl_out env 6 0 erfinv_stub w0.
Proof.
  destruct (erfinv_and_lgamma_are_typical_on_the_cpu env w0 0 t_real eq_refl)
    as [Hout H].
  destruct (H eq_refl eq_refl) as [H1 H2].
  split; [exact (proj1 H1)|]. split; [exact (proj2 H2)|].
  exact (proj1 (Hout 6 t_real_copy eq_refl eq_refl eq_refl)).
Defined.

(** rad2deg of the complex vector is refused; rad2deg_out from the real
    vector into its copy hands mul_out the output, the input and tensor 8,
    the wrapped scalar tensor of the factor. *)
Lemma degree_conversions_multiply_by_a_wrapped_scalar_witness :
  fails_with UnsupportedDtype (rad2deg env 1 w0) ∧
  rad2deg_out Scalars.env 6 0 w0
  = aten Scalars.env (call_mul_out 6 0 8)
      (mkWorld
         (flagged 8 (mkImpl (cpu Double) [] [] 0 8 false)
            (Scalars.operator (call_scalar_to_tensor (ScalarDouble M_180_PI))
               (heap w0)).2)
         (trace w0 ++ [EvAten (call_scalar_to_tensor (ScalarDouble M_180_PI))])).
Proof.
  split.
  - destruct (degree_conversions_multiply_by_a_wrapped_scalar env w0 1 t_complex
                eq_refl) as [H _].
    exact (proj1 (proj1 (H eq_refl))).
  - destruct (degree_conversions_multiply_by_a_wrapped_scalar Scalars.env w0 0 t_real
                eq_refl) as [_ H].
    exact (proj1 (H eq_refl 6 8
                    (Scalars.operator (call_scalar_to_tensor (ScalarDouble M_180_PI))
                       (heap w0)).2
                    (mkImpl (cpu Double) [] [] 0 8 false) eq_refl)
             eq_refl).
Defined.

(** The opposite of the sign of the real vector: tensors 8 and 9, in
    storages 8 and 9. *)
Lemma typical_operators_compose_witness :
  ∃ cs1 cs2 tr,
    let ir k := mkImpl (cpu Float) [3] [1] 0 (8 + k) false in
    let h' := mkHeap (tensors (heap w0) ++ [ir 0; ir 1])
                (storages (heap w0) ++ [cs1; cs2]) in
    bind (unary_op_impl 0 (λ r s, unary_op_impl_out env r s sign_stub))
      (λ y, unary_op_impl y (λ r s, unary_op_impl_out env r s neg_stub)) w0
    = (inr 9, mkWorld h' tr) ∧
    tensor_elements env h' (ir 1)
    = (λ v, element_result env neg_stub [] Float Float
              (element_result env sign_stub [] Float Float v))
        <$> tensor_elements env (heap w0) t_real ∧
    tensor_elements env h' t_real = tensor_elements env (heap w0) t_real.
Proof.
  refine (typical_operators_compose env sign_stub neg_stub 0 w0 t_real
            eq_refl eq_refl _ eq_refl eq_refl).
  vm_compute. lia.
Defined.

(** The sign of the real vector, then its opposite, both in place. *)
Lemma in_place_calls_chain_witness :
  ∃ w',
    bind (unary_op_impl_ 0 (λ r s, unary_op_impl_out env r s sign_stub))
      (λ y, unary_op_impl_ y (λ r s, unary_op_impl_out env r s neg_stub)) w0
    = (inr 0, w') ∧
    tensors (heap w') = tensors (heap w0) ∧
    tensor_elements env (heap w') t_real
    = (λ v, element_result env neg_stub [] Float Float
              (element_result env sign_stub [] Float Float v))
        <$> tensor_elements env (heap w0) t_real.
Proof.
  refine (in_place_calls_chain env sign_stub neg_stub 0 w0 t_real
            eq_refl _ eq_refl eq_refl).
  apply well_formedb_sound. vm_compute. reflexivity.
Defined.

(** The opposite in place on real and on imag of the complex vector
    [3-4i; 0+2i]. *)
Lemma writes_through_real_and_imag_reach_the_tensor_witness :
  (∃ v w',
     bind (real 1) (λ v, unary_op_impl_ v (λ r s, unary_op_impl_out env r s neg_stub)) w0
     = (inr v, w') ∧
     tensors (heap w') !! 1 = Some t_complex ∧
     tensor_elements env (heap w') t_complex
     = on_component 0 (element_result env neg_stub [] Float Float)
         <$> tensor_elements env (heap w0) t_complex) ∧
  (∃ v w',
     bind (imag 1) (λ v, unary_op_impl_ v (λ r s, unary_op_impl_out env r s neg_stub)) w0
     = (inr v, w') ∧
     tensors (heap w') !! 1 = Some t_complex ∧
     tensor_elements env (heap w') t_complex
     = on_component 1 (element_result env neg_stub [] Float Float)
         <$> tensor_elements env (heap w0) t_complex).
Proof.
  refine (writes_through_real_and_imag_reach_the_tensor env neg_stub 1 w0 t_complex
            eq_refl eq_refl _ eq_refl).
  apply well_formedb_sound. vm_compute. reflexivity.
Defined.

(** sign of the real vector into its copy, which lies in a storage of its
    own: the copy takes the signs and the vector stays. *)
Lemma unary_op_impl_out_fills_the_output_witness :
  ∃ w',
    unary_op_impl_out env 6 0 sign_stub w0 = (inr 6, w') ∧
    tensors (heap w') = tensors (heap w0) ∧
    tensor_elements env (heap w') t_real_copy
    = element_result env sign_stub [] Float Float <$> tensor_elements env (heap w0) t_real ∧
    tensor_elements env (heap w') t_real = tensor_elements env (heap w0) t_real.
Proof.
  refine (unary_op_impl_out_fills_the_output env sign_stub 6 0 w0 t_real_copy t_real
            eq_refl eq_refl eq_refl eq_refl _ _ eq_refl).
  - vm_compute. lia.
  - apply well_formedb_sound. vm_compute. reflexivity.
Defined.

(** abs_ on the complex vector is the plain in-place operator; abs of the
    real vector is the plain allocating one. *)
Lemma abs_and_angle_are_typical_without_conversion_witness :
  abs_ env 1 w0 = unary_op_impl_ 1 (λ r s, unary_op_impl_out env r s abs_stub) w0 ∧
  abs env 0 w0 = unary_op_impl 0 (λ r s, unary_op_impl_out env r s abs_stub) w0.
Proof.
  split.
  - exact (proj1 (abs_and_angle_are_typical_without_conversion env w0 1 t_complex
                    eq_refl)).
  - exact (proj1 (proj2 (proj2 (proj2
             (abs_and_angle_are_typical_without_conversion env w0 0 t_real eq_refl))
             eq_refl))).
Defined.


End Examples.
